(** * Multidimensional Hermite polynomials: the index recursion of
      [thewalrus/_hermite_multidimensional.py]

    A shallow embedding of the pure-Python/numba recursion
    ([partition], [dec], [remove], [SQRT],
    [hermite_multidimensional_numba], [grad_hermite_multidimensional_numba]
    and their per-index loops) and of the dispatching front end
    [hermite_multidimensional].

    Conventions.
    - Python integers are [Z]; positions produced by [enumerate] are [nat].
    - Tuples are lists; a multi-index is a [list Z].
    - Array elements live in an abstract scalar type [K] with the
      operations the code applies to them, in the order the code applies
      them.  The only laws assumed are that the square root of zero is
      zero and that of a positive integer is not, so every statement
      holds for float64, complex128 or exact arithmetic alike.
    - Exceptions are values of [exception]; a computation that may raise
      returns a [result].  The [lru_cache] in front of [partition] is an
      explicit store threaded through the two drivers.
    - The two drivers are interpreted Python: there a subscript outside
      its array is NumPy's [IndexError].  The four functions under
      [@jit(nopython=True)] are compiled by numba, which checks the
      subscripts of tuples but not those of arrays, and whose division
      raises [ZeroDivisionError] on a zero divisor.  An array subscript
      out of range raises nothing there: the read or write lands outside
      the array, and what the call returns from then on depends on memory
      the source does not describe.  The embedding marks this outcome
      [OutOfBounds] and does not follow the call further; no statement
      below takes it for an exception.
    - What the front end delegates to code outside this file (the
      validation of [_hafnian], the [libwalrus] kernels, NumPy's dtype
      detection, product and reshape) is an interface, [Collaborators]. *)

From Stdlib Require Import ZArith Lia Reals Lra.
From stdpp Require Import base list gmap.

Open Scope Z_scope.

(** ** Exceptions and results *)

(** The arrays compiled code subscripts: the tensors ([array], [dG_dR],
    [dG_dy]), the matrix [R], the vector [y] and the table [SQRT]. *)
Inductive subscripted : Type :=
| Of_tensor
| Of_R
| Of_y
| Of_SQRT.

Inductive exception : Type :=
| IncompatibleDimensionsOf (rshape : nat * nat) (yshape : nat)
    (* ValueError(f"The matrix R and vector y have incompatible
       dimensions ({R.shape} vs {y.shape})") *)
| IncompatibleDimensions
    (* ValueError("The matrix R and vector y have incompatible dimensions") *)
| InvalidShape
    (* ValueError raised by np.zeros: a negative dimension, more than 32
       dimensions, or a size in bytes beyond the largest index *)
| MemoryError          (* raised by np.zeros when the allocation fails *)
| CannotReshape        (* ValueError raised by np.reshape *)
| MatmulMismatch       (* ValueError raised by the operator @ *)
| IndexError
| ZeroDivisionError    (* raised by the division of compiled code *)
| TypingError
    (* raised by numba when it compiles a subscript with more entries
       than the array has dimensions *)
| OutOfBounds (a : subscripted)
    (* not a Python exception: compiled code subscripts [a] out of range;
       nothing is raised, the call goes on with memory outside the array
       and the embedding does not follow it *)
| PartialIndex
    (* not a Python exception: an index shorter than the rank selects a
       sub-array; the embedding reads single elements only and stops *)
| InvalidInput         (* raised by the validation collaborator *)
| RecursionError.

Inductive result (A : Type) : Type :=
| Ok (a : A)
| Err (e : exception).
Arguments Ok {A} a.
Arguments Err {A} e.

#[global] Instance result_ret : MRet result := λ A a, Ok a.
#[global] Instance result_bind : MBind result := λ A B f m,
  match m with
  | Ok a => f a
  | Err e => Err e
  end.

Definition is_Ok {A} (r : result A) : Prop := ∃ a, r = Ok a.

Definition of_option {A} (o : option A) (e : exception) : result A :=
  match o with
  | Some a => Ok a
  | None => Err e
  end.

(** A NumPy subscript as numba compiles it: where NumPy raises
    [IndexError], compiled code goes on outside the array [a]. *)
Definition unchecked {A} (a : subscripted) (r : result A) : result A :=
  match r with
  | Err IndexError => Err (OutOfBounds a)
  | _ => r
  end.

(** [for x in xs: s = body(s, x)], stopping at the first exception. *)
Fixpoint for_each {A S : Type} (xs : list A) (body : S → A → result S) (s : S)
  : result S :=
  match xs with
  | [] => Ok s
  | x :: xs' =>
      match body s x with
      | Ok s' => for_each xs' body s'
      | Err e => Err e
      end
  end.

(** ** Python built-ins on integers and tuples *)

(** [range(n)] *)
Definition range (n : Z) : list Z := seqZ 0 n.

(** [sum(comb)] *)
Definition sumZ (l : list Z) : Z := foldr Z.add 0 l.

(** [itertools.product] applied to the unpacked pools: lexicographic, last
    pool fastest. *)
Fixpoint product {A : Type} (pools : list (list A)) : list (list A) :=
  match pools with
  | [] => [[]]
  | p :: ps => x ← p; cons x <$> product ps
  end.

(** ** [partition] (the body under [lru_cache]) *)

Definition partition (photons : Z) (cutoff : list Z) : list (list Z) :=
  filter (λ comb, sumZ comb = photons)
         (product ((λ i, range (Z.min photons (i - 1) + 1)) <$> cutoff)).

(** The enumeration the specification calls naive: every candidate over
    the full range [0 ≤ k_j < cutoff_j], then the filter on the sum. *)
Definition partition_naive (photons : Z) (cutoff : list Z) : list (list Z) :=
  filter (λ comb, sumZ comb = photons) (product (range <$> cutoff)).

(** A multi-index lies inside a shape. *)
Definition in_shape (idx shape : list Z) : Prop :=
  Forall2 (λ k d, 0 ≤ k < d) idx shape.

(** ** Facts about [product], [sumZ] and [partition] *)

Lemma elem_of_product {A} (pools : list (list A)) (k : list A) :
  k ∈ product pools ↔ Forall2 (λ x p, x ∈ p) k pools.
Proof.
  revert k. induction pools as [|p ps IH]; intros k; simpl.
  - rewrite list_elem_of_singleton. split.
    + intros ->. constructor.
    + by inversion 1.
  - rewrite list_elem_of_bind. split.
    + intros (x & Hk & Hx). apply list_elem_of_fmap in Hk as (k' & -> & Hk').
      constructor; [done|]. by apply IH.
    + inversion 1 as [|x p' k' ps' Hx Hk']; subst.
      exists x. split; [|done]. apply list_elem_of_fmap.
      exists k'. split; [done|]. by apply IH.
Qed.

Lemma NoDup_product {A} (pools : list (list A)) :
  Forall NoDup pools → NoDup (product pools).
Proof.
  induction 1 as [|p ps Hp _ IH]; simpl.
  - apply NoDup_singleton.
  - induction Hp as [|x p Hx Hp IHp]; simpl; [constructor|].
    apply NoDup_app. split_and!.
    + apply NoDup_fmap_2; [|done]. by intros ?? [=].
    + intros k Hk Hk'.
      apply list_elem_of_fmap in Hk as (k1 & -> & _).
      apply list_elem_of_bind in Hk' as (x' & Hk' & Hx').
      apply list_elem_of_fmap in Hk' as (k2 & [= <- _] & _). done.
    + done.
Qed.

Lemma sumZ_nonneg (k : list Z) : Forall (λ x, 0 ≤ x) k → 0 ≤ sumZ k.
Proof. induction 1; simpl; lia. Qed.

Lemma sumZ_elem_le (k : list Z) (x : Z) :
  Forall (λ x, 0 ≤ x) k → x ∈ k → x ≤ sumZ k.
Proof.
  induction 1 as [|y k Hy Hk IH]; [by intros ?%elem_of_nil|].
  pose proof (sumZ_nonneg k Hk).
  intros [->|Hx]%elem_of_cons; simpl; [lia|]. specialize (IH Hx). lia.
Qed.

Lemma in_shape_nonneg idx shape : in_shape idx shape → Forall (λ x, 0 ≤ x) idx.
Proof. induction 1; constructor; [lia|done]. Qed.

Lemma in_shape_length idx shape : in_shape idx shape → length idx = length shape.
Proof. apply Forall2_length. Qed.

Lemma elem_of_partition_naive photons cutoff k :
  k ∈ partition_naive photons cutoff ↔ in_shape k cutoff ∧ sumZ k = photons.
Proof.
  unfold partition_naive. rewrite list_elem_of_filter, elem_of_product.
  rewrite Forall2_fmap_r. unfold in_shape, range.
  split.
  - intros [Hs H]. split; [|done].
    eapply Forall2_impl; [done|]. intros x d. simpl. rewrite elem_of_seqZ. lia.
  - intros [H Hs]. split; [done|].
    eapply Forall2_impl; [done|]. intros x d. simpl. rewrite elem_of_seqZ. lia.
Qed.

Lemma elem_of_partition photons cutoff k :
  k ∈ partition photons cutoff ↔ in_shape k cutoff ∧ sumZ k = photons.
Proof.
  unfold partition. rewrite list_elem_of_filter, elem_of_product.
  rewrite Forall2_fmap_r. unfold in_shape, range.
  split.
  - intros [Hs H]. split; [|done].
    eapply Forall2_impl; [done|]. intros x d. simpl. rewrite elem_of_seqZ. lia.
  - intros [H Hs]. split; [done|].
    pose proof (in_shape_nonneg _ _ H) as Hnn.
    assert (Forall (λ x, x ≤ photons) k) as Hle.
    { apply Forall_forall. intros x Hx. rewrite <- Hs. by apply sumZ_elem_le. }
    clear Hs Hnn. induction H as [|x d k c Hx H IH]; [constructor|].
    apply Forall_cons in Hle as [Hxp Hle].
    constructor; [|by apply IH]. simpl. rewrite elem_of_seqZ. lia.
Qed.

Lemma NoDup_partition photons cutoff : NoDup (partition photons cutoff).
Proof.
  apply NoDup_filter, NoDup_product, Forall_fmap, Forall_forall.
  intros c _. apply NoDup_seqZ.
Qed.

Lemma NoDup_partition_naive photons cutoff : NoDup (partition_naive photons cutoff).
Proof.
  apply NoDup_filter, NoDup_product, Forall_fmap, Forall_forall.
  intros c _. apply NoDup_seqZ.
Qed.

(** The bounded and the naive enumeration agree as lists, in the order of
    [itertools.product]. *)

Lemma filter_bind_list {A B} (P : B → Prop) `{∀ x, Decision (P x)}
    (f : A → list B) (l : list A) :
  filter P (l ≫= f) = l ≫= (λ x, filter P (f x)).
Proof.
  induction l as [|x l IH]; [done|].
  change ((x :: l) ≫= f) with (f x ++ l ≫= f).
  by rewrite filter_app, IH.
Qed.

Lemma filter_fmap_list {A B} (P : B → Prop) `{∀ x, Decision (P x)}
    (f : A → B) (l : list A) :
  filter P (f <$> l) = f <$> filter (P ∘ f) l.
Proof.
  induction l as [|x l IH]; [done|].
  rewrite fmap_cons, !filter_cons. simpl.
  destruct (decide (P (f x))); by rewrite IH.
Qed.

Lemma filter_none {A} (P : A → Prop) `{∀ x, Decision (P x)} (l : list A) :
  (∀ x, x ∈ l → ¬ P x) → filter P l = [].
Proof.
  induction l as [|x l IH]; intros HP; [done|].
  rewrite filter_cons_False by (apply HP; left).
  apply IH. intros x' Hx'. apply HP. by right.
Qed.

Lemma bind_all_nil {A B} (g : A → list B) (l : list A) :
  (∀ x, x ∈ l → g x = []) → l ≫= g = [].
Proof.
  induction l as [|x l IH]; intros Hg; [done|].
  change ((x :: l) ≫= g) with (g x ++ l ≫= g).
  rewrite Hg by left. apply IH. intros x' Hx'. apply Hg. by right.
Qed.

Lemma bind_range_cut {B} (g : Z → list B) (a c : Z) :
  a ≤ c → (∀ x, a ≤ x → 0 ≤ x < c → g x = []) →
  range c ≫= g = range a ≫= g.
Proof.
  intros Hac Hg. unfold range. destruct (decide (0 ≤ a)) as [Ha|Ha].
  - replace c with (a + (c - a)) at 1 by lia.
    rewrite seqZ_app, bind_app by lia.
    rewrite (bind_all_nil g (seqZ (0 + a) (c - a))), app_nil_r; [done|].
    intros x Hx%elem_of_seqZ. apply Hg; lia.
  - rewrite (bind_all_nil g (seqZ 0 c)).
    + replace (seqZ 0 a) with (@nil Z); [done|].
      symmetry. apply length_zero_iff_nil. rewrite length_seqZ. lia.
    + intros x Hx%elem_of_seqZ. apply Hg; lia.
Qed.

Lemma elem_of_product_ranges (cutoff k : list Z) :
  k ∈ product (range <$> cutoff) ↔ in_shape k cutoff.
Proof.
  rewrite elem_of_product, Forall2_fmap_r. unfold in_shape, range.
  split; intros Hk; (eapply Forall2_impl; [done|]); intros x d; simpl;
    rewrite elem_of_seqZ; lia.
Qed.

Lemma partition_from_eq (photons s : Z) (cutoff : list Z) :
  0 ≤ s →
  filter (λ comb, s + sumZ comb = photons)
    (product ((λ i, range (Z.min photons (i - 1) + 1)) <$> cutoff)) =
  filter (λ comb, s + sumZ comb = photons) (product (range <$> cutoff)).
Proof.
  revert s. induction cutoff as [|c cs IH]; intros s Hs; [done|].
  cbn [fmap list_fmap product].
  rewrite !filter_bind_list.
  set (g := λ x, filter (λ comb, s + sumZ comb = photons)
                   (cons x <$> product (range <$> cs))).
  trans (range (Z.min photons (c - 1) + 1) ≫= g).
  - apply Forall_bind_ext, Forall_forall.
    intros x Hx%elem_of_seqZ. subst g. simpl.
    rewrite !filter_fmap_list. f_equal.
    specialize (IH (s + x) ltac:(lia)).
    rewrite (list_filter_iff _ (λ comb, s + x + sumZ comb = photons)
               (product (_ <$> cs))) by (intros k; simpl; lia).
    rewrite (list_filter_iff _ (λ comb, s + x + sumZ comb = photons)
               (product (range <$> cs))) by (intros k; simpl; lia).
    exact IH.
  - symmetry. apply bind_range_cut; [lia|].
    intros x Hax Hx. subst g. simpl. rewrite filter_fmap_list.
    rewrite filter_none; [done|].
    intros k Hk%elem_of_product_ranges. simpl.
    pose proof (sumZ_nonneg k (in_shape_nonneg _ _ Hk)). lia.
Qed.

Lemma partition_eq_naive (photons : Z) (cutoff : list Z) :
  partition photons cutoff = partition_naive photons cutoff.
Proof.
  unfold partition, partition_naive.
  rewrite (list_filter_iff _ (λ comb, 0 + sumZ comb = photons)
             (product (_ <$> cutoff))) by (intros k; lia).
  rewrite (list_filter_iff _ (λ comb, 0 + sumZ comb = photons)
             (product (range <$> cutoff))) by (intros k; lia).
  by apply partition_from_eq.
Qed.

(** ** Scalars

    The element type of the arrays ([dtype]) with the arithmetic the code
    performs on it.  [Ksqrt k] is [np.sqrt] of the integer [k], as an
    element; [Kis_zero] is the comparison with zero that numba's division
    makes before it divides.  [Kitemsize] and [Kmemory] are the two
    quantities the success of [np.zeros] depends on besides the shape.
    The two laws are facts of [np.sqrt]. *)

Class Scalar (K : Type) : Type := {
  Kzero : K;
  Kadd : K → K → K;
  Ksub : K → K → K;
  Kmul : K → K → K;
  Kdiv : K → K → K;
  Ksqrt : Z → K;
  Kis_zero : K → bool;
      (* the test the compiled division makes on its divisor *)
  Kitemsize : Z;        (* dtype.itemsize, the bytes of one element *)
  Kmemory : Z;          (* the bytes the allocator grants one array *)
  Ksqrt_zero : Kis_zero (Ksqrt 0) = true;
  Ksqrt_positive : ∀ k, 0 < k → Kis_zero (Ksqrt k) = false
}.

(** ** NumPy arrays *)

(** A two-dimensional array: [R.shape = (nrows, ncols)]. *)
Record matrix (K : Type) : Type := {
  nrows : nat;
  ncols : nat;
  coeff : nat → nat → K
}.
Arguments nrows {K} _.
Arguments ncols {K} _.
Arguments coeff {K} _ _ _.

(** A dense array of any rank.  The elements are kept in a finite map
    from multi-indices; an index without a binding holds [background]
    (the value the array was allocated with). *)
Record ndarray (K : Type) : Type := {
  shape : list Z;
  background : K;
  data : gmap (list Z) K
}.
Arguments shape {K} _.
Arguments background {K} _.
Arguments data {K} _.

(** One integer subscript against one dimension: negative subscripts
    count from the end. *)
Definition norm_index (dim k : Z) : option Z :=
  if decide (0 ≤ k < dim) then Some k
  else if decide (- dim ≤ k < 0) then Some (k + dim)
  else None.

(** A full tuple of subscripts against a shape. *)
Fixpoint resolve (sh idx : list Z) : option (list Z) :=
  match sh, idx with
  | [], [] => Some []
  | d :: sh', k :: idx' =>
      k' ← norm_index d k; r ← resolve sh' idx'; Some (k' :: r)
  | _, _ => None
  end.

(** [cutoff] is an [int] or a sequence of [int]. *)
Inductive cutoff_arg : Type :=
| CutoffInt (c : Z)
| CutoffSeq (cs : list Z).

(** [if isinstance(cutoff, int): cutoff = tuple([cutoff] * num_indices)]
    followed by [cutoff = tuple(cutoff)]. *)
Definition cutoff_tuple (cutoff : cutoff_arg) (num_indices : nat) : list Z :=
  match cutoff with
  | CutoffInt c => replicate num_indices c
  | CutoffSeq cs => cs
  end.

(** ** [lru_cache] in front of [partition]

    The store of [functools.lru_cache()] (default [maxsize=128]): the
    entries, most recently used first. *)

Definition lru : Type := list ((Z * list Z) * list (list Z)).

Definition maxsize : nat := 128.

Definition partition_cached (photons : Z) (cutoff : list Z) (cache : lru)
  : list (list Z) * lru :=
  match list_find (λ e, e.1 = (photons, cutoff)) cache with
  | Some (j, (_, v)) => (v, ((photons, cutoff), v) :: delete j cache)
  | None =>
      let v := partition photons cutoff in
      (v, take maxsize (((photons, cutoff), v) :: cache))
  end.

(** Every stored answer is the one [partition] computes. *)
Definition cache_ok (cache : lru) : Prop :=
  Forall (λ e, e.2 = partition e.1.1 e.1.2) cache.

(** The two nested loops shared by both drivers:
    [for photons in range(1, ...): for idx in partition(photons, cutoff):
       s = body(s, idx)]. *)
Fixpoint sweep {S : Type} (body : S → list Z → result S) (cutoff : list Z)
    (levels : list Z) (s : S) (cache : lru) : result S * lru :=
  match levels with
  | [] => (Ok s, cache)
  | photons :: rest =>
      let '(idxs, cache') := partition_cached photons cutoff cache in
      match for_each idxs body s with
      | Ok s' => sweep body cutoff rest s' cache'
      | Err e => (Err e, cache')
      end
  end.

(** ** [dec] and [remove] *)

Definition dec (tup : list Z) (i : nat) : result (list Z) :=
  v ← of_option (tup !! i) IndexError;
  Ok (<[i := v - 1]> tup).

(** [for p, n in enumerate(pattern): if n > 0: yield p, dec(pattern, p)],
    collected; [rest] is what [enumerate] has still to visit, from
    position [p]. *)
Fixpoint remove_from (pattern : list Z) (p : nat) (rest : list Z)
  : result (list (nat * list Z)) :=
  match rest with
  | [] => Ok []
  | n :: rest' =>
      if decide (0 < n)
      then kp ← dec pattern p;
           tl ← remove_from pattern (S p) rest';
           Ok ((p, kp) :: tl)
      else remove_from pattern (S p) rest'
  end.

Definition remove (pattern : list Z) : result (list (nat * list Z)) :=
  remove_from pattern 0 pattern.

(** [i = 0; for i, val in enumerate(idx): if val > 0: break] *)
Definition first_positive (idx : list Z) : nat :=
  match list_find (λ val, 0 < val) idx with
  | Some (i, _) => i
  | None => pred (length idx)
  end.

Section Recursion.
Context {K : Type} `{Scalar K}.

#[local] Instance K_inhabited : Inhabited K := populate Kzero.

(** [R[i, l]] in compiled code, for positions produced by [enumerate]. *)
Definition mgetitem (R : matrix K) (i l : nat) : result K :=
  if decide (i < nrows R ∧ l < ncols R)%nat then Ok (coeff R i l)
  else Err (OutOfBounds Of_R).

(** [y[i]] in compiled code. *)
Definition vgetitem (y : list K) (i : nat) : result K :=
  of_option (y !! i) (OutOfBounds Of_y).

(** The element stored at a resolved multi-index. *)
Definition elem (A : ndarray K) (k : list Z) : K :=
  default (background A) (data A !! k).

(** [A[idx]] for a tuple of integers, read as one element. *)
Definition getitem (A : ndarray K) (idx : list Z) : result K :=
  if decide (length idx < length (shape A))%nat then Err PartialIndex
  else k ← of_option (resolve (shape A) idx) IndexError; Ok (elem A k).

(** [A[idx] = v] for a tuple of integers and a scalar [v]: the element
    when the tuple is as long as the rank, every element of the selected
    sub-array when it is shorter. *)
Definition setitem (A : ndarray K) (idx : list Z) (v : K)
  : result (ndarray K) :=
  k ← of_option (resolve (take (length idx) (shape A)) idx) IndexError;
  Ok {| shape := shape A;
        background := background A;
        data := foldr (λ c m, <[k ++ c := v]> m) (data A)
                  (product (range <$> drop (length idx) (shape A))) |}.

(** [A[idx]] and [A[idx] = v] in compiled code.  Whether the index fits
    the rank is decided when numba compiles the call; whether it lies
    inside the array is never checked. *)
Definition numba_getitem (A : ndarray K) (idx : list Z) : result K :=
  if decide (length (shape A) < length idx)%nat then Err TypingError
  else unchecked Of_tensor (getitem A idx).

Definition numba_setitem (A : ndarray K) (idx : list Z) (v : K)
  : result (ndarray K) :=
  if decide (length (shape A) < length idx)%nat then Err TypingError
  else unchecked Of_tensor (setitem A idx v).

(** [u / s] in compiled code (numba's default error model). *)
Definition numba_div (u s : K) : result K :=
  if Kis_zero s then Err ZeroDivisionError else Ok (Kdiv u s).

(** [np.zeros(shape, dtype=dtype)].  NumPy (before 2.0, which the
    [np.float] of this module needs) takes at most [NPY_MAXDIMS]
    dimensions, none of them negative, and multiplies the item size by the
    dimensions other than zero into a signed 64-bit count of bytes; then
    it allocates. *)
Definition NPY_MAXDIMS : nat := 32.

Definition NPY_MAX_INTP : Z := 2 ^ 63 - 1.

Definition prodZ (l : list Z) : Z := foldr Z.mul 1 l.

Definition np_zeros (sh : list Z) : result (ndarray K) :=
  if decide ((length sh ≤ NPY_MAXDIMS)%nat ∧ Forall (λ d, 0 ≤ d) sh ∧
             Kitemsize * prodZ (filter (λ d, d ≠ 0) sh) ≤ NPY_MAX_INTP)
  then if decide (Kitemsize * prodZ sh ≤ Kmemory)
       then Ok {| shape := sh; background := Kzero; data := ∅ |}
       else Err MemoryError
  else Err InvalidShape.

(** The shapes [np.zeros] does not refuse for their rank or size. *)
Definition allocates (sh : list Z) : Prop :=
  (length sh ≤ NPY_MAXDIMS)%nat ∧
  Kitemsize * prodZ (filter (λ d, d ≠ 0) sh) ≤ NPY_MAX_INTP ∧
  Kitemsize * prodZ sh ≤ Kmemory.

(** [np.zeros_like(A, dtype=dtype)] *)
Definition np_zeros_like (A : ndarray K) : ndarray K :=
  {| shape := shape A; background := Kzero; data := ∅ |}.

(** [A / C], elementwise. *)
Definition array_div (A : ndarray K) (C : K) : ndarray K :=
  {| shape := shape A;
     background := Kdiv (background A) C;
     data := (λ v, Kdiv v C) <$> data A |}.

(** [SQRT = np.sqrt(np.arange(1000))] *)
Definition SQRT : list K := Ksqrt <$> range 1000.

(** [SQRT[k]], which only compiled code evaluates. *)
Definition SQRT_getitem (k : Z) : result K :=
  k' ← of_option (norm_index (Z.of_nat (length SQRT)) k) (OutOfBounds Of_SQRT);
  of_option (SQRT !! Z.to_nat k') (OutOfBounds Of_SQRT).

(** ** The value recursion *)

Definition fill_hermite_multidimensional_numba_loop
    (array : ndarray K) (idx : list Z) (R : matrix K) (y : list K)
  : result (ndarray K) :=
  let i := first_positive idx in
  ki ← dec idx i;
  yi ← vgetitem y i;
  a ← numba_getitem array ki;
  let u := Kmul yi a in
  pairs ← remove ki;
  u ← for_each pairs (λ u '(l, kl),
        kil ← of_option (ki !! l) IndexError;
        s ← SQRT_getitem kil;
        r ← mgetitem R i l;
        a ← numba_getitem array kl;
        Ok (Ksub u (Kmul (Kmul s r) a))) u;
  d ← of_option (idx !! i) IndexError;
  s ← SQRT_getitem d;
  q ← numba_div u s;
  numba_setitem array idx q.

Definition hermite_multidimensional_numba
    (R : matrix K) (cutoff : cutoff_arg) (y : list K) (C : K) (cache : lru)
  : result (ndarray K) * lru :=
  let n := nrows R in
  if decide (length y ≠ n)
  then (Err (IncompatibleDimensionsOf (nrows R, ncols R) (length y)), cache)
  else
    let num_indices := length y in
    let cutoff := cutoff_tuple cutoff num_indices in
    match array ← np_zeros cutoff;
          setitem array (replicate num_indices 0) C with
    | Err e => (Err e, cache)
    | Ok array =>
        sweep (λ array idx,
                 fill_hermite_multidimensional_numba_loop array idx R y)
              cutoff (seqZ 1 (sumZ cutoff - Z.of_nat num_indices))
              array cache
    end.

(** ** The gradient recursion *)

Definition fill_grad_hermite_multidimensional_numba_loop
    (dG_dR dG_dy array : ndarray K) (idx : list Z) (R : matrix K)
    (y : list K) : result (ndarray K * ndarray K) :=
  let i := first_positive idx in
  ki ← dec idx i;
  yi ← vgetitem y i;
  gy ← numba_getitem dG_dy ki;
  a ← numba_getitem array ki;
  let dy := Kadd (Kmul yi gy) a in
  gr ← numba_getitem dG_dR ki;
  let dR := Kmul yi gr in
  pairs ← remove ki;
  acc ← for_each pairs (λ '(dy, dR) '(l, kl),
        kil ← of_option (ki !! l) IndexError;
        s ← SQRT_getitem kil;
        gy ← numba_getitem dG_dy kl;
        r ← mgetitem R i l;
        let dy := Ksub dy (Kmul (Kmul s gy) r) in
        gr ← numba_getitem dG_dR kl;
        a ← numba_getitem array kl;
        let dR := Ksub dR (Kmul s (Kadd (Kmul r gr) a)) in
        Ok (dy, dR)) (dy, dR);
  d ← of_option (idx !! i) IndexError;
  s ← SQRT_getitem d;
  qR ← numba_div acc.2 s;
  dG_dR ← numba_setitem dG_dR idx qR;
  s ← SQRT_getitem d;
  qy ← numba_div acc.1 s;
  dG_dy ← numba_setitem dG_dy idx qy;
  Ok (dG_dR, dG_dy).

Definition grad_hermite_multidimensional_numba
    (array : ndarray K) (R : matrix K) (cutoff : cutoff_arg) (y : list K)
    (C : K) (cache : lru)
  : result (ndarray K * ndarray K * ndarray K) * lru :=
  let n := nrows R in
  if decide (length y ≠ n)
  then (Err (IncompatibleDimensionsOf (nrows R, ncols R) (length y)), cache)
  else
    let num_indices := length y in
    let cutoff := cutoff_tuple cutoff num_indices in
    let dG_dC := array_div array C in
    let dG_dR := np_zeros_like array in
    let dG_dy := np_zeros_like array in
    match sweep (λ g idx,
                   fill_grad_hermite_multidimensional_numba_loop
                     g.1 g.2 array idx R y)
                cutoff (seqZ 1 (sumZ cutoff - Z.of_nat num_indices))
                (dG_dR, dG_dy) cache with
    | (Ok g, cache') => (Ok (dG_dC, g.1, g.2), cache')
    | (Err e, cache') => (Err e, cache')
    end.

End Recursion.

(** ** The recurrence as the specification words it

    [decrement idx i] is [idx] with coordinate [i] reduced by one;
    [lowest_positive idx i] says that [i] is the lowest position holding a
    positive coordinate; [positive_positions ki] lists, in increasing
    order, the positions [l] with [ki[l] > 0]. *)

Definition decrement (tup : list Z) (i : nat) : list Z :=
  <[i := tup !!! i - 1]> tup.

Definition lowest_positive (idx : list Z) (i : nat) : Prop :=
  (∃ v, idx !! i = Some v ∧ 0 < v) ∧
  ∀ j w, (j < i)%nat → idx !! j = Some w → w ≤ 0.

Definition positive_positions (ki : list Z) : list nat :=
  filter (λ l, 0 < ki !!! l) (seq 0 (length ki)).

Section Recurrences.
Context {K : Type} `{Scalar K}.

#[local] Existing Instance K_inhabited.

(** [(y[i]*value[ki] − Σ_l sqrt(ki[l])*R[i][l]*value[kl]) / sqrt(idx[i])],
    the terms subtracted one after the other in increasing [l]. *)
Definition hermite_recurrence (R : matrix K) (y : list K)
    (value : list Z → K) (idx : list Z) (i : nat) : K :=
  let ki := decrement idx i in
  Kdiv (foldl (λ u l, Ksub u (Kmul (Kmul (Ksqrt (ki !!! l)) (coeff R i l))
                                   (value (decrement ki l))))
              (Kmul (y !!! i) (value ki))
              (positive_positions ki))
       (Ksqrt (idx !!! i)).

(** [dy]: starts at [y[i]*dG_dy[ki] + array[ki]], then
    [dy −= sqrt(ki[l])*dG_dy[kl]*R[i][l]], finally divided by
    [sqrt(idx[i])]. *)
Definition grad_y_recurrence (R : matrix K) (y : list K)
    (array dG_dy : list Z → K) (idx : list Z) (i : nat) : K :=
  let ki := decrement idx i in
  Kdiv (foldl (λ dy l, Ksub dy (Kmul (Kmul (Ksqrt (ki !!! l))
                                           (dG_dy (decrement ki l)))
                                     (coeff R i l)))
              (Kadd (Kmul (y !!! i) (dG_dy ki)) (array ki))
              (positive_positions ki))
       (Ksqrt (idx !!! i)).

(** [dR]: starts at [y[i]*dG_dR[ki]], then
    [dR −= sqrt(ki[l])*(R[i][l]*dG_dR[kl] + array[kl])], finally divided
    by [sqrt(idx[i])]. *)
Definition grad_R_recurrence (R : matrix K) (y : list K)
    (array dG_dR : list Z → K) (idx : list Z) (i : nat) : K :=
  let ki := decrement idx i in
  Kdiv (foldl (λ dR l, Ksub dR (Kmul (Ksqrt (ki !!! l))
                                     (Kadd (Kmul (coeff R i l)
                                                 (dG_dR (decrement ki l)))
                                           (array (decrement ki l)))))
              (Kmul (y !!! i) (dG_dR ki))
              (positive_positions ki))
       (Ksqrt (idx !!! i)).

(** The array [A] after a successful [A[idx] = v] at a full index. *)
Definition update (A : ndarray K) (idx : list Z) (v : K) : ndarray K :=
  {| shape := shape A; background := background A;
     data := <[idx := v]> (data A) |}.

End Recurrences.

(** ** Basic facts: results, loops, indices *)

Lemma bind_Ok {A B} (a : A) (f : A → result B) : Ok a ≫= f = f a.
Proof. reflexivity. Qed.

Lemma bind_Err {A B} (e : exception) (f : A → result B) : Err e ≫= f = Err e.
Proof. reflexivity. Qed.

Lemma bind_Ok_inv {A B} (m : result A) (f : A → result B) (b : B) :
  m ≫= f = Ok b → ∃ a, m = Ok a ∧ f a = Ok b.
Proof. destruct m as [a|e]; [eauto|discriminate]. Qed.

Lemma of_option_Ok_inv {A} (o : option A) e a :
  of_option o e = Ok a → o = Some a.
Proof. destruct o; simpl; congruence. Qed.

Lemma for_each_fmap {A B S} (f : A → B) (xs : list A)
    (body : S → B → result S) (s : S) :
  for_each (f <$> xs) body s = for_each xs (λ s x, body s (f x)) s.
Proof.
  revert s. induction xs as [|x xs IH]; intros s; simpl; [done|].
  destruct (body s (f x)); [apply IH|done].
Qed.

Lemma for_each_foldl {A S} (xs : list A) (body : S → A → result S)
    (g : S → A → S) (s : S) :
  (∀ s x, x ∈ xs → body s x = Ok (g s x)) →
  for_each xs body s = Ok (foldl g s xs).
Proof.
  revert s. induction xs as [|x xs IH]; intros s Hb; simpl; [done|].
  rewrite Hb by left. apply IH. intros s' x' Hx'. apply Hb. by right.
Qed.


(** A loop that ran to its end ran its body, successfully, on every
    element. *)
Lemma for_each_Ok_elem {A S} (xs : list A) (body : S → A → result S)
    (s s' : S) (x : A) :
  for_each xs body s = Ok s' → x ∈ xs → ∃ s1 s2, body s1 x = Ok s2.
Proof.
  revert s. induction xs as [|x0 xs IH]; intros s Hrun Hx.
  - by apply elem_of_nil in Hx.
  - simpl in Hrun. destruct (body s x0) as [s0|] eqn:Hb; [|done].
    apply elem_of_cons in Hx as [->|Hx]; eauto.
Qed.

Lemma sumZ_nonpos (k : list Z) : Forall (λ x, ¬ 0 < x) k → sumZ k ≤ 0.
Proof. induction 1; simpl; lia. Qed.

Lemma sumZ_insert (l : list Z) (i : nat) (v w : Z) :
  l !! i = Some v → sumZ (<[i := w]> l) = sumZ l - v + w.
Proof.
  revert i. induction l as [|x l IH]; intros [|i] Hi; simplify_eq/=; [lia|].
  rewrite (IH _ Hi). lia.
Qed.

Lemma sumZ_replicate (n : nat) : sumZ (replicate n 0) = 0.
Proof. induction n; simpl; lia. Qed.

Lemma in_shape_lookup idx sh (i : nat) v :
  in_shape idx sh → idx !! i = Some v → ∃ d, sh !! i = Some d ∧ 0 ≤ v < d.
Proof.
  intros Hin Hi. apply Forall2_same_length_lookup in Hin as [Hlen Hin].
  destruct (sh !! i) as [d|] eqn:Hd.
  - eauto.
  - apply lookup_ge_None in Hd. apply lookup_lt_Some in Hi. lia.
Qed.

Lemma in_shape_insert idx sh (i : nat) v w :
  in_shape idx sh → idx !! i = Some v → 0 ≤ w ≤ v →
  in_shape (<[i := w]> idx) sh.
Proof.
  intros Hin Hi Hw.
  destruct (in_shape_lookup _ _ _ _ Hin Hi) as (d & Hd & Hvd).
  apply Forall2_same_length_lookup in Hin as [Hlen Hin].
  apply Forall2_same_length_lookup. split; [by rewrite length_insert|].
  intros j x c Hj Hc. destruct (decide (i = j)) as [->|Hne].
  - rewrite list_lookup_insert_eq in Hj by (by eapply lookup_lt_Some).
    simplify_eq. lia.
  - rewrite list_lookup_insert_ne in Hj by done. eauto.
Qed.

Lemma in_shape_replicate (n : nat) (sh : list Z) :
  length sh = n → Forall (λ d, 1 ≤ d) sh → in_shape (replicate n 0) sh.
Proof.
  intros <- Hsh. unfold in_shape.
  induction Hsh; simpl; constructor; [lia|done].
Qed.

Lemma norm_index_in_range (d k : Z) : 0 ≤ k < d → norm_index d k = Some k.
Proof. intros. unfold norm_index. by rewrite decide_True. Qed.

Lemma norm_index_Some_inv (d k k' : Z) :
  norm_index d k = Some k' → - d ≤ k < d.
Proof. unfold norm_index. repeat case_decide; intros; simplify_eq; lia. Qed.

Lemma resolve_in_shape idx sh : in_shape idx sh → resolve sh idx = Some idx.
Proof.
  induction 1 as [|k d idx sh Hk _ IH]; simpl; [done|].
  by rewrite norm_index_in_range, IH.
Qed.


(** ** Facts about [dec], [remove] and [first_positive] *)

Lemma dec_lookup tup (i : nat) v :
  tup !! i = Some v → dec tup i = Ok (<[i := v - 1]> tup).
Proof. intros Hi. unfold dec. by rewrite Hi. Qed.

Lemma dec_decrement tup (i : nat) v :
  tup !! i = Some v → dec tup i = Ok (decrement tup i).
Proof.
  intros Hi. unfold decrement.
  by rewrite (list_lookup_total_correct _ _ _ Hi), (dec_lookup _ _ _ Hi).
Qed.

Lemma remove_from_spec (pattern pre rest : list Z) :
  pattern = pre ++ rest →
  remove_from pattern (length pre) rest =
    Ok ((λ l, (l, decrement pattern l)) <$>
        filter (λ l, 0 < pattern !!! l) (seq (length pre) (length rest))).
Proof.
  revert pre. induction rest as [|n rest IH]; intros pre ->; [done|].
  assert ((pre ++ n :: rest) !! length pre = Some n) as Hn.
  { by rewrite lookup_app_r, Nat.sub_diag by lia. }
  specialize (IH (pre ++ [n])).
  rewrite length_app, Nat.add_1_r, <- app_assoc in IH. simpl in IH.
  specialize (IH eq_refl).
  cbn [remove_from length seq]. rewrite filter_cons.
  rewrite (list_lookup_total_correct _ _ _ Hn).
  destruct (decide (0 < n)); [|done].
  by rewrite (dec_decrement _ _ _ Hn), bind_Ok, IH.
Qed.

Lemma remove_spec (ki : list Z) :
  remove ki = Ok ((λ l, (l, decrement ki l)) <$> positive_positions ki).
Proof. apply (remove_from_spec ki [] ki). done. Qed.

(** The generator never raises. *)
Lemma remove_total (pattern : list Z) : is_Ok (remove pattern).
Proof. eexists. apply remove_spec. Qed.

Lemma elem_of_positive_positions (ki : list Z) (l : nat) :
  l ∈ positive_positions ki ↔ ∃ v, ki !! l = Some v ∧ 0 < v.
Proof.
  unfold positive_positions. rewrite list_elem_of_filter, elem_of_seq.
  split.
  - intros [Hpos [_ Hl]]. exists (ki !!! l). split; [|done].
    apply list_lookup_lookup_total_lt. lia.
  - intros (v & Hl & Hv). rewrite (list_lookup_total_correct _ _ _ Hl).
    apply lookup_lt_Some in Hl. split; [done|lia].
Qed.

Lemma first_positive_spec (idx : list Z) :
  Forall (λ x, 0 ≤ x) idx → 1 ≤ sumZ idx →
  lowest_positive idx (first_positive idx).
Proof.
  intros Hnn Hsum. unfold first_positive, lowest_positive.
  destruct (list_find _ idx) as [[i v]|] eqn:Hfind.
  - apply list_find_Some in Hfind as (Hi & Hv & Hlow). split; [eauto|].
    intros j w Hj Hw. specialize (Hlow j w Hw Hj). lia.
  - apply list_find_None in Hfind. apply sumZ_nonpos in Hfind. lia.
Qed.

Lemma lowest_positive_unique (idx : list Z) (i j : nat) :
  lowest_positive idx i → lowest_positive idx j → i = j.
Proof.
  intros [(v & Hi & Hv) Hlow] [(w & Hj & Hw) Hlow'].
  destruct (Nat.lt_trichotomy i j) as [Hlt|[->|Hlt]]; [|done|].
  - specialize (Hlow' _ _ Hlt Hi). lia.
  - specialize (Hlow _ _ Hlt Hj). lia.
Qed.

(** ** Facts about arrays and the square-root table *)

Section ArrayFacts.
Context {K : Type} `{Scalar K}.

#[local] Existing Instance K_inhabited.

Lemma getitem_in_shape (A : ndarray K) idx :
  in_shape idx (shape A) → getitem A idx = Ok (elem A idx).
Proof.
  intros Hin. unfold getitem.
  rewrite decide_False by (rewrite (in_shape_length _ _ Hin); lia).
  by rewrite (resolve_in_shape _ _ Hin).
Qed.

Lemma setitem_in_shape (A : ndarray K) idx v :
  in_shape idx (shape A) → setitem A idx v = Ok (update A idx v).
Proof.
  intros Hin. unfold setitem, update.
  rewrite (in_shape_length _ _ Hin), firstn_all, drop_all.
  rewrite (resolve_in_shape _ _ Hin). simpl. by rewrite app_nil_r.
Qed.


Lemma unchecked_Ok {A} a (x : A) : unchecked a (Ok x) = Ok x.
Proof. reflexivity. Qed.

Lemma unchecked_Ok_inv {A} a (r : result A) (x : A) :
  unchecked a r = Ok x → r = Ok x.
Proof. destruct r as [?|[]]; simpl; congruence. Qed.

Lemma numba_getitem_in_shape (A : ndarray K) idx :
  in_shape idx (shape A) → numba_getitem A idx = Ok (elem A idx).
Proof.
  intros Hin. unfold numba_getitem.
  rewrite decide_False by (rewrite (in_shape_length _ _ Hin); lia).
  by rewrite getitem_in_shape.
Qed.

Lemma numba_setitem_in_shape (A : ndarray K) idx v :
  in_shape idx (shape A) → numba_setitem A idx v = Ok (update A idx v).
Proof.
  intros Hin. unfold numba_setitem.
  rewrite decide_False by (rewrite (in_shape_length _ _ Hin); lia).
  by rewrite setitem_in_shape.
Qed.

Lemma numba_getitem_Ok_inv (A : ndarray K) idx v :
  numba_getitem A idx = Ok v → getitem A idx = Ok v.
Proof. unfold numba_getitem. case_decide; [done|apply unchecked_Ok_inv]. Qed.

Lemma numba_setitem_Ok_inv (A A' : ndarray K) idx v :
  numba_setitem A idx v = Ok A' → setitem A idx v = Ok A'.
Proof. unfold numba_setitem. case_decide; [done|apply unchecked_Ok_inv]. Qed.

Lemma numba_div_Ok_inv (u s q : K) :
  numba_div u s = Ok q → Kis_zero s = false ∧ q = Kdiv u s.
Proof. unfold numba_div. destruct (Kis_zero s); [done|]. by intros [= <-]. Qed.

(** The table's entries past the first are divisors the compiled
    division accepts. *)
Lemma numba_div_sqrt (u : K) (k : Z) :
  0 < k → numba_div u (Ksqrt k) = Ok (Kdiv u (Ksqrt k)).
Proof. intros Hk. unfold numba_div. by rewrite Ksqrt_positive. Qed.

Lemma numba_div_sqrt_zero (u : K) :
  numba_div u (Ksqrt 0) = Err ZeroDivisionError.
Proof. unfold numba_div. by rewrite Ksqrt_zero. Qed.

Lemma np_zeros_allocates (sh : list Z) :
  allocates sh → Forall (λ d, 0 ≤ d) sh →
  np_zeros sh = Ok {| shape := sh; background := Kzero; data := ∅ |}.
Proof.
  intros (Hrank & Hsize & Hmem) Hnn. unfold np_zeros.
  rewrite decide_True by done. by rewrite decide_True.
Qed.

(** For a shape without a zero, the bytes counted are the bytes asked
    for. *)
Lemma allocates_positive (sh : list Z) :
  Forall (λ d, 1 ≤ d) sh → (length sh ≤ NPY_MAXDIMS)%nat →
  Kitemsize * prodZ sh ≤ NPY_MAX_INTP → Kitemsize * prodZ sh ≤ Kmemory →
  allocates sh.
Proof.
  intros Hpos Hrank Hsize Hmem. split_and!; [done| |done].
  replace (filter (λ d, d ≠ 0) sh) with sh; [done|].
  clear Hrank Hsize Hmem. induction Hpos as [|d sh Hd _ IH]; [done|].
  rewrite filter_cons_True by lia. by rewrite <- IH.
Qed.

Lemma np_zeros_Ok_inv (sh : list Z) (A : ndarray K) :
  np_zeros sh = Ok A →
  allocates sh ∧ Forall (λ d, 0 ≤ d) sh ∧
  A = {| shape := sh; background := Kzero; data := ∅ |}.
Proof.
  unfold np_zeros, allocates. repeat case_decide; [|done..].
  intros [= <-]. tauto.
Qed.

Lemma elem_update_eq (A : ndarray K) idx v : elem (update A idx v) idx = v.
Proof. unfold elem, update. simpl. by rewrite lookup_insert_eq. Qed.

Lemma elem_update_ne (A : ndarray K) idx k v :
  idx ≠ k → elem (update A idx v) k = elem A k.
Proof. intros. unfold elem, update. simpl. by rewrite lookup_insert_ne. Qed.

Lemma elem_array_div (A : ndarray K) (C : K) k :
  elem (array_div A C) k = Kdiv (elem A k) C.
Proof.
  unfold elem, array_div. simpl. rewrite lookup_fmap.
  by destruct (data A !! k).
Qed.

Lemma elem_np_zeros_like (A : ndarray K) k : elem (np_zeros_like A) k = Kzero.
Proof. unfold elem, np_zeros_like. simpl. by rewrite lookup_empty. Qed.

Lemma SQRT_length : length (SQRT (K:=K)) = 1000%nat.
Proof. unfold SQRT, range. rewrite length_fmap, length_seqZ. lia. Qed.

(** Inside the table the lookup is the square root it stores. *)
Lemma SQRT_getitem_in_range (k : Z) :
  0 ≤ k < 1000 → SQRT_getitem k = Ok (Ksqrt k).
Proof.
  intros Hk. unfold SQRT_getitem. rewrite SQRT_length.
  rewrite norm_index_in_range by lia. cbn [of_option]. rewrite bind_Ok.
  unfold SQRT, range. rewrite list_lookup_fmap.
  rewrite lookup_seqZ_lt by lia. simpl. do 2 f_equal. lia.
Qed.

(** A lookup that succeeds used a subscript the table has. *)
Lemma SQRT_getitem_Ok_inv (k : Z) (v : K) :
  SQRT_getitem k = Ok v → -1000 ≤ k < 1000.
Proof.
  unfold SQRT_getitem. rewrite SQRT_length.
  intros (k' & Hk' & _)%bind_Ok_inv.
  apply of_option_Ok_inv, norm_index_Some_inv in Hk'. lia.
Qed.

Lemma mgetitem_in_range (R : matrix K) (i l : nat) :
  (i < nrows R)%nat → (l < ncols R)%nat → mgetitem R i l = Ok (coeff R i l).
Proof. intros. unfold mgetitem. by rewrite decide_True. Qed.

End ArrayFacts.

(** ** One step of each recursion *)

(** What a step needs of its index: inside the shape, photon number at
    least one, and a shape the table and the parameters cover. *)
Record step_ready {K} (R : matrix K) (y : list K) (sh idx : list Z) : Prop := {
  ready_rows : nrows R = length sh;
  ready_cols : ncols R = length sh;
  ready_y : length y = length sh;
  ready_table : Forall (λ c, c ≤ 1000) sh;
  ready_idx : in_shape idx sh;
  ready_photons : 1 ≤ sumZ idx
}.

Section StepFacts.
Context {K : Type} `{Scalar K}.

#[local] Existing Instance K_inhabited.

Variables (R : matrix K) (y : list K) (sh idx : list Z).
Hypothesis ready : step_ready R y sh idx.

Let i := first_positive idx.
Let ki := decrement idx i.

Lemma step_lowest : lowest_positive idx i.
Proof.
  destruct ready. apply first_positive_spec; [|done].
  by eapply in_shape_nonneg.
Qed.

Lemma step_position : (i < length sh)%nat.
Proof.
  destruct step_lowest as [(v & Hi & _) _]. destruct ready.
  apply lookup_lt_Some in Hi. by rewrite <- (in_shape_length idx sh).
Qed.

Lemma step_divisor : ∃ v, idx !! i = Some v ∧ 0 < v < 1000.
Proof.
  destruct step_lowest as [(v & Hi & Hv) _]. destruct ready.
  destruct (in_shape_lookup _ _ _ _ ready_idx0 Hi) as (d & Hd & Hvd).
  exists v. split; [done|].
  assert (d ≤ 1000); [|lia].
  eapply (proj1 (Forall_lookup _ _) ready_table0); eauto.
Qed.

Lemma step_dec : dec idx i = Ok ki.
Proof. destruct step_divisor as (v & Hi & _). by eapply dec_decrement. Qed.

Lemma step_ki_in_shape : in_shape ki sh.
Proof.
  destruct step_divisor as (v & Hi & Hv). destruct ready. subst ki.
  unfold decrement. rewrite (list_lookup_total_correct _ _ _ Hi).
  eapply in_shape_insert; [done..|lia].
Qed.

Lemma step_ki_sum : sumZ ki = sumZ idx - 1.
Proof.
  destruct step_divisor as (v & Hi & Hv). subst ki. unfold decrement.
  rewrite (list_lookup_total_correct _ _ _ Hi), (sumZ_insert _ _ _ _ Hi). lia.
Qed.

Lemma step_y : y !! i = Some (y !!! i).
Proof.
  apply list_lookup_lookup_total_lt. destruct ready.
  rewrite ready_y0. apply step_position.
Qed.

Lemma step_vgetitem : vgetitem y i = Ok (y !!! i).
Proof. unfold vgetitem. by rewrite step_y. Qed.

(** The facts about one pair [(l, kl)] the generator yields. *)
Lemma step_pair (l : nat) :
  l ∈ positive_positions ki →
  ki !! l = Some (ki !!! l) ∧ 0 < ki !!! l < 1000 ∧ (l < length sh)%nat ∧
  in_shape (decrement ki l) sh ∧
  sumZ (decrement ki l) = sumZ idx - 2.
Proof.
  intros (v & Hl & Hv)%elem_of_positive_positions.
  pose proof step_ki_in_shape as Hki. pose proof step_ki_sum as Hsum.
  destruct (in_shape_lookup _ _ _ _ Hki Hl) as (d & Hd & Hvd).
  destruct ready.
  assert (d ≤ 1000).
  { eapply (proj1 (Forall_lookup _ _) ready_table0); eauto. }
  rewrite (list_lookup_total_correct _ _ _ Hl). split_and!; try done; try lia.
  - apply lookup_lt_Some in Hd. done.
  - unfold decrement. rewrite (list_lookup_total_correct _ _ _ Hl).
    eapply in_shape_insert; [done..|lia].
  - unfold decrement.
    rewrite (list_lookup_total_correct _ _ _ Hl), (sumZ_insert _ _ _ _ Hl).
    lia.
Qed.

(** The value step writes the recurrence at [idx] and nothing else. *)
Lemma fill_hermite_step (A : ndarray K) :
  shape A = sh →
  fill_hermite_multidimensional_numba_loop A idx R y =
    Ok (update A idx (hermite_recurrence R y (elem A) idx i)).
Proof.
  intros Hsh. unfold fill_hermite_multidimensional_numba_loop.
  fold i. rewrite step_dec, bind_Ok, step_vgetitem, bind_Ok.
  rewrite numba_getitem_in_shape by (rewrite Hsh; apply step_ki_in_shape).
  rewrite bind_Ok, remove_spec, bind_Ok, for_each_fmap.
  erewrite (for_each_foldl _ _ (λ u l,
    Ksub u (Kmul (Kmul (Ksqrt (ki !!! l)) (coeff R i l))
                 (elem A (decrement ki l))))); last first.
  { intros u l Hl. destruct (step_pair l Hl) as (Hkl & Hrange & Hlt & Hin & _).
    rewrite Hkl. simpl of_option. rewrite bind_Ok.
    rewrite SQRT_getitem_in_range by lia. rewrite bind_Ok.
    destruct ready.
    rewrite mgetitem_in_range
      by (rewrite ?ready_rows0, ?ready_cols0; auto using step_position).
    rewrite bind_Ok, numba_getitem_in_shape by (by rewrite Hsh).
    rewrite bind_Ok. reflexivity. }
  rewrite bind_Ok. destruct step_divisor as (v & Hi & Hv).
  rewrite Hi. simpl of_option. rewrite bind_Ok.
  rewrite SQRT_getitem_in_range by lia. rewrite bind_Ok.
  rewrite numba_div_sqrt by lia. rewrite bind_Ok.
  destruct ready.
  rewrite numba_setitem_in_shape by (by rewrite Hsh).
  unfold hermite_recurrence. fold ki.
  by rewrite (list_lookup_total_correct _ _ _ Hi).
Qed.

(** The gradient step writes both recurrences at [idx]. *)
Lemma fill_grad_hermite_step (dG_dR dG_dy A : ndarray K) :
  shape A = sh → shape dG_dR = sh → shape dG_dy = sh →
  fill_grad_hermite_multidimensional_numba_loop dG_dR dG_dy A idx R y =
    Ok (update dG_dR idx
          (grad_R_recurrence R y (elem A) (elem dG_dR) idx i),
        update dG_dy idx
          (grad_y_recurrence R y (elem A) (elem dG_dy) idx i)).
Proof.
  intros Hsh HshR Hshy.
  unfold fill_grad_hermite_multidimensional_numba_loop.
  fold i. rewrite step_dec, bind_Ok, step_vgetitem, bind_Ok.
  pose proof step_ki_in_shape as Hki.
  rewrite !numba_getitem_in_shape by (by rewrite ?Hsh, ?HshR, ?Hshy).
  rewrite !bind_Ok, remove_spec, bind_Ok, for_each_fmap.
  erewrite (for_each_foldl _ _ (λ acc l,
    (Ksub acc.1 (Kmul (Kmul (Ksqrt (ki !!! l)) (elem dG_dy (decrement ki l)))
                      (coeff R i l)),
     Ksub acc.2 (Kmul (Ksqrt (ki !!! l))
                      (Kadd (Kmul (coeff R i l) (elem dG_dR (decrement ki l)))
                            (elem A (decrement ki l)))))));
    last first.
  { intros [dy dR] l Hl.
    destruct (step_pair l Hl) as (Hkl & Hrange & Hlt & Hin & _).
    rewrite Hkl. simpl of_option. rewrite bind_Ok.
    rewrite SQRT_getitem_in_range by lia. rewrite bind_Ok.
    rewrite !numba_getitem_in_shape by (by rewrite ?Hsh, ?HshR, ?Hshy).
    destruct ready.
    rewrite mgetitem_in_range
      by (rewrite ?ready_rows0, ?ready_cols0; auto using step_position).
    rewrite !bind_Ok. reflexivity. }
  rewrite bind_Ok. destruct step_divisor as (v & Hi & Hv).
  rewrite Hi. simpl of_option. rewrite bind_Ok.
  destruct ready.
  repeat first
    [ rewrite bind_Ok
    | rewrite SQRT_getitem_in_range by lia
    | rewrite numba_div_sqrt by lia
    | rewrite numba_setitem_in_shape by (by rewrite ?HshR, ?Hshy) ].
  unfold grad_R_recurrence, grad_y_recurrence. fold ki.
  rewrite (list_lookup_total_correct _ _ _ Hi).
  do 3 f_equal.
  - generalize (Kadd (Kmul (y !!! i) (elem dG_dy ki)) (elem A ki)).
    generalize (Kmul (y !!! i) (elem dG_dR ki)).
    intros dR dy. revert dR dy.
    induction (positive_positions ki) as [|l ls IH]; intros dR dy;
      [done|apply IH].
  - generalize (Kadd (Kmul (y !!! i) (elem dG_dy ki)) (elem A ki)).
    generalize (Kmul (y !!! i) (elem dG_dR ki)).
    intros dR dy. revert dR dy.
    induction (positive_positions ki) as [|l ls IH]; intros dR dy;
      [done|apply IH].
Qed.

End StepFacts.

(** ** A recurrence reads strictly lower photon numbers only *)

Lemma foldl_ext_elem {A B} (f g : B → A → B) (xs : list A) (b : B) :
  (∀ b x, x ∈ xs → f b x = g b x) → foldl f b xs = foldl g b xs.
Proof.
  revert b. induction xs as [|x xs IH]; intros b Hfg; simpl; [done|].
  rewrite Hfg by left. apply IH. intros b' x' Hx'. apply Hfg. by right.
Qed.

Section RecurrenceFacts.
Context {K : Type} `{Scalar K}.

Variables (R : matrix K) (y : list K) (sh idx : list Z).
Hypothesis ready : step_ready R y sh idx.

Let i := first_positive idx.

Lemma hermite_recurrence_ext (f g : list Z → K) :
  (∀ k, sumZ k < sumZ idx → f k = g k) →
  hermite_recurrence R y f idx i = hermite_recurrence R y g idx i.
Proof.
  intros Hfg. unfold hermite_recurrence. cbv zeta. f_equal.
  pose proof (step_ki_sum R y sh idx ready) as Hsum. cbv zeta in Hsum.
  fold i in Hsum. rewrite Hfg by lia.
  apply foldl_ext_elem. intros u l Hl.
  destruct (step_pair R y sh idx ready l Hl) as (_ & _ & _ & _ & Hs).
  fold i in Hs. rewrite Hfg by lia. done.
Qed.

Lemma grad_y_recurrence_ext (a f g : list Z → K) :
  (∀ k, sumZ k < sumZ idx → f k = g k) →
  grad_y_recurrence R y a f idx i = grad_y_recurrence R y a g idx i.
Proof.
  intros Hfg. unfold grad_y_recurrence. cbv zeta. f_equal.
  pose proof (step_ki_sum R y sh idx ready) as Hsum. cbv zeta in Hsum.
  fold i in Hsum. rewrite Hfg by lia.
  apply foldl_ext_elem. intros u l Hl.
  destruct (step_pair R y sh idx ready l Hl) as (_ & _ & _ & _ & Hs).
  fold i in Hs. rewrite Hfg by lia. done.
Qed.

Lemma grad_R_recurrence_ext (a f g : list Z → K) :
  (∀ k, sumZ k < sumZ idx → f k = g k) →
  grad_R_recurrence R y a f idx i = grad_R_recurrence R y a g idx i.
Proof.
  intros Hfg. unfold grad_R_recurrence. cbv zeta. f_equal.
  pose proof (step_ki_sum R y sh idx ready) as Hsum. cbv zeta in Hsum.
  fold i in Hsum. rewrite Hfg by lia.
  apply foldl_ext_elem. intros u l Hl.
  destruct (step_pair R y sh idx ready l Hl) as (_ & _ & _ & _ & Hs).
  fold i in Hs. rewrite Hfg by lia. done.
Qed.

End RecurrenceFacts.

(** ** The memoised [partition] and the sweep without the store *)

Lemma partition_cached_ok photons cutoff cache :
  cache_ok cache →
  (partition_cached photons cutoff cache).1 = partition photons cutoff ∧
  cache_ok (partition_cached photons cutoff cache).2.
Proof.
  intros Hok. unfold partition_cached.
  destruct (list_find _ cache) as [[j [key v]]|] eqn:Hfind; simpl.
  - apply list_find_Some in Hfind as (Hj & Hkey & _). simpl in Hkey.
    pose proof (proj1 (Forall_lookup _ _) Hok _ _ Hj) as Hv.
    simpl in Hv. subst key. simpl in Hv. split; [done|].
    apply Forall_cons. split; [done|]. by apply Forall_delete.
  - split; [done|]. apply Forall_cons. split; [done|]. by apply Forall_take.
Qed.

(** The two loops with [partition] called directly. *)
Definition sweep_pure {S : Type} (body : S → list Z → result S)
    (cutoff : list Z) (levels : list Z) (s : S) : result S :=
  for_each levels
    (λ s photons, for_each (partition photons cutoff) body s) s.

Lemma sweep_cached {S} (body : S → list Z → result S) cutoff levels s cache :
  cache_ok cache →
  (sweep body cutoff levels s cache).1 = sweep_pure body cutoff levels s ∧
  cache_ok (sweep body cutoff levels s cache).2.
Proof.
  revert s cache. induction levels as [|p levels IH]; intros s cache Hok.
  - done.
  - cbn [sweep]. unfold sweep_pure. cbn [for_each].
    destruct (partition_cached_ok p cutoff _ Hok) as [Hv Hok'].
    destruct (partition_cached p cutoff cache) as [idxs cache'].
    simpl in Hv, Hok'. subst idxs.
    destruct (for_each (partition p cutoff) body s) as [s'|e]; [|done].
    apply IH, Hok'.
Qed.

Lemma sweep_pure_Ok_elem {S} (body : S → list Z → result S) cutoff levels
    s s' photons idx :
  sweep_pure body cutoff levels s = Ok s' →
  photons ∈ levels → idx ∈ partition photons cutoff →
  ∃ s1 s2, body s1 idx = Ok s2.
Proof.
  intros Hrun Hp Hidx.
  destruct (for_each_Ok_elem _ _ _ _ _ Hrun Hp) as (s1 & s2 & Hlevel).
  eapply for_each_Ok_elem; eauto.
Qed.

Lemma in_shape_sum_le idx sh :
  in_shape idx sh → sumZ idx ≤ sumZ sh - Z.of_nat (length sh).
Proof. induction 1; simpl; lia. Qed.

(** ** The sweep maintains any level-wise invariant

    [G D s] reads: state [s] is right on the set [D] of multi-indices
    already written.  A step at [idx] may assume that nothing above the
    photon number of [idx] has been written. *)

Section SweepInvariant.
Context {St : Type} (body : St → list Z → result St) (cs : list Z).
Variable G : (list Z → Prop) → St → Prop.
Hypothesis G_ext : ∀ D D' s, (∀ k, D k ↔ D' k) → G D s → G D' s.
Hypothesis G_step : ∀ D s idx,
  G D s → in_shape idx cs → 1 ≤ sumZ idx →
  (∀ k, D k → sumZ k ≤ sumZ idx) →
  ∃ s', body s idx = Ok s' ∧ G (λ k, D k ∨ k = idx) s'.

Lemma level_invariant (p : Z) (xs : list (list Z)) D s :
  1 ≤ p → Forall (λ idx, in_shape idx cs ∧ sumZ idx = p) xs →
  G D s → (∀ k, D k → sumZ k ≤ p) →
  ∃ s', for_each xs body s = Ok s' ∧ G (λ k, D k ∨ k ∈ xs) s'.
Proof.
  intros Hp Hxs. revert D s.
  induction Hxs as [|idx xs [Hin Hsum] _ IH]; intros D s HG HD.
  - exists s. split; [done|]. eapply G_ext; [|done].
    intros k. rewrite elem_of_nil. tauto.
  - destruct (G_step D s idx HG Hin) as (s1 & Hb & HG1); [lia| |].
    { intros k Hk. specialize (HD k Hk). lia. }
    destruct (IH _ s1 HG1) as (s' & Hrun & HG').
    { intros k [Hk| ->]; [by apply HD|lia]. }
    exists s'. simpl. rewrite Hb. split; [done|].
    eapply G_ext; [|done]. intros k. rewrite elem_of_cons. tauto.
Qed.

Lemma sweep_invariant (m : nat) (a : Z) D s :
  1 ≤ a → G D s → (∀ k, D k → sumZ k < a) →
  ∃ s', sweep_pure body cs (seqZ a (Z.of_nat m)) s = Ok s' ∧
        G (λ k, D k ∨ (in_shape k cs ∧ a ≤ sumZ k < a + Z.of_nat m)) s'.
Proof.
  revert a D s. induction m as [|m IH]; intros a D s Ha HG HD.
  - exists s. split; [done|]. eapply G_ext; [|done].
    intros k. split; [tauto|]. intros [?|[_ ?]]; [done|lia].
  - rewrite seqZ_cons by lia. unfold sweep_pure. cbn [for_each].
    destruct (level_invariant a (partition a cs) D s) as (s1 & Hrun & HG1);
      [done| |done| |].
    { apply Forall_forall. intros idx. by rewrite elem_of_partition. }
    { intros k Hk. specialize (HD k Hk). lia. }
    rewrite Hrun.
    replace (Z.pred (Z.of_nat (S m))) with (Z.of_nat m) by lia.
    destruct (IH (Z.succ a) _ s1 ltac:(lia) HG1) as (s' & Hrun' & HG').
    { intros k [Hk|Hk]; [specialize (HD k Hk); lia|].
      apply elem_of_partition in Hk. lia. }
    exists s'. split; [done|]. eapply G_ext; [|done].
    intros k. cbv beta. rewrite elem_of_partition.
    split; [intros [[?|[? ?]]|[? ?]]|intros [?|[? ?]]].
    + tauto.
    + right. split; [done|lia].
    + right. split; [done|lia].
    + tauto.
    + destruct (decide (sumZ k = a)); [tauto|].
      right. split; [done|lia].
Qed.

End SweepInvariant.

(** ** The value driver *)

(** The inputs the data model describes: [R] is [n×n], [y] and the
    cutoff tuple have [n] entries, every cutoff is positive, and the table
    of square roots covers every coordinate. *)
Record inputs_ready {K} (R : matrix K) (y : list K) (cs : list Z) : Prop := {
  inputs_rows : nrows R = length cs;
  inputs_cols : ncols R = length cs;
  inputs_y : length y = length cs;
  inputs_cutoff : Forall (λ c, 1 ≤ c ≤ 1000) cs
}.

Section ValueDriver.
Context {K : Type} `{Scalar K}.

Variables (R : matrix K) (y : list K) (cs : list Z) (C : K).

(** The array is right on the set [D]: the cutoff shape, [C] at the
    origin, and the recurrence at every multi-index of [D]. *)
Definition value_good (D : list Z → Prop) (A : ndarray K) : Prop :=
  shape A = cs ∧
  elem A (replicate (length cs) 0) = C ∧
  ∀ idx, D idx → in_shape idx cs → 1 ≤ sumZ idx →
    elem A idx = hermite_recurrence R y (elem A) idx (first_positive idx).

Lemma value_good_ext D D' A :
  (∀ k, D k ↔ D' k) → value_good D A → value_good D' A.
Proof.
  intros HD (Hsh & HC & Hrec). split_and!; [done..|].
  intros idx Hidx. apply Hrec. by apply HD.
Qed.

Hypothesis ready : inputs_ready R y cs.

Lemma inputs_step_ready idx :
  in_shape idx cs → 1 ≤ sumZ idx → step_ready R y cs idx.
Proof.
  intros Hin Hsum. destruct ready. split; try done.
  eapply Forall_impl; [done|]. simpl. lia.
Qed.

Lemma inputs_origin : in_shape (replicate (length cs) 0) cs.
Proof.
  destruct ready. apply in_shape_replicate; [done|].
  eapply Forall_impl; [done|]. simpl. lia.
Qed.

Lemma value_good_step D A idx :
  value_good D A → in_shape idx cs → 1 ≤ sumZ idx →
  (∀ k, D k → sumZ k ≤ sumZ idx) →
  ∃ A', fill_hermite_multidimensional_numba_loop A idx R y = Ok A' ∧
        value_good (λ k, D k ∨ k = idx) A'.
Proof.
  intros (Hsh & HC & Hrec) Hin Hsum HD.
  pose proof (inputs_step_ready idx Hin Hsum) as Hready.
  eexists. split; [by apply (fill_hermite_step R y cs idx Hready)|].
  set (v := hermite_recurrence _ _ _ _ _).
  assert (∀ k, sumZ k < sumZ idx → elem (update A idx v) k = elem A k)
    as Hlow.
  { intros k Hk. apply elem_update_ne. intros ->. lia. }
  split_and!; [done| |].
  - rewrite Hlow; [done|]. rewrite sumZ_replicate. lia.
  - intros k Hk Hkin Hksum.
    assert (sumZ k ≤ sumZ idx) as Hle.
    { destruct Hk as [Hk| ->]; [by apply HD|lia]. }
    rewrite (hermite_recurrence_ext R y cs k
               (inputs_step_ready k Hkin Hksum) _ (elem A))
      by (intros j Hj; apply Hlow; lia).
    destruct (decide (idx = k)) as [<-|Hne].
    + by rewrite elem_update_eq.
    + rewrite elem_update_ne by done. destruct Hk as [Hk|?]; [|done].
      by apply Hrec.
Qed.

Lemma hermite_sweep_pure A0 :
  value_good (λ _, False) A0 →
  ∃ array,
    sweep_pure (λ array idx,
                  fill_hermite_multidimensional_numba_loop array idx R y)
               cs (seqZ 1 (sumZ cs - Z.of_nat (length cs))) A0 = Ok array ∧
    value_good (λ _, True) array.
Proof.
  intros HA0.
  pose proof (in_shape_sum_le _ _ inputs_origin) as Hm.
  rewrite sumZ_replicate in Hm.
  destruct (sweep_invariant _ cs value_good value_good_ext value_good_step
              (Z.to_nat (sumZ cs - Z.of_nat (length cs))) 1 (λ _, False) A0)
    as (array & Hrun & Hgood); [lia|done|done|].
  rewrite Z2Nat.id in Hrun, Hgood by lia.
  exists array. split; [done|].
  destruct Hgood as (Hsh & HC & Hrec). split_and!; [done..|].
  intros idx _ Hin Hsum. apply Hrec; [|done..].
  right. split; [done|]. pose proof (in_shape_sum_le _ _ Hin). lia.
Qed.

End ValueDriver.

Section ValueDriverRun.
Context {K : Type} `{Scalar K}.

(** The driver on well-formed inputs, for any store the memoisation may
    be in. *)
Lemma hermite_numba_run (R : matrix K) (cutoff : cutoff_arg) (y : list K)
    (C : K) (cache : lru) :
  let cs := cutoff_tuple cutoff (length y) in
  inputs_ready R y cs → allocates (K:=K) cs → cache_ok cache →
  ∃ array,
    (hermite_multidimensional_numba R cutoff y C cache).1 = Ok array ∧
    cache_ok (hermite_multidimensional_numba R cutoff y C cache).2 ∧
    value_good R y cs C (λ _, True) array.
Proof.
  intros cs Hready Halloc Hok. unfold hermite_multidimensional_numba. fold cs.
  pose proof (inputs_origin R y cs Hready) as Horigin.
  destruct Hready as [Hrows Hcols Hy Hcut].
  rewrite decide_False by lia.
  rewrite np_zeros_allocates
    by first [done|eapply Forall_impl; [done|]; simpl; lia].
  rewrite bind_Ok, Hy, setitem_in_shape by done.
  set (A0 := update _ _ _).
  destruct (sweep_cached
              (λ array idx,
                 fill_hermite_multidimensional_numba_loop array idx R y)
              cs (seqZ 1 (sumZ cs - Z.of_nat (length cs))) A0 cache Hok)
    as [Hpure Hok'].
  destruct (hermite_sweep_pure R y cs C
              (Build_inputs_ready _ R y cs Hrows Hcols Hy Hcut) A0)
    as (array & Hrun & Hgood).
  { split_and!; [done| |done]. subst A0. by rewrite elem_update_eq. }
  exists array. rewrite Hpure. done.
Qed.

End ValueDriverRun.

(** ** The gradient driver *)

Section GradientDriver.
Context {K : Type} `{Scalar K}.

Variables (R : matrix K) (y : list K) (cs : list Z) (array : ndarray K).

(** Both gradient arrays are right on the set [D]: the cutoff shape,
    zero at the origin, and their recurrences at every multi-index of
    [D]. *)
Definition grad_good (D : list Z → Prop) (g : ndarray K * ndarray K)
  : Prop :=
  shape g.1 = cs ∧ shape g.2 = cs ∧
  elem g.1 (replicate (length cs) 0) = Kzero ∧
  elem g.2 (replicate (length cs) 0) = Kzero ∧
  ∀ idx, D idx → in_shape idx cs → 1 ≤ sumZ idx →
    elem g.1 idx =
      grad_R_recurrence R y (elem array) (elem g.1) idx (first_positive idx) ∧
    elem g.2 idx =
      grad_y_recurrence R y (elem array) (elem g.2) idx (first_positive idx).

Lemma grad_good_ext D D' g :
  (∀ k, D k ↔ D' k) → grad_good D g → grad_good D' g.
Proof.
  intros HD (HshR & Hshy & HR0 & Hy0 & Hrec). split_and!; [done..|].
  intros idx Hidx. apply Hrec. by apply HD.
Qed.

Hypothesis ready : inputs_ready R y cs.
Hypothesis array_shape : shape array = cs.

Lemma grad_good_step D g idx :
  grad_good D g → in_shape idx cs → 1 ≤ sumZ idx →
  (∀ k, D k → sumZ k ≤ sumZ idx) →
  ∃ g', fill_grad_hermite_multidimensional_numba_loop
          g.1 g.2 array idx R y = Ok g' ∧
        grad_good (λ k, D k ∨ k = idx) g'.
Proof.
  destruct g as [dR dy]. simpl.
  intros (HshR & Hshy & HR0 & Hy0 & Hrec) Hin Hsum HD. simpl in *.
  pose proof (inputs_step_ready R y cs ready idx Hin Hsum) as Hready.
  eexists. split.
  { by apply (fill_grad_hermite_step R y cs idx Hready). }
  set (vR := grad_R_recurrence _ _ _ _ _ _).
  set (vy := grad_y_recurrence _ _ _ _ _ _).
  assert (∀ k, sumZ k < sumZ idx → elem (update dR idx vR) k = elem dR k)
    as HlowR.
  { intros k Hk. apply elem_update_ne. intros ->. lia. }
  assert (∀ k, sumZ k < sumZ idx → elem (update dy idx vy) k = elem dy k)
    as Hlowy.
  { intros k Hk. apply elem_update_ne. intros ->. lia. }
  split_and!; simpl; [done|done| | |].
  - rewrite HlowR; [done|]. rewrite sumZ_replicate. lia.
  - rewrite Hlowy; [done|]. rewrite sumZ_replicate. lia.
  - intros k Hk Hkin Hksum.
    assert (sumZ k ≤ sumZ idx) as Hle.
    { destruct Hk as [Hk| ->]; [by apply HD|lia]. }
    pose proof (inputs_step_ready R y cs ready k Hkin Hksum) as Hkready.
    rewrite (grad_R_recurrence_ext R y cs k Hkready _ _ (elem dR))
      by (intros j Hj; apply HlowR; lia).
    rewrite (grad_y_recurrence_ext R y cs k Hkready _ _ (elem dy))
      by (intros j Hj; apply Hlowy; lia).
    destruct (decide (idx = k)) as [<-|Hne].
    + by rewrite !elem_update_eq.
    + rewrite !elem_update_ne by done. destruct Hk as [Hk|?]; [|done].
      by apply Hrec.
Qed.

Lemma grad_sweep_pure g0 :
  grad_good (λ _, False) g0 →
  ∃ g,
    sweep_pure (λ g idx,
                  fill_grad_hermite_multidimensional_numba_loop
                    g.1 g.2 array idx R y)
               cs (seqZ 1 (sumZ cs - Z.of_nat (length cs))) g0 = Ok g ∧
    grad_good (λ _, True) g.
Proof.
  intros Hg0.
  pose proof (in_shape_sum_le _ _ (inputs_origin R y cs ready)) as Hm.
  rewrite sumZ_replicate in Hm.
  destruct (sweep_invariant _ cs grad_good grad_good_ext grad_good_step
              (Z.to_nat (sumZ cs - Z.of_nat (length cs))) 1 (λ _, False) g0)
    as (g & Hrun & Hgood); [lia|done|done|].
  rewrite Z2Nat.id in Hrun, Hgood by lia.
  exists g. split; [done|].
  destruct Hgood as (HshR & Hshy & HR0 & Hy0 & Hrec). split_and!; [done..|].
  intros idx _ Hin Hsum. apply Hrec; [|done..].
  right. split; [done|]. pose proof (in_shape_sum_le _ _ Hin). lia.
Qed.

End GradientDriver.

Section GradientDriverRun.
Context {K : Type} `{Scalar K}.

Lemma grad_hermite_numba_run (array : ndarray K) (R : matrix K)
    (cutoff : cutoff_arg) (y : list K) (C : K) (cache : lru) :
  let cs := cutoff_tuple cutoff (length y) in
  inputs_ready R y cs → shape array = cs → cache_ok cache →
  ∃ dG_dR dG_dy,
    (grad_hermite_multidimensional_numba array R cutoff y C cache).1 =
      Ok (array_div array C, dG_dR, dG_dy) ∧
    cache_ok
      (grad_hermite_multidimensional_numba array R cutoff y C cache).2 ∧
    grad_good R y cs array (λ _, True) (dG_dR, dG_dy).
Proof.
  intros cs Hready Hshape Hok.
  unfold grad_hermite_multidimensional_numba. fold cs.
  pose proof Hready as [Hrows Hcols Hy Hcut].
  rewrite decide_False by lia. rewrite Hy.
  set (g0 := (np_zeros_like array, np_zeros_like array)).
  set (body := λ (g : ndarray K * ndarray K) idx,
         fill_grad_hermite_multidimensional_numba_loop
           g.1 g.2 array idx R y).
  destruct (sweep_cached body cs
              (seqZ 1 (sumZ cs - Z.of_nat (length cs))) g0 cache Hok)
    as [Hpure Hok'].
  destruct (grad_sweep_pure R y cs array Hready Hshape g0)
    as ([dR dy] & Hrun & Hgood).
  { subst g0. split_and!; simpl; try done; apply elem_np_zeros_like. }
  fold body in Hrun. rewrite Hrun in Hpure.
  destruct (sweep body cs _ g0 cache) as [r cache'].
  simpl in Hpure, Hok'. subst r. exists dR, dy. done.
Qed.

End GradientDriverRun.

(** ** What a run that returns tells about its inputs

    In the embedding a run that returns has made every subscript inside
    its array. *)

Lemma resolve_origin_inv (sh k : list Z) :
  resolve sh (replicate (length sh) 0) = Some k → Forall (λ d, 1 ≤ d) sh.
Proof.
  revert k. induction sh as [|d sh IH]; intros k Hr; [constructor|].
  simpl in Hr. unfold norm_index in Hr at 1.
  destruct (decide (0 ≤ 0 < d)).
  - constructor; [lia|]. simpl in Hr.
    destruct (resolve sh _) eqn:Hr'; [eauto|done].
  - rewrite decide_False in Hr by lia. done.
Qed.

Section RunInversion.
Context {K : Type} `{Scalar K}.

(** A value step that returned read its divisor inside the table. *)
Lemma fill_hermite_Ok_inv (A A' : ndarray K) idx R y :
  fill_hermite_multidimensional_numba_loop A idx R y = Ok A' →
  ∃ d v, idx !! first_positive idx = Some d ∧ SQRT_getitem d = Ok v.
Proof.
  unfold fill_hermite_multidimensional_numba_loop. cbv zeta. intros Hrun.
  apply bind_Ok_inv in Hrun as (ki & _ & Hrun).
  apply bind_Ok_inv in Hrun as (yi & _ & Hrun).
  apply bind_Ok_inv in Hrun as (a & _ & Hrun).
  apply bind_Ok_inv in Hrun as (pairs & _ & Hrun).
  apply bind_Ok_inv in Hrun as (u & _ & Hrun).
  apply bind_Ok_inv in Hrun as (d & Hd%of_option_Ok_inv & Hrun).
  apply bind_Ok_inv in Hrun as (s & Hs & _). eauto.
Qed.

(** So did a gradient step. *)
Lemma fill_grad_hermite_Ok_inv (dG_dR dG_dy A : ndarray K) g idx R y :
  fill_grad_hermite_multidimensional_numba_loop dG_dR dG_dy A idx R y =
    Ok g →
  ∃ d v, idx !! first_positive idx = Some d ∧ SQRT_getitem d = Ok v.
Proof.
  unfold fill_grad_hermite_multidimensional_numba_loop. cbv zeta.
  intros Hrun.
  apply bind_Ok_inv in Hrun as (ki & _ & Hrun).
  apply bind_Ok_inv in Hrun as (yi & _ & Hrun).
  apply bind_Ok_inv in Hrun as (gy & _ & Hrun).
  apply bind_Ok_inv in Hrun as (a & _ & Hrun).
  apply bind_Ok_inv in Hrun as (gr & _ & Hrun).
  apply bind_Ok_inv in Hrun as (pairs & _ & Hrun).
  apply bind_Ok_inv in Hrun as (acc & _ & Hrun).
  apply bind_Ok_inv in Hrun as (d & Hd%of_option_Ok_inv & Hrun).
  apply bind_Ok_inv in Hrun as (s & Hs & _). eauto.
Qed.

(** A coordinate range beyond the table keeps a sweep of such steps from
    running to its end: the multi-index with 1000 in that coordinate and
    0 elsewhere is enumerated and its divisor is [SQRT[1000]]. *)
Lemma sweep_table_bound {St} (body : St → list Z → result St)
    (cs : list Z) (A0 array : St) :
  (∀ s idx s', body s idx = Ok s' →
     ∃ d v, idx !! first_positive idx = Some d ∧
            SQRT_getitem (K:=K) d = Ok v) →
  Forall (λ d, 1 ≤ d) cs →
  sweep_pure body cs (seqZ 1 (sumZ cs - Z.of_nat (length cs))) A0 = Ok array →
  Forall (λ c, c ≤ 1000) cs.
Proof.
  intros Hinv Hpos Hrun. apply Forall_lookup. intros j c Hc.
  destruct (decide (c ≤ 1000)) as [|Hbig]; [done|exfalso].
  set (idx := <[j := 1000]> (replicate (length cs) 0)).
  pose proof (lookup_lt_Some _ _ _ Hc) as Hj.
  assert (replicate (length cs) 0 !! j = Some 0) as Hj0.
  { by apply lookup_replicate_2. }
  assert (in_shape idx cs) as Hin.
  { apply Forall2_same_length_lookup. subst idx.
    split; [by rewrite length_insert, length_replicate|].
    intros i x d Hx Hd. destruct (decide (j = i)) as [->|Hne].
    - rewrite list_lookup_insert_eq in Hx
        by (by rewrite length_replicate).
      simplify_eq. lia.
    - rewrite list_lookup_insert_ne in Hx by done.
      apply lookup_replicate in Hx as [-> _].
      pose proof (proj1 (Forall_lookup _ _) Hpos _ _ Hd). simpl in *. lia. }
  assert (sumZ idx = 1000) as Hsum.
  { subst idx. rewrite (sumZ_insert _ _ _ _ Hj0), sumZ_replicate. lia. }
  pose proof (in_shape_sum_le _ _ Hin) as Hle.
  destruct (sweep_pure_Ok_elem _ _ _ _ _ 1000 idx Hrun)
    as (s1 & s2 & Hstep).
  { apply elem_of_seqZ. lia. }
  { by apply elem_of_partition. }
  apply Hinv in Hstep as (d & v & Hd & Hv).
  apply SQRT_getitem_Ok_inv in Hv.
  destruct (first_positive_spec idx) as [(w & Hw & Hwpos) _].
  { by eapply in_shape_nonneg. }
  { lia. }
  simplify_eq. subst idx.
  destruct (decide (j = first_positive (<[j:=1000]> (replicate (length cs) 0))))
    as [Heq|Hne].
  - rewrite <- Heq in Hd.
    rewrite list_lookup_insert_eq in Hd by (by rewrite length_replicate).
    simplify_eq. lia.
  - rewrite list_lookup_insert_ne in Hd by done.
    apply lookup_replicate in Hd as [-> _]. lia.
Qed.

Lemma hermite_numba_Ok_inv (R : matrix K) (cutoff : cutoff_arg)
    (y : list K) (C : K) (cache : lru) (array : ndarray K) :
  let cs := cutoff_tuple cutoff (length y) in
  ncols R = nrows R → length cs = nrows R → cache_ok cache →
  (hermite_multidimensional_numba R cutoff y C cache).1 = Ok array →
  inputs_ready R y cs.
Proof.
  intros cs Hsq Hlen Hok. unfold hermite_multidimensional_numba. fold cs.
  destruct (decide (length y ≠ nrows R)) as [|Hy]; [done|].
  assert (length y = nrows R) as Hy' by lia. clear Hy.
  destruct (np_zeros cs ≫= _) as [A0|e] eqn:Hinit; [|done].
  apply bind_Ok_inv in Hinit as (Z0 & Hz & Hset).
  apply np_zeros_Ok_inv in Hz as (_ & Hnn & ->).
  assert (Forall (λ d, 1 ≤ d) cs) as Hpos.
  { unfold setitem in Hset. simpl in Hset.
    apply bind_Ok_inv in Hset as (k & Hk%of_option_Ok_inv & _).
    rewrite length_replicate, Hy', <- Hlen, firstn_all in Hk.
    by eapply resolve_origin_inv. }
  intros Hrun.
  destruct (sweep_cached
              (λ array idx,
                 fill_hermite_multidimensional_numba_loop array idx R y)
              cs (seqZ 1 (sumZ cs - Z.of_nat (length y))) A0 cache Hok)
    as [Hpure _].
  rewrite Hrun in Hpure. symmetry in Hpure.
  replace (length y) with (length cs) in Hpure by lia.
  apply sweep_table_bound in Hpure;
    [|intros ???; apply fill_hermite_Ok_inv|done].
  split; [lia..|].
  apply Forall_forall. intros c Hc.
  pose proof (proj1 (Forall_forall _ _) Hpos c Hc).
  pose proof (proj1 (Forall_forall _ _) Hpure c Hc). simpl in *. lia.
Qed.

Lemma hermite_numba_Ok_allocates (R : matrix K) (cutoff : cutoff_arg)
    (y : list K) (C : K) (cache : lru) (array : ndarray K) :
  (hermite_multidimensional_numba R cutoff y C cache).1 = Ok array →
  allocates (K:=K) (cutoff_tuple cutoff (length y)).
Proof.
  unfold hermite_multidimensional_numba. case_decide; [done|].
  destruct (np_zeros _ ≫= _) as [A0|e] eqn:Hinit; [|done].
  apply bind_Ok_inv in Hinit as (Z0 & Hz & _).
  by apply np_zeros_Ok_inv in Hz as (Halloc & _).
Qed.

(** A run that returned, on typed inputs, had well-formed inputs and
    returned a tensor that is right everywhere. *)
Lemma hermite_numba_Ok_good (R : matrix K) (cutoff : cutoff_arg)
    (y : list K) (C : K) (cache : lru) (array : ndarray K) :
  let cs := cutoff_tuple cutoff (length y) in
  ncols R = nrows R → length cs = nrows R → cache_ok cache →
  (hermite_multidimensional_numba R cutoff y C cache).1 = Ok array →
  inputs_ready R y cs ∧ value_good R y cs C (λ _, True) array.
Proof.
  intros cs Hsq Hlen Hok Hrun.
  pose proof (hermite_numba_Ok_inv R cutoff y C cache array Hsq Hlen Hok Hrun)
    as Hready. fold cs in Hready.
  pose proof (hermite_numba_Ok_allocates R cutoff y C cache array Hrun)
    as Halloc.
  destruct (hermite_numba_run R cutoff y C cache Hready Halloc Hok)
    as (array' & Hrun' & _ & Hgood).
  rewrite Hrun in Hrun'. injection Hrun' as <-. done.
Qed.

End RunInversion.

(** ** Cutoffs the table does not cover

    What a step needs of its index when nothing is asked of the table:
    inside the shape, photon number at least one, and parameters of the
    size of the shape. *)

Record step_shaped {K} (R : matrix K) (y : list K) (sh idx : list Z)
  : Prop := {
  shaped_rows : nrows R = length sh;
  shaped_cols : ncols R = length sh;
  shaped_y : length y = length sh;
  shaped_idx : in_shape idx sh;
  shaped_photons : 1 ≤ sumZ idx
}.

(** A loop whose body can fail in one way only fails in that way. *)
Lemma for_each_outcome {A St} (P : St → Prop) (e0 : exception) (xs : list A)
    (body : St → A → result St) (s : St) :
  (∀ s x, P s → x ∈ xs →
     match body s x with Ok s' => P s' | Err e => e = e0 end) →
  P s →
  match for_each xs body s with Ok s' => P s' | Err e => e = e0 end.
Proof.
  revert s. induction xs as [|x xs IH]; intros s Hb Hs; simpl; [done|].
  pose proof (Hb s x Hs ltac:(left)) as Hx.
  destruct (body s x) as [s1|e]; [|done].
  apply IH; [|done]. intros s' x' Hs' Hx'. apply Hb; [done|by right].
Qed.

Lemma sweep_pure_outcome {St} (P : St → Prop) (e0 : exception)
    (body : St → list Z → result St) (cs levels : list Z) (s : St) :
  (∀ s p idx, P s → p ∈ levels → idx ∈ partition p cs →
     match body s idx with Ok s' => P s' | Err e => e = e0 end) →
  P s →
  match sweep_pure body cs levels s with Ok s' => P s' | Err e => e = e0 end.
Proof.
  intros Hb Hs. unfold sweep_pure. apply for_each_outcome; [|done].
  intros s1 p Hs1 Hp. apply for_each_outcome; [|done].
  intros s2 idx Hs2 Hidx. by apply (Hb s2 p idx).
Qed.

Section ShapedStep.
Context {K : Type} `{Scalar K}.

#[local] Existing Instance K_inhabited.

(** A subscript of [SQRT] that is not negative finds the square root it
    names, or lies past the table. *)
Lemma SQRT_getitem_outcome (k : Z) :
  0 ≤ k →
  match SQRT_getitem (K:=K) k with
  | Ok s => k < 1000 ∧ s = Ksqrt k
  | Err e => 1000 ≤ k ∧ e = OutOfBounds Of_SQRT
  end.
Proof.
  intros Hk. destruct (decide (k < 1000)) as [Hlt|Hge].
  - by rewrite SQRT_getitem_in_range by lia.
  - unfold SQRT_getitem. rewrite SQRT_length. unfold norm_index.
    rewrite !decide_False by lia. simpl. split; [lia|done].
Qed.

Variables (R : matrix K) (y : list K) (sh idx : list Z).
Hypothesis shaped : step_shaped R y sh idx.

Let i := first_positive idx.
Let ki := decrement idx i.

Lemma shaped_divisor : ∃ v, idx !! i = Some v ∧ 0 < v.
Proof.
  destruct shaped.
  destruct (first_positive_spec idx) as [Hv _]; [|done..].
  by eapply in_shape_nonneg.
Qed.

Lemma shaped_position : (i < length sh)%nat.
Proof.
  destruct shaped_divisor as (v & Hi & _). destruct shaped.
  apply lookup_lt_Some in Hi. by rewrite <- (in_shape_length idx sh).
Qed.

Lemma shaped_ki : in_shape ki sh.
Proof.
  destruct shaped_divisor as (v & Hi & Hv). destruct shaped. subst ki.
  unfold decrement. rewrite (list_lookup_total_correct _ _ _ Hi).
  eapply in_shape_insert; [done..|lia].
Qed.

Lemma shaped_pair (l : nat) :
  l ∈ positive_positions ki →
  ki !! l = Some (ki !!! l) ∧ 0 < ki !!! l ∧ (l < length sh)%nat ∧
  in_shape (decrement ki l) sh.
Proof.
  intros (v & Hl & Hv)%elem_of_positive_positions.
  pose proof shaped_ki as Hki.
  destruct (in_shape_lookup _ _ _ _ Hki Hl) as (d & Hd & Hvd).
  rewrite (list_lookup_total_correct _ _ _ Hl). split_and!; try done.
  - apply lookup_lt_Some in Hd. done.
  - unfold decrement. rewrite (list_lookup_total_correct _ _ _ Hl).
    eapply in_shape_insert; [done..|lia].
Qed.

(** The value step on a shaped index returns an array of the same shape,
    unless it subscripts [SQRT] past its end. *)
Lemma fill_hermite_outcome (A : ndarray K) :
  shape A = sh →
  match fill_hermite_multidimensional_numba_loop A idx R y with
  | Ok A' => shape A' = sh
  | Err e => e = OutOfBounds Of_SQRT
  end.
Proof.
  intros Hsh. unfold fill_hermite_multidimensional_numba_loop. fold i.
  destruct shaped_divisor as (v & Hi & Hv).
  rewrite (dec_decrement _ _ _ Hi), bind_Ok. fold ki.
  unfold vgetitem. rewrite (list_lookup_lookup_total_lt y i)
    by (destruct shaped; rewrite shaped_y0; apply shaped_position).
  simpl of_option. rewrite bind_Ok.
  rewrite numba_getitem_in_shape by (rewrite Hsh; apply shaped_ki).
  rewrite bind_Ok, remove_spec, bind_Ok, for_each_fmap.
  match goal with |- context [for_each ?xs ?b ?u] =>
    pose proof (for_each_outcome (λ _, True) (OutOfBounds Of_SQRT) xs b u)
      as Hloop;
    destruct (for_each xs b u) as [u'|e]
  end; last first.
  { rewrite bind_Err. apply Hloop; [|done]. intros u l _ Hl.
    destruct (shaped_pair l Hl) as (Hkl & Hpos & Hlt & Hin).
    rewrite Hkl. simpl of_option. rewrite bind_Ok.
    assert (0 ≤ ki !!! l) as Hnn by lia.
    pose proof (SQRT_getitem_outcome (ki !!! l) Hnn) as Hs.
    destruct (SQRT_getitem (ki !!! l)) as [s|e']; [|by destruct Hs].
    rewrite bind_Ok. destruct shaped.
    rewrite mgetitem_in_range
      by (rewrite ?shaped_rows0, ?shaped_cols0; auto using shaped_position).
    by rewrite bind_Ok, numba_getitem_in_shape by (by rewrite Hsh). }
  clear Hloop. rewrite bind_Ok, Hi. simpl of_option. rewrite bind_Ok.
  assert (0 ≤ v) as Hnn by lia.
  pose proof (SQRT_getitem_outcome v Hnn) as Hs.
  destruct (SQRT_getitem v) as [s|e]; [|by destruct Hs].
  destruct Hs as [Hlt ->]. rewrite bind_Ok, numba_div_sqrt, bind_Ok by lia.
  destruct shaped. by rewrite numba_setitem_in_shape by (by rewrite Hsh).
Qed.

(** So does the gradient step. *)
Lemma fill_grad_hermite_outcome (dG_dR dG_dy A : ndarray K) :
  shape A = sh → shape dG_dR = sh → shape dG_dy = sh →
  match fill_grad_hermite_multidimensional_numba_loop
          dG_dR dG_dy A idx R y with
  | Ok g => shape g.1 = sh ∧ shape g.2 = sh
  | Err e => e = OutOfBounds Of_SQRT
  end.
Proof.
  intros Hsh HshR Hshy.
  unfold fill_grad_hermite_multidimensional_numba_loop. fold i.
  destruct shaped_divisor as (v & Hi & Hv).
  rewrite (dec_decrement _ _ _ Hi), bind_Ok. fold ki.
  unfold vgetitem. rewrite (list_lookup_lookup_total_lt y i)
    by (destruct shaped; rewrite shaped_y0; apply shaped_position).
  simpl of_option. rewrite bind_Ok.
  pose proof shaped_ki as Hki.
  rewrite !numba_getitem_in_shape by (by rewrite ?Hsh, ?HshR, ?Hshy).
  rewrite !bind_Ok, remove_spec, bind_Ok, for_each_fmap.
  match goal with |- context [for_each ?xs ?b ?u] =>
    pose proof (for_each_outcome (λ _, True) (OutOfBounds Of_SQRT) xs b u)
      as Hloop;
    destruct (for_each xs b u) as [acc|e]
  end; last first.
  { rewrite bind_Err. apply Hloop; [|done]. intros [dy dR] l _ Hl.
    destruct (shaped_pair l Hl) as (Hkl & Hpos & Hlt & Hin).
    rewrite Hkl. simpl of_option. rewrite bind_Ok.
    assert (0 ≤ ki !!! l) as Hnn by lia.
    pose proof (SQRT_getitem_outcome (ki !!! l) Hnn) as Hs.
    destruct (SQRT_getitem (ki !!! l)) as [s|e']; [|by destruct Hs].
    rewrite bind_Ok.
    rewrite !numba_getitem_in_shape by (by rewrite ?Hsh, ?HshR, ?Hshy).
    destruct shaped.
    rewrite mgetitem_in_range
      by (rewrite ?shaped_rows0, ?shaped_cols0; auto using shaped_position).
    by rewrite !bind_Ok. }
  clear Hloop. rewrite bind_Ok, Hi. simpl of_option. rewrite bind_Ok.
  assert (0 ≤ v) as Hnn by lia.
  pose proof (SQRT_getitem_outcome v Hnn) as Hs.
  destruct (SQRT_getitem v) as [s|e]; [|by destruct Hs].
  destruct Hs as [Hlt ->]. destruct shaped.
  repeat first
    [ rewrite bind_Ok
    | rewrite numba_div_sqrt by lia
    | rewrite numba_setitem_in_shape by (by rewrite ?HshR, ?Hshy) ].
  done.
Qed.

End ShapedStep.

(** ** The ways the recursion fails *)

Definition raises_only {A} (P : exception → Prop) (r : result A) : Prop :=
  ∀ e, r = Err e → P e.

(** The ways a step of compiled code does not return: an exception of
    a tuple subscript, of the division or of the compiler, or a subscript
    outside an array. *)
Definition step_failure (e : exception) : Prop :=
  e = IndexError ∨ e = PartialIndex ∨ e = TypingError ∨
  e = ZeroDivisionError ∨ ∃ a, e = OutOfBounds a.

Lemma raises_only_Ok {A} P (a : A) : raises_only P (Ok a).
Proof. by intros e. Qed.

Lemma raises_only_Err {A} (P : exception → Prop) e :
  P e → raises_only (A:=A) P (Err e).
Proof. intros HP e' [= <-]. done. Qed.

Lemma raises_only_bind {A B} P (m : result A) (f : A → result B) :
  raises_only P m → (∀ a, raises_only P (f a)) → raises_only P (m ≫= f).
Proof.
  intros Hm Hf e. destruct m as [a|e']; simpl.
  - apply Hf.
  - intros [= <-]. by apply Hm.
Qed.

Lemma raises_only_of_option {A} (P : exception → Prop) (o : option A) e :
  P e → raises_only P (of_option o e).
Proof.
  destruct o; simpl; [intros _; apply raises_only_Ok|apply raises_only_Err].
Qed.

Lemma raises_only_for_each {A S} P (xs : list A) (body : S → A → result S) s :
  (∀ s x, raises_only P (body s x)) → raises_only P (for_each xs body s).
Proof.
  intros Hb. revert s. induction xs as [|x xs IH]; intros s; simpl.
  - apply raises_only_Ok.
  - pose proof (Hb s x) as Hx. destruct (body s x) as [s'|e].
    + apply IH.
    + done.
Qed.

Lemma raises_only_for_each_elem {A S} P (xs : list A)
    (body : S → A → result S) s :
  (∀ s x, x ∈ xs → raises_only P (body s x)) →
  raises_only P (for_each xs body s).
Proof.
  revert s. induction xs as [|x xs IH]; intros s Hb; simpl.
  - apply raises_only_Ok.
  - pose proof (Hb s x ltac:(left)) as Hx. destruct (body s x) as [s'|e].
    + apply IH. intros s1 x1 Hx1. apply Hb. by right.
    + done.
Qed.

Lemma raises_only_sweep {S} P (body : S → list Z → result S) cs levels s cache :
  (∀ s idx, raises_only P (body s idx)) →
  raises_only P (sweep body cs levels s cache).1.
Proof.
  intros Hb. revert s cache. induction levels as [|p levels IH];
    intros s cache; cbn [sweep].
  - apply raises_only_Ok.
  - destruct (partition_cached p cs cache) as [idxs cache'].
    pose proof (raises_only_for_each P idxs body s Hb) as Hl.
    destruct (for_each idxs body s) as [s'|e]; [apply IH|done].
Qed.

Create HintDb raises.

(** Discharges [allocates] on a concrete shape of positive entries. *)
Ltac allocated :=
  apply allocates_positive;
  [ repeat constructor; lia
  | unfold NPY_MAXDIMS; simpl; lia
  | unfold NPY_MAX_INTP; cbn; lia
  | cbn; lia ].

Section RaisesFacts.
Context {K : Type} `{Scalar K}.

#[local] Hint Resolve raises_only_Ok raises_only_of_option : raises.
#[local] Hint Extern 1 (step_failure _) =>
  (unfold step_failure; eauto 7) : raises.

Lemma raises_only_unchecked {A} a (r : result A) :
  raises_only step_failure r → raises_only step_failure (unchecked a r).
Proof.
  intros Hr e. destruct r as [x|e']; [done|].
  destruct e'; simpl; intros [= <-]; auto with raises; by apply Hr.
Qed.

Lemma raises_dec tup i : raises_only step_failure (dec tup i).
Proof.
  unfold dec. apply raises_only_bind; [|intros v]; auto with raises.
Qed.

Lemma raises_remove pattern : raises_only step_failure (remove pattern).
Proof. rewrite remove_spec. apply raises_only_Ok. Qed.

Lemma raises_getitem (A : ndarray K) idx :
  raises_only step_failure (getitem A idx).
Proof.
  unfold getitem. case_decide.
  - apply raises_only_Err. auto with raises.
  - apply raises_only_bind; [|intros v]; auto with raises.
Qed.

Lemma raises_setitem (A : ndarray K) idx v :
  raises_only step_failure (setitem A idx v).
Proof.
  unfold setitem. apply raises_only_bind; [|intros k]; auto with raises.
Qed.

Lemma raises_numba_getitem (A : ndarray K) idx :
  raises_only step_failure (numba_getitem A idx).
Proof.
  unfold numba_getitem. case_decide.
  - apply raises_only_Err. auto with raises.
  - apply raises_only_unchecked, raises_getitem.
Qed.

Lemma raises_numba_setitem (A : ndarray K) idx v :
  raises_only step_failure (numba_setitem A idx v).
Proof.
  unfold numba_setitem. case_decide.
  - apply raises_only_Err. auto with raises.
  - apply raises_only_unchecked, raises_setitem.
Qed.

Lemma raises_numba_div (u s : K) : raises_only step_failure (numba_div u s).
Proof.
  unfold numba_div. destruct (Kis_zero s).
  - apply raises_only_Err. auto with raises.
  - apply raises_only_Ok.
Qed.

Lemma raises_vgetitem (y : list K) i : raises_only step_failure (vgetitem y i).
Proof. unfold vgetitem. auto with raises. Qed.

Lemma raises_SQRT_getitem k :
  raises_only step_failure (SQRT_getitem (K:=K) k).
Proof.
  unfold SQRT_getitem. apply raises_only_bind; [|intros v]; auto with raises.
Qed.

Lemma raises_mgetitem (R : matrix K) i l :
  raises_only step_failure (mgetitem R i l).
Proof.
  unfold mgetitem. case_decide; [apply raises_only_Ok|].
  apply raises_only_Err. auto with raises.
Qed.

#[local] Hint Resolve raises_dec raises_remove raises_numba_getitem
  raises_numba_setitem raises_numba_div raises_vgetitem
  raises_SQRT_getitem raises_mgetitem : raises.

Ltac raises_step :=
  first [ apply raises_only_bind; [|intros ?]
        | apply raises_only_for_each; intros [? ?] [? ?]
        | apply raises_only_for_each; intros ? [? ?]
        | solve [auto with raises] ].

Lemma raises_fill_hermite (A : ndarray K) idx R y :
  raises_only step_failure
    (fill_hermite_multidimensional_numba_loop A idx R y).
Proof.
  unfold fill_hermite_multidimensional_numba_loop. cbv zeta.
  repeat raises_step.
Qed.

Lemma raises_fill_grad_hermite (dG_dR dG_dy A : ndarray K) idx R y :
  raises_only step_failure
    (fill_grad_hermite_multidimensional_numba_loop dG_dR dG_dy A idx R y).
Proof.
  unfold fill_grad_hermite_multidimensional_numba_loop. cbv zeta.
  repeat raises_step.
Qed.

(** With matching lengths the value driver fails only where [np.zeros],
    the assignment of [C] or a step fails. *)
Lemma raises_hermite_numba (R : matrix K) cutoff y C cache :
  length y = nrows R →
  raises_only (λ e, e = InvalidShape ∨ e = MemoryError ∨ step_failure e)
    (hermite_multidimensional_numba R cutoff y C cache).1.
Proof.
  intros Hy. unfold hermite_multidimensional_numba.
  rewrite decide_False by lia.
  match goal with |- context [np_zeros ?cs ≫= ?f] =>
    assert (raises_only
              (λ e, e = InvalidShape ∨ e = MemoryError ∨ step_failure e)
              (np_zeros cs ≫= f)) as Hinit
  end.
  { unfold np_zeros. repeat case_decide.
    - rewrite bind_Ok. intros e He. do 2 right. by eapply raises_setitem.
    - apply raises_only_Err. auto.
    - apply raises_only_Err. auto. }
  destruct (np_zeros _ ≫= _) as [A0|e]; [|done].
  intros e He. do 2 right. revert e He.
  apply raises_only_sweep. intros. apply raises_fill_hermite.
Qed.

Lemma raises_grad_hermite_numba (array : ndarray K) R cutoff y C cache :
  length y = nrows R →
  raises_only step_failure
    (grad_hermite_multidimensional_numba array R cutoff y C cache).1.
Proof.
  intros Hy. unfold grad_hermite_multidimensional_numba.
  rewrite decide_False by lia.
  match goal with |- context [sweep ?b ?cs ?ls ?g ?c] =>
    pose proof (raises_only_sweep step_failure b cs ls g c) as Hsw;
    destruct (sweep b cs ls g c) as [[g'|e] cache']
  end; [apply raises_only_Ok|].
  simpl in *. intros e' [= <-].
  apply (Hsw (λ g idx, raises_fill_grad_hermite g.1 g.2 array idx R y)
           e eq_refl).
Qed.

(** *** What no step does inside the table

    [table_safe e]: the failure [e] is neither a subscript of [SQRT]
    outside the table nor a division by zero. *)

Definition table_safe (e : exception) : Prop :=
  e ≠ OutOfBounds Of_SQRT ∧ e ≠ ZeroDivisionError.

Lemma safe_vgetitem (y : list K) i : raises_only table_safe (vgetitem y i).
Proof. unfold vgetitem. by destruct (y !! i); intros e [= <-]. Qed.

Lemma safe_mgetitem (R : matrix K) i l :
  raises_only table_safe (mgetitem R i l).
Proof. unfold mgetitem. by case_decide; intros e [= <-]. Qed.

Lemma safe_unchecked {A} (r : result A) :
  raises_only (λ e, e = IndexError ∨ e = PartialIndex) r →
  raises_only table_safe (unchecked Of_tensor r).
Proof.
  intros Hr e. destruct r as [x|e']; [done|].
  destruct (Hr e' eq_refl) as [-> | ->]; by intros [= <-].
Qed.

Lemma safe_numba_getitem (A : ndarray K) idx :
  raises_only table_safe (numba_getitem A idx).
Proof.
  unfold numba_getitem. case_decide; [by intros e [= <-]|].
  apply safe_unchecked. unfold getitem. case_decide.
  - intros e [= <-]. by right.
  - destruct (resolve _ _); intros e [= <-]. by left.
Qed.

Lemma safe_numba_setitem (A : ndarray K) idx v :
  raises_only table_safe (numba_setitem A idx v).
Proof.
  unfold numba_setitem. case_decide; [by intros e [= <-]|].
  apply safe_unchecked. unfold setitem.
  destruct (resolve _ _); intros e [= <-]. by left.
Qed.

Section TableSafe.
Variables (cutoff : list Z) (photons : Z) (idx : list Z).
Hypothesis table : Forall (λ c, c ≤ 1000) cutoff.
Hypothesis level : 1 ≤ photons.
Hypothesis listed : idx ∈ partition photons cutoff.

Let i := first_positive idx.
Let ki := decrement idx i.

(** The facts about the subscripts do not depend on the arrays: they
    are those of a step on parameters of the right size. *)
Lemma listed_ready :
  step_ready {| nrows := length cutoff; ncols := length cutoff;
                coeff := λ _ _, Kzero (K:=K) |}
             (replicate (length cutoff) (Kzero (K:=K))) cutoff idx.
Proof.
  apply elem_of_partition in listed as [Hin Hsum].
  split; try done; [apply length_replicate|lia].
Qed.

Lemma safe_fill_hermite (A : ndarray K) R y :
  raises_only table_safe (fill_hermite_multidimensional_numba_loop A idx R y).
Proof.
  unfold fill_hermite_multidimensional_numba_loop. fold i.
  pose proof (step_dec _ _ _ _ listed_ready) as Hdec.
  destruct (step_divisor _ _ _ _ listed_ready) as (d & Hd & Hdr).
  cbv zeta in Hdec. fold i in Hdec, Hd. rewrite Hdec, bind_Ok. fold ki.
  apply raises_only_bind; [apply safe_vgetitem|intros yi].
  apply raises_only_bind; [apply safe_numba_getitem|intros a].
  rewrite remove_spec, bind_Ok, for_each_fmap.
  apply raises_only_bind; [|intros u].
  { apply raises_only_for_each_elem. intros u l Hl.
    destruct (step_pair _ _ _ _ listed_ready l Hl) as (Hkl & Hr & _).
    fold i ki in Hkl, Hr. rewrite Hkl. simpl of_option. rewrite bind_Ok.
    rewrite SQRT_getitem_in_range by lia. rewrite bind_Ok.
    apply raises_only_bind; [apply safe_mgetitem|intros r].
    apply raises_only_bind; [apply safe_numba_getitem|intros a'].
    apply raises_only_Ok. }
  rewrite Hd. simpl of_option. rewrite bind_Ok.
  rewrite SQRT_getitem_in_range by lia. rewrite bind_Ok.
  rewrite numba_div_sqrt by lia. rewrite bind_Ok.
  apply safe_numba_setitem.
Qed.

Lemma safe_fill_grad_hermite (dG_dR dG_dy A : ndarray K) R y :
  raises_only table_safe
    (fill_grad_hermite_multidimensional_numba_loop dG_dR dG_dy A idx R y).
Proof.
  unfold fill_grad_hermite_multidimensional_numba_loop. fold i.
  pose proof (step_dec _ _ _ _ listed_ready) as Hdec.
  destruct (step_divisor _ _ _ _ listed_ready) as (d & Hd & Hdr).
  cbv zeta in Hdec. fold i in Hdec, Hd. rewrite Hdec, bind_Ok. fold ki.
  apply raises_only_bind; [apply safe_vgetitem|intros yi].
  apply raises_only_bind; [apply safe_numba_getitem|intros gy].
  apply raises_only_bind; [apply safe_numba_getitem|intros a].
  apply raises_only_bind; [apply safe_numba_getitem|intros gr].
  rewrite remove_spec, bind_Ok, for_each_fmap.
  apply raises_only_bind; [|intros acc].
  { apply raises_only_for_each_elem. intros [dy dR] l Hl.
    destruct (step_pair _ _ _ _ listed_ready l Hl) as (Hkl & Hr & _).
    fold i ki in Hkl, Hr. rewrite Hkl. simpl of_option. rewrite bind_Ok.
    rewrite SQRT_getitem_in_range by lia. rewrite bind_Ok.
    apply raises_only_bind; [apply safe_numba_getitem|intros gy'].
    apply raises_only_bind; [apply safe_mgetitem|intros r].
    apply raises_only_bind; [apply safe_numba_getitem|intros gr'].
    apply raises_only_bind; [apply safe_numba_getitem|intros a'].
    apply raises_only_Ok. }
  rewrite Hd. simpl of_option. rewrite bind_Ok.
  rewrite SQRT_getitem_in_range by lia. rewrite bind_Ok.
  rewrite numba_div_sqrt by lia. rewrite bind_Ok.
  apply raises_only_bind; [apply safe_numba_setitem|intros gR'].
  rewrite ?SQRT_getitem_in_range by lia. rewrite bind_Ok.
  rewrite numba_div_sqrt by lia. rewrite bind_Ok.
  apply raises_only_bind; [apply safe_numba_setitem|intros gy'].
  apply raises_only_Ok.
Qed.

End TableSafe.

End RaisesFacts.

(** ** Two element types to run the recursion on *)

#[global] Instance Req_decision (x y : R) : Decision (x = y) :=
  Req_EM_T x y.

Lemma real_sqrt_zero : bool_decide (sqrt (IZR 0) = 0%R) = true.
Proof. apply bool_decide_eq_true_2, sqrt_0. Qed.

Lemma real_sqrt_positive (k : Z) :
  0 < k → bool_decide (sqrt (IZR k) = 0%R) = false.
Proof.
  intros Hk. apply bool_decide_eq_false_2.
  pose proof (sqrt_lt_R0 (IZR k) (IZR_lt 0 k Hk)). lra.
Qed.

(** Exact real arithmetic: the real-valued path, without rounding, with
    the item size of [complex128] and 16 GiB of memory. *)
#[global] Instance real_scalar : Scalar R := {|
  Kzero := 0%R;
  Kadd := Rplus;
  Ksub := Rminus;
  Kmul := Rmult;
  Kdiv := Rdiv;
  Ksqrt := λ k, sqrt (IZR k);
  Kis_zero := λ x, bool_decide (x = 0%R);
  Kitemsize := 16;
  Kmemory := 2 ^ 34;
  Ksqrt_zero := real_sqrt_zero;
  Ksqrt_positive := real_sqrt_positive
|}.

(** Symbolic elements: every element is the expression the code built
    for it from the entries of [R] and [y], the constant [C] and the
    table. *)
Inductive term : Type :=
| TZero
| TC
| TY (i : nat)
| TR (i l : nat)
| TSqrt (k : Z)
| TAdd (a b : term)
| TSub (a b : term)
| TMul (a b : term)
| TDiv (a b : term).

(** A symbolic element is known to be zero when it is the literal zero
    or the square root of zero. *)
Definition term_is_zero (t : term) : bool :=
  match t with
  | TZero => true
  | TSqrt k => bool_decide (k = 0)
  | _ => false
  end.

Lemma term_sqrt_positive (k : Z) : 0 < k → term_is_zero (TSqrt k) = false.
Proof. intros Hk. apply bool_decide_eq_false_2. lia. Qed.

#[global] Instance term_scalar : Scalar term := {|
  Kzero := TZero;
  Kadd := TAdd;
  Ksub := TSub;
  Kmul := TMul;
  Kdiv := TDiv;
  Ksqrt := TSqrt;
  Kis_zero := term_is_zero;
  Kitemsize := 16;
  Kmemory := 2 ^ 34;
  Ksqrt_zero := eq_refl;
  Ksqrt_positive := term_sqrt_positive
|}.

Definition symbolic_R (n : nat) : matrix term :=
  {| nrows := n; ncols := n; coeff := TR |}.

Definition symbolic_y (n : nat) : list term := TY <$> seq 0 n.

(** The regression input of the specification:
    [R = [[0.5, 0.1], [0.1, 0.3]]], [y = [0.2, -0.1]], [cutoff = 4],
    [C = 1]. *)
Definition regression_R : matrix R :=
  {| nrows := 2; ncols := 2;
     coeff := λ i l,
       match i, l with
       | O, O => (5 / 10)%R
       | S O, S O => (3 / 10)%R
       | _, _ => (1 / 10)%R
       end |}.

Definition regression_y : list R := [(2 / 10)%R; (- (1 / 10))%R].

(** * The claims *)

(** ** Value tensor *)

(** What the specification asks of a value tensor: [C] at the all-zero
    multi-index, and at every other multi-index [idx] of the shape the
    recurrence taken at the lowest position [i] with [idx[i] > 0]. *)
Definition hermite_tensor {K} `{Scalar K} (R : matrix K) (y : list K)
    (cs : list Z) (C : K) (array : ndarray K) : Prop :=
  shape array = cs ∧
  elem array (replicate (length cs) 0) = C ∧
  ∀ idx, in_shape idx cs → 1 ≤ sumZ idx →
    sumZ idx ≤ sumZ cs - Z.of_nat (length cs) ∧
    getitem array idx = Ok (elem array idx) ∧
    ∃ i, lowest_positive idx i ∧
         elem array idx = hermite_recurrence R y (elem array) idx i.

Lemma value_good_hermite_tensor {K} `{Scalar K} (R : matrix K) (y : list K)
    (cs : list Z) (C : K) (array : ndarray K) :
  value_good R y cs C (λ _, True) array → hermite_tensor R y cs C array.
Proof.
  intros (Hsh & HC & Hrec). split_and!; [done..|].
  intros idx Hin Hsum. split_and!.
  - by apply in_shape_sum_le.
  - apply getitem_in_shape. by rewrite Hsh.
  - exists (first_positive idx). split; [|by apply Hrec].
    apply first_positive_spec; [by eapply in_shape_nonneg|done].
Qed.

(** On the cutoffs the table covers the driver computes the recurrence.
    For every [n×n] matrix [R], length-[n] vector [y], constant [C] and
    cutoff (an integer or an [n]-tuple) whose entries lie between 1 and
    1000 and whose tensor [np.zeros] allocates,
    [hermite_multidimensional_numba] returns a tensor of the cutoff shape
    whose all-zero entry is [C] and whose entry at every multi-index [idx]
    of photon number [p], [1 ≤ p ≤ sum(cutoff) − n], equals
    [(y[i]*value[ki] − Σ sqrt(ki[l])*R[i][l]*value[kl]) / sqrt(idx[i])]
    with [i] the lowest position with [idx[i] > 0], [ki] the decrement of
    [idx] at [i], the sum over the positions [l] with [ki[l] > 0] and [kl]
    the decrement of [ki] at [l]. *)
Theorem hermite_multidimensional_numba_recurrence {K} `{Scalar K}
    (R : matrix K) (cutoff : cutoff_arg) (y : list K) (C : K) (cache : lru) :
  let cs := cutoff_tuple cutoff (length y) in
  nrows R = length y → ncols R = length y → length cs = length y →
  Forall (λ c, 1 ≤ c ≤ 1000) cs → allocates (K:=K) cs → cache_ok cache →
  ∃ array,
    (hermite_multidimensional_numba R cutoff y C cache).1 = Ok array ∧
    hermite_tensor R y cs C array.
Proof.
  intros cs Hrows Hcols Hlen Hcut Halloc Hok.
  destruct (hermite_numba_run R cutoff y C cache) as (array & Hrun & _ & Hgood);
    [|done..|].
  { fold cs. split; [lia..|done]. }
  exists array. split; [done|]. by apply value_good_hermite_tensor.
Qed.

Lemma hermite_multidimensional_numba_recurrence_witness :
  ∃ array,
    (hermite_multidimensional_numba regression_R (CutoffInt 4) regression_y
       1%R []).1 = Ok array ∧
    hermite_tensor regression_R regression_y [4; 4] 1%R array.
Proof.
  apply (hermite_multidimensional_numba_recurrence
           regression_R (CutoffInt 4) regression_y 1%R []).
  - reflexivity.
  - reflexivity.
  - reflexivity.
  - repeat constructor; lia.
  - allocated.
  - constructor.
Defined.

(** C1.  The claim asks the recurrence of every entry for every cutoff
    vector, and so does the docstring (all [0 ≤ k_j < cutoff]).  The code
    does not deliver it when a cutoff exceeds 1000: where [R] is [n×n],
    [y] has length [n], the cutoffs are positive and [np.zeros] allocates
    the tensor, the sweep comes to a multi-index whose coordinate is 1000
    or more and subscripts [SQRT] past its 1000 entries.  numba checks no
    bounds, so nothing is raised; the entry is computed from whatever lies
    behind the table, not from the square root the recurrence names. *)
Theorem hermite_multidimensional_numba_reads_past_SQRT {K} `{Scalar K}
    (R : matrix K) (cutoff : cutoff_arg) (y : list K) (C : K) (cache : lru) :
  let cs := cutoff_tuple cutoff (length y) in
  nrows R = length y → ncols R = length y → length cs = length y →
  Forall (λ c, 1 ≤ c) cs → Exists (λ c, 1000 < c) cs →
  allocates (K:=K) cs → cache_ok cache →
  (hermite_multidimensional_numba R cutoff y C cache).1 =
    Err (OutOfBounds Of_SQRT).
Proof.
  intros cs Hrows Hcols Hlen Hpos Hbig Halloc Hok.
  unfold hermite_multidimensional_numba. fold cs.
  rewrite decide_False by lia.
  rewrite np_zeros_allocates
    by first [done|eapply Forall_impl; [done|]; simpl; lia].
  rewrite bind_Ok, <- Hlen, setitem_in_shape
    by (by apply in_shape_replicate).
  set (A0 := update _ _ _).
  set (body := λ array idx,
         fill_hermite_multidimensional_numba_loop array idx R y).
  destruct (sweep_cached body cs
              (seqZ 1 (sumZ cs - Z.of_nat (length cs))) A0 cache Hok)
    as [-> _].
  pose proof (sweep_pure_outcome (λ A : ndarray K, shape A = cs)
                (OutOfBounds Of_SQRT) body cs
                (seqZ 1 (sumZ cs - Z.of_nat (length cs))) A0) as Hout.
  destruct (sweep_pure body cs _ A0) as [array|e] eqn:Hrun.
  - apply sweep_table_bound in Hrun;
      [|intros ???; apply fill_hermite_Ok_inv|done].
    apply Exists_exists in Hbig as (c & Hc & Hlt).
    pose proof (proj1 (Forall_forall _ _) Hrun c Hc). simpl in *. lia.
  - f_equal. apply Hout; [|done].
    intros A p idx HA Hp [Hin Hsum]%elem_of_partition.
    apply elem_of_seqZ in Hp.
    apply (fill_hermite_outcome R y cs idx); [|done].
    split; [lia..|done|lia].
Qed.

Lemma hermite_multidimensional_numba_reads_past_SQRT_witness :
  (hermite_multidimensional_numba
     {| nrows := 1; ncols := 1; coeff := λ _ _, 1%R |}
     (CutoffInt 1001) [0%R] 1%R []).1 = Err (OutOfBounds Of_SQRT).
Proof.
  apply (hermite_multidimensional_numba_reads_past_SQRT
           {| nrows := 1; ncols := 1; coeff := λ _ _, 1%R |}
           (CutoffInt 1001) [0%R] 1%R []).
  - reflexivity.
  - reflexivity.
  - reflexivity.
  - repeat constructor; lia.
  - repeat constructor; lia.
  - allocated.
  - constructor.
Defined.

(** ** Enumeration of multi-indices *)

(** C2.  [partition(photons, cutoff)] lists, without repetition, exactly
    the multi-indices of length [len(cutoff)] whose coordinates sum to
    [photons] and satisfy [0 ≤ k_j < cutoff_j]; [partition(0, (3,3))] is
    [(0,0)] alone, [partition(5, (3,3))] is empty, and for the empty
    cutoff the result is the empty multi-index alone when [photons = 0]
    and empty otherwise. *)
Theorem partition_enumerates :
  (∀ photons cutoff k,
     k ∈ partition photons cutoff ↔
     length k = length cutoff ∧ sumZ k = photons ∧
     ∀ (j : nat) kj cj, k !! j = Some kj → cutoff !! j = Some cj → 0 ≤ kj < cj) ∧
  (∀ photons cutoff, NoDup (partition photons cutoff)) ∧
  partition 0 [3; 3] = [[0; 0]] ∧
  partition 5 [3; 3] = [] ∧
  partition 0 [] = [[]] ∧
  (∀ photons, photons ≠ 0 → partition photons [] = []).
Proof.
  split_and!.
  - intros photons cutoff k. rewrite elem_of_partition. unfold in_shape.
    rewrite Forall2_same_length_lookup. tauto.
  - apply NoDup_partition.
  - reflexivity.
  - reflexivity.
  - reflexivity.
  - intros photons Hp. unfold partition. simpl.
    rewrite filter_cons_False by (simpl; lia). done.
Qed.

(** C9.  The enumeration that bounds coordinate [j] by
    [min(photons, cutoff_j − 1)] before filtering on the sum returns the
    same multi-indices as the naive enumeration over the full ranges
    [0 ≤ k_j < cutoff_j]: the same list, in the same order, hence the same
    members, and neither repeats one. *)
Theorem partition_refines_naive (photons : Z) (cutoff : list Z) :
  partition photons cutoff = partition_naive photons cutoff ∧
  (∀ k, k ∈ partition photons cutoff ↔ k ∈ partition_naive photons cutoff) ∧
  NoDup (partition photons cutoff) ∧
  NoDup (partition_naive photons cutoff).
Proof.
  split_and!.
  - apply partition_eq_naive.
  - intros k. by rewrite elem_of_partition, elem_of_partition_naive.
  - apply NoDup_partition.
  - apply NoDup_partition_naive.
Qed.

(** ** Gradient tensors *)

(** What the specification asks of the three gradient tensors computed
    from the value tensor [array]. *)
Definition hermite_gradients {K} `{Scalar K} (R : matrix K) (y : list K)
    (cs : list Z) (C : K) (array dG_dC dG_dR dG_dy : ndarray K) : Prop :=
  dG_dC = array_div array C ∧
  (∀ k, elem dG_dC k = Kdiv (elem array k) C) ∧
  shape dG_dR = cs ∧ shape dG_dy = cs ∧
  elem dG_dR (replicate (length cs) 0) = Kzero ∧
  elem dG_dy (replicate (length cs) 0) = Kzero ∧
  ∀ idx, in_shape idx cs → 1 ≤ sumZ idx →
    ∃ i, lowest_positive idx i ∧
         elem dG_dR idx =
           grad_R_recurrence R y (elem array) (elem dG_dR) idx i ∧
         elem dG_dy idx =
           grad_y_recurrence R y (elem array) (elem dG_dy) idx i.

(** The value tensor of the symbolic 2×2 problem with cutoff 2. *)
Definition symbolic_tensor : ndarray term :=
  Eval vm_compute in
    match (hermite_multidimensional_numba (symbolic_R 2) (CutoffInt 2)
             (symbolic_y 2) TC []).1 with
    | Ok array => array
    | Err _ => {| shape := []; background := TZero; data := ∅ |}
    end.

(** Its entries, as the recurrence builds them: [(1,0)] is
    [y[0]*C / sqrt(1)], and [(1,1)] subtracts the one removable pair of
    [ki = (0,1)]. *)
Example symbolic_tensor_10 :
  getitem symbolic_tensor [1; 0] = Ok (TDiv (TMul (TY 0) TC) (TSqrt 1)).
Proof. vm_compute. reflexivity. Qed.

Example symbolic_tensor_11 :
  getitem symbolic_tensor [1; 1] =
    Ok (TDiv (TSub (TMul (TY 0) (TDiv (TMul (TY 1) TC) (TSqrt 1)))
                   (TMul (TMul (TSqrt 1) (TR 0 1)) TC))
             (TSqrt 1)).
Proof. vm_compute. reflexivity. Qed.

(** C3.  The claim asks the gradient recurrences of every entry of every
    fully populated value tensor.  The code does not deliver them when a
    cutoff exceeds 1000: for [R] of size [n×n], [y] of length [n], positive
    cutoffs and any tensor of the cutoff shape (the value tensor computed
    for them is one), the gradient sweep comes to a multi-index whose
    coordinate is 1000 or more and subscripts [SQRT] past its 1000
    entries, unchecked: [dG_dR] and [dG_dy] are computed there from
    whatever lies behind the table, not from the square root the claim
    names.  This is the defect of C1, in the gradient loop. *)
Theorem grad_hermite_multidimensional_numba_reads_past_SQRT {K} `{Scalar K}
    (array : ndarray K) (R : matrix K) (cutoff : cutoff_arg) (y : list K)
    (C : K) (cache : lru) :
  let cs := cutoff_tuple cutoff (length y) in
  nrows R = length y → ncols R = length y → length cs = length y →
  shape array = cs →
  Forall (λ c, 1 ≤ c) cs → Exists (λ c, 1000 < c) cs → cache_ok cache →
  (grad_hermite_multidimensional_numba array R cutoff y C cache).1 =
    Err (OutOfBounds Of_SQRT).
Proof.
  intros cs Hrows Hcols Hlen Hsh Hpos Hbig Hok.
  unfold grad_hermite_multidimensional_numba. fold cs.
  rewrite decide_False by lia. rewrite <- Hlen.
  set (g0 := (np_zeros_like array, np_zeros_like array)).
  set (body := λ (g : ndarray K * ndarray K) idx,
         fill_grad_hermite_multidimensional_numba_loop
           g.1 g.2 array idx R y).
  destruct (sweep_cached body cs
              (seqZ 1 (sumZ cs - Z.of_nat (length cs))) g0 cache Hok)
    as [Hpure _].
  pose proof (sweep_pure_outcome
                (λ g : ndarray K * ndarray K, shape g.1 = cs ∧ shape g.2 = cs)
                (OutOfBounds Of_SQRT) body cs
                (seqZ 1 (sumZ cs - Z.of_nat (length cs))) g0) as Hout.
  destruct (sweep body cs _ g0 cache) as [r cache']. simpl in Hpure.
  subst r.
  destruct (sweep_pure body cs _ g0) as [g|e] eqn:Hrun.
  - apply sweep_table_bound in Hrun;
      [|intros ???; apply fill_grad_hermite_Ok_inv|done].
    apply Exists_exists in Hbig as (c & Hc & Hlt).
    pose proof (proj1 (Forall_forall _ _) Hrun c Hc). simpl in *. lia.
  - simpl. f_equal. apply Hout; [|done].
    intros g p idx [HgR Hgy] Hp [Hin Hsum]%elem_of_partition.
    apply elem_of_seqZ in Hp.
    apply (fill_grad_hermite_outcome R y cs idx); [|done..].
    split; [lia..|done|lia].
Qed.

Lemma grad_hermite_multidimensional_numba_reads_past_SQRT_witness :
  (grad_hermite_multidimensional_numba
     {| shape := [1001]; background := 0%R; data := {[ [0] := 1%R ]} |}
     {| nrows := 1; ncols := 1; coeff := λ _ _, 1%R |}
     (CutoffInt 1001) [0%R] 1%R []).1 = Err (OutOfBounds Of_SQRT).
Proof.
  apply (grad_hermite_multidimensional_numba_reads_past_SQRT
           {| shape := [1001]; background := 0%R; data := {[ [0] := 1%R ]} |}
           {| nrows := 1; ncols := 1; coeff := λ _ _, 1%R |}
           (CutoffInt 1001) [0%R] 1%R []).
  - reflexivity.
  - reflexivity.
  - reflexivity.
  - reflexivity.
  - repeat constructor; lia.
  - repeat constructor; lia.
  - constructor.
Defined.

(** C4, as amended.  For a value tensor returned for the constant [C], the
    [dC] tensor of the gradient driver holds, at the all-zero multi-index,
    [array[0,…,0] / C], that is [C / C] (one for a finite non-zero [C]),
    not [1 / C]. *)
Theorem grad_dC_origin {K} `{Scalar K}
    (array : ndarray K) (R : matrix K) (cutoff : cutoff_arg) (y : list K)
    (C : K) (cache0 cache : lru) :
  let cs := cutoff_tuple cutoff (length y) in
  ncols R = nrows R → length cs = nrows R → cache_ok cache0 →
  (hermite_multidimensional_numba R cutoff y C cache0).1 = Ok array →
  cache_ok cache →
  ∃ dG_dC dG_dR dG_dy,
    (grad_hermite_multidimensional_numba array R cutoff y C cache).1 =
      Ok (dG_dC, dG_dR, dG_dy) ∧
    getitem dG_dC (replicate (length y) 0) = Ok (Kdiv C C).
Proof.
  intros cs Hsq Hlen Hok0 Hrun Hok.
  destruct (hermite_numba_Ok_good R cutoff y C cache0 array Hsq Hlen Hok0 Hrun)
    as (Hready & Hsh & HC & _). fold cs in Hready, Hsh, HC.
  destruct (grad_hermite_numba_run array R cutoff y C cache Hready Hsh Hok)
    as (dR & dy & Hg & _).
  exists (array_div array C), dR, dy. split; [done|].
  pose proof (inputs_origin R y cs Hready) as Horigin.
  destruct Hready as [_ _ Hy _]. rewrite Hy.
  rewrite getitem_in_shape by (simpl; by rewrite Hsh).
  by rewrite elem_array_div, HC.
Qed.

Lemma grad_dC_origin_witness :
  ∃ dG_dC dG_dR dG_dy,
    (grad_hermite_multidimensional_numba symbolic_tensor (symbolic_R 2)
       (CutoffInt 2) (symbolic_y 2) TC []).1 = Ok (dG_dC, dG_dR, dG_dy) ∧
    getitem dG_dC [0; 0] = Ok (TDiv TC TC).
Proof.
  refine (grad_dC_origin symbolic_tensor
            (symbolic_R 2) (CutoffInt 2) (symbolic_y 2) TC [] [] _ _ _ _ _).
  - reflexivity.
  - reflexivity.
  - constructor.
  - vm_compute. reflexivity.
  - constructor.
Defined.

(** C4 as stated fails on the regression input with [C = 2]: the entry of
    [dC] at [(0, 0)] is [2 / 2], not [1 / 2]. *)
Lemma grad_dC_origin_not_reciprocal :
  ¬ ∀ array dG_dC dG_dR dG_dy,
      (hermite_multidimensional_numba regression_R (CutoffInt 4)
         regression_y 2%R []).1 = Ok array →
      (grad_hermite_multidimensional_numba array regression_R (CutoffInt 4)
         regression_y 2%R []).1 = Ok (dG_dC, dG_dR, dG_dy) →
      getitem dG_dC [0; 0] = Ok (1 / 2)%R.
Proof.
  intros Hclaim.
  assert (inputs_ready regression_R regression_y [4; 4]) as Hready.
  { split; [reflexivity..|]. repeat constructor; lia. }
  assert (allocates (K:=R) [4; 4]) as Halloc by allocated.
  destruct (hermite_numba_run regression_R (CutoffInt 4) regression_y 2%R []
              Hready Halloc ltac:(constructor))
    as (array & Hrun & _ & Hsh & HC & _).
  destruct (grad_hermite_numba_run array regression_R (CutoffInt 4)
              regression_y 2%R [] Hready Hsh ltac:(constructor))
    as (dR & dy & Hg & _).
  specialize (Hclaim _ _ _ _ Hrun Hg).
  rewrite getitem_in_shape in Hclaim
    by (simpl; rewrite Hsh; repeat constructor; lia).
  rewrite elem_array_div in Hclaim. simpl in HC. rewrite HC in Hclaim.
  simpl in Hclaim. injection Hclaim as Hclaim. lra.
Qed.

(** ** Shape mismatch *)

(** C5.  When the length of [y] differs from the dimension [n] of [R],
    both drivers raise the incompatible-dimensions [ValueError]: the result
    is that exception whatever the cutoff, the constant and the value
    tensor are (also for a cutoff [np.zeros] would reject), and the store
    comes back untouched, so nothing was allocated, enumerated or written.
    When the lengths agree neither driver raises it.  A result is a tensor
    or an exception, never both. *)
Theorem shape_mismatch_reported {K} `{Scalar K}
    (array : ndarray K) (R : matrix K) (cutoff : cutoff_arg) (y : list K)
    (C : K) (cache : lru) :
  (length y ≠ nrows R →
     hermite_multidimensional_numba R cutoff y C cache =
       (Err (IncompatibleDimensionsOf (nrows R, ncols R) (length y)), cache) ∧
     grad_hermite_multidimensional_numba array R cutoff y C cache =
       (Err (IncompatibleDimensionsOf (nrows R, ncols R) (length y)), cache)) ∧
  (length y = nrows R → ∀ rshape yshape,
     (hermite_multidimensional_numba R cutoff y C cache).1 ≠
       Err (IncompatibleDimensionsOf rshape yshape) ∧
     (grad_hermite_multidimensional_numba array R cutoff y C cache).1 ≠
       Err (IncompatibleDimensionsOf rshape yshape)).
Proof.
  split.
  - intros Hy.
    unfold hermite_multidimensional_numba, grad_hermite_multidimensional_numba.
    by rewrite !decide_True by done.
  - intros Hy rshape yshape. split.
    + intros Herr. apply (raises_hermite_numba R cutoff y C cache Hy) in Herr.
      unfold step_failure in Herr.
      repeat (destruct Herr as [Herr|Herr]); try discriminate.
      by destruct Herr.
    + intros Herr.
      apply (raises_grad_hermite_numba array R cutoff y C cache Hy) in Herr.
      unfold step_failure in Herr.
      repeat (destruct Herr as [Herr|Herr]); try discriminate.
      by destruct Herr.
Qed.

Lemma shape_mismatch_reported_witness :
  hermite_multidimensional_numba regression_R (CutoffSeq [-1; 4])
    [1%R; 2%R; 3%R] 1%R [] =
    (Err (IncompatibleDimensionsOf (2%nat, 2%nat) 3), []) ∧
  (hermite_multidimensional_numba regression_R (CutoffSeq [-1; 4])
     regression_y 1%R []).1 ≠ Err (IncompatibleDimensionsOf (2%nat, 2%nat) 3).
Proof.
  split.
  - apply (proj1 (shape_mismatch_reported
                    {| shape := []; background := 0%R; data := ∅ |}
                    regression_R (CutoffSeq [-1; 4]) [1%R; 2%R; 3%R] 1%R [])).
    simpl. lia.
  - apply (proj2 (shape_mismatch_reported
                    {| shape := []; background := 0%R; data := ∅ |}
                    regression_R (CutoffSeq [-1; 4]) regression_y 1%R [])).
    reflexivity.
Defined.

(** ** The table of square roots *)

(** C6.  When every cutoff is at most 1000, a step of the value or of
    the gradient sweep at a multi-index [idx] enumerated at a photon
    number of at least one subscripts [SQRT] inside the table only: the
    divisor subscript [idx[i]] lies in [[1, 999]], so the divisor is the
    stored square root of a positive number and never [sqrt(0)], and
    [ki[l]] lies in [[0, 999]] for each pair [(l, kl)] that [remove(ki)]
    yields.  So, whatever arrays the two loops are called on at [idx],
    neither ends in a subscript of [SQRT] outside the table nor in a
    division by zero; and on [n×n] [R], length-[n] [y] and tensors of the
    cutoff shape both return, having written the quotient of the
    recurrence by the table's [sqrt(idx[i])]. *)
Theorem sqrt_table_subscripts {K} `{Scalar K}
    (cutoff : list Z) (photons : Z) (idx : list Z) :
  Forall (λ c, c ≤ 1000) cutoff → 1 ≤ photons →
  idx ∈ partition photons cutoff →
  let i := first_positive idx in
  (∃ d ki pairs,
     idx !! i = Some d ∧ dec idx i = Ok ki ∧ remove ki = Ok pairs ∧
     0 < d ≤ 999 ∧ SQRT_getitem (K:=K) d = Ok (Ksqrt d) ∧
     Kis_zero (Ksqrt d) = false ∧
     Forall (λ p, ∃ v, ki !! p.1 = Some v ∧ 0 ≤ v ≤ 999 ∧
                       SQRT_getitem (K:=K) v = Ok (Ksqrt v)) pairs) ∧
  (∀ (R : matrix K) (y : list K) (array dG_dR dG_dy : ndarray K) e,
     fill_hermite_multidimensional_numba_loop array idx R y = Err e ∨
     fill_grad_hermite_multidimensional_numba_loop
       dG_dR dG_dy array idx R y = Err e →
     e ≠ OutOfBounds Of_SQRT ∧ e ≠ ZeroDivisionError) ∧
  (∀ (R : matrix K) (y : list K) (array dG_dR dG_dy : ndarray K),
     nrows R = length cutoff → ncols R = length cutoff →
     length y = length cutoff →
     shape array = cutoff → shape dG_dR = cutoff → shape dG_dy = cutoff →
     fill_hermite_multidimensional_numba_loop array idx R y =
       Ok (update array idx (hermite_recurrence R y (elem array) idx i)) ∧
     fill_grad_hermite_multidimensional_numba_loop
       dG_dR dG_dy array idx R y =
       Ok (update dG_dR idx
             (grad_R_recurrence R y (elem array) (elem dG_dR) idx i),
           update dG_dy idx
             (grad_y_recurrence R y (elem array) (elem dG_dy) idx i))).
Proof.
  intros Hcut Hp Hidx i. split_and!.
  - pose proof (listed_ready (K:=K) cutoff photons idx Hcut Hp Hidx)
      as Hready.
    destruct (step_divisor _ _ _ _ Hready) as (d & Hd & Hdr).
    eexists d, (decrement idx (first_positive idx)), _.
    split_and!.
    + done.
    + exact (step_dec _ _ _ _ Hready).
    + apply remove_spec.
    + lia.
    + lia.
    + apply SQRT_getitem_in_range. lia.
    + apply Ksqrt_positive. lia.
    + apply Forall_fmap, Forall_forall. intros l Hl. simpl.
      destruct (step_pair _ _ _ _ Hready l Hl) as (Hkl & Hr & _).
      eexists. split; [done|]. split; [lia|].
      apply SQRT_getitem_in_range. lia.
  - intros R y array dG_dR dG_dy e [He|He].
    + by apply (safe_fill_hermite cutoff photons idx Hcut Hp Hidx array R y).
    + by apply (safe_fill_grad_hermite cutoff photons idx Hcut Hp Hidx
                  dG_dR dG_dy array R y).
  - intros R y array dG_dR dG_dy Hrows Hcols Hy Hsh HshR Hshy.
    apply elem_of_partition in Hidx as [Hin Hsum].
    assert (step_ready R y cutoff idx) as Hready by (split; try done; lia).
    split.
    + by apply (fill_hermite_step R y cutoff idx Hready).
    + by apply (fill_grad_hermite_step R y cutoff idx Hready).
Qed.

Lemma sqrt_table_subscripts_witness :
  let Z0 := {| shape := [1000; 3]; background := TZero; data := ∅ |} in
  (∃ d ki pairs,
     [999; 2] !! first_positive [999; 2] = Some d ∧
     dec [999; 2] (first_positive [999; 2]) = Ok ki ∧
     remove ki = Ok pairs ∧
     0 < d ≤ 999 ∧ SQRT_getitem (K:=term) d = Ok (TSqrt d) ∧
     term_is_zero (TSqrt d) = false ∧
     Forall (λ p, ∃ v, ki !! p.1 = Some v ∧ 0 ≤ v ≤ 999 ∧
                       SQRT_getitem (K:=term) v = Ok (TSqrt v)) pairs) ∧
  fill_hermite_multidimensional_numba_loop Z0 [999; 2]
    (symbolic_R 2) (symbolic_y 2) =
    Ok (update Z0 [999; 2]
          (hermite_recurrence (symbolic_R 2) (symbolic_y 2) (elem Z0)
             [999; 2] (first_positive [999; 2]))).
Proof.
  intros Z0.
  assert (Forall (λ c, c ≤ 1000) [1000; 3]) as Hcut
    by (repeat constructor; lia).
  assert ([999; 2] ∈ partition 1001 [1000; 3]) as Hidx.
  { apply elem_of_partition. split; [|reflexivity].
    repeat constructor; lia. }
  destruct (sqrt_table_subscripts (K:=term) [1000; 3] 1001 [999; 2]
              Hcut ltac:(lia) Hidx) as (Hsub & _ & Hret).
  split; [exact Hsub|].
  exact (proj1 (Hret (symbolic_R 2) (symbolic_y 2) Z0 Z0 Z0
                  eq_refl eq_refl eq_refl eq_refl eq_refl eq_refl)).
Defined.

(** ** Determinism *)

Lemma hermite_numba_any_store {K} `{Scalar K}
    (R : matrix K) (cutoff : cutoff_arg) (y : list K) (C : K) (cache : lru) :
  cache_ok cache →
  (hermite_multidimensional_numba R cutoff y C cache).1 =
    (hermite_multidimensional_numba R cutoff y C []).1 ∧
  cache_ok (hermite_multidimensional_numba R cutoff y C cache).2.
Proof.
  intros Hok. unfold hermite_multidimensional_numba.
  case_decide; [done|].
  destruct (np_zeros _ ≫= _) as [A0|e]; [|done].
  match goal with |- context [sweep ?b ?cs ?ls A0 cache] =>
    destruct (sweep_cached b cs ls A0 cache Hok) as [-> Hok'];
    destruct (sweep_cached b cs ls A0 [] ltac:(constructor)) as [-> _]
  end.
  done.
Qed.

(** C8.  Two calls of [hermite_multidimensional_numba] with identical
    [R], [y], [cutoff], [C] return identical results: the second call,
    started on the store of memoised index lists the first one left, returns
    what the first returned, and so does a call on any other store that
    holds answers of [partition]; the table of square roots is a constant.
    The store stays one that holds answers of [partition]. *)
Theorem hermite_multidimensional_numba_deterministic {K} `{Scalar K}
    (R : matrix K) (cutoff : cutoff_arg) (y : list K) (C : K) (cache : lru) :
  cache_ok cache →
  let first := hermite_multidimensional_numba R cutoff y C cache in
  let second := hermite_multidimensional_numba R cutoff y C first.2 in
  second.1 = first.1 ∧ cache_ok first.2 ∧ cache_ok second.2 ∧
  ∀ cache', cache_ok cache' →
    (hermite_multidimensional_numba R cutoff y C cache').1 = first.1.
Proof.
  intros Hok first second.
  destruct (hermite_numba_any_store R cutoff y C cache Hok) as [H1 Hok1].
  destruct (hermite_numba_any_store R cutoff y C first.2 Hok1) as [H2 Hok2].
  split_and!; [|done|done|].
  - subst first second. by rewrite H2, H1.
  - intros cache' Hok'. subst first. rewrite H1.
    by apply hermite_numba_any_store.
Qed.

Lemma hermite_multidimensional_numba_deterministic_witness :
  let first :=
    hermite_multidimensional_numba (symbolic_R 2) (CutoffInt 2)
      (symbolic_y 2) TC [] in
  let second :=
    hermite_multidimensional_numba (symbolic_R 2) (CutoffInt 2)
      (symbolic_y 2) TC first.2 in
  second.1 = first.1 ∧ first.1 = Ok symbolic_tensor ∧ first.2 ≠ [].
Proof.
  intros first second.
  destruct (hermite_multidimensional_numba_deterministic
              (symbolic_R 2) (CutoffInt 2) (symbolic_y 2) TC []
              ltac:(constructor)) as (Hsame & _).
  split_and!.
  - exact Hsame.
  - vm_compute. reflexivity.
  - vm_compute. discriminate.
Defined.

(** ** The constant is not validated *)

(** C10.  Once the shape check passes, the gradient driver never looks at
    [C] except to divide by it: whether it raises, what it raises and the
    tensors [dG_dR], [dG_dy] are the same for [C] as for zero, and on
    success [dG_dC] is [array / C] with every element [array[k] / C], for
    [C = 0] the unguarded quotient [array[k] / 0].  So a zero [C] is not
    reported; keeping [C ≠ 0] is left to the caller. *)
Theorem grad_constant_not_validated {K} `{Scalar K}
    (array : ndarray K) (R : matrix K) (cutoff : cutoff_arg) (y : list K)
    (C : K) (cache : lru) :
  length y = nrows R →
  let run := grad_hermite_multidimensional_numba array R cutoff y C cache in
  let run0 :=
    grad_hermite_multidimensional_numba array R cutoff y Kzero cache in
  (∀ e, run.1 = Err e ↔ run0.1 = Err e) ∧
  (∀ dG_dC dG_dR dG_dy,
     run.1 = Ok (dG_dC, dG_dR, dG_dy) →
     dG_dC = array_div array C ∧
     run0.1 = Ok (array_div array Kzero, dG_dR, dG_dy)) ∧
  (∀ k, elem (array_div array C) k = Kdiv (elem array k) C) ∧
  (∀ k, elem (array_div array Kzero) k = Kdiv (elem array k) Kzero).
Proof.
  intros Hy run run0. subst run run0.
  unfold grad_hermite_multidimensional_numba.
  rewrite !decide_False by lia.
  match goal with |- context [sweep ?b ?cs ?ls ?g cache] =>
    destruct (sweep b cs ls g cache) as [[[dR dy]|e] cache']
  end; simpl.
  - split_and!; [done| |apply elem_array_div..].
    intros dG_dC dG_dR dG_dy [= <- <- <-]. done.
  - split_and!; [done|done|apply elem_array_div..].
Qed.

Lemma grad_constant_not_validated_witness :
  ∃ dG_dR dG_dy,
    (grad_hermite_multidimensional_numba symbolic_tensor (symbolic_R 2)
       (CutoffInt 2) (symbolic_y 2) TZero []).1 =
      Ok (array_div symbolic_tensor TZero, dG_dR, dG_dy) ∧
    elem (array_div symbolic_tensor TZero) [0; 0] = TDiv TC TZero.
Proof.
  destruct (grad_constant_not_validated symbolic_tensor (symbolic_R 2)
              (CutoffInt 2) (symbolic_y 2) TC [] eq_refl)
    as (_ & Hrun & _ & Hzero).
  destruct (grad_hermite_multidimensional_numba symbolic_tensor (symbolic_R 2)
              (CutoffInt 2) (symbolic_y 2) TC []).1
    as [[[dG_dC dG_dR] dG_dy]|e] eqn:Hg; [|vm_compute in Hg; discriminate].
  destruct (Hrun _ _ _ eq_refl) as [_ Hrun0].
  exists dG_dR, dG_dy. split; [exact Hrun0|].
  rewrite Hzero. vm_compute. reflexivity.
Defined.

(** * The front end [hermite_multidimensional] *)

(** The value the front end returns: the flat sequence of the kernel, or
    that sequence reshaped. *)
Inductive values (K : Type) : Type :=
| Flat (v : list K)
| Tensor (sh : list Z) (v : list K).
Arguments Flat {K} v.
Arguments Tensor {K} sh v.

(** The operations [hermite_multidimensional] calls and this file does
    not define.  [tol] is the type of [rtol] and [atol]. *)
Class Collaborators (K tol : Type) : Type := {
  rtol_default : tol;                                   (* 1e-05 *)
  atol_default : tol;                                   (* 1e-08 *)
  input_validation : matrix K → tol → tol → result unit;
      (* input_validation(R, rtol=..., atol=...) *)
  matmul : matrix K → list K → result (list K);         (* R @ y *)
  is_float : matrix K → list K → bool;
      (* np.real_if_close(R).dtype == np.float and
         np.real_if_close(y).dtype == np.float *)
  real_if_close_matrix : matrix K → matrix K;
  real_if_close_vector : list K → list K;
  complex128_matrix : matrix K → matrix K;
  complex128_vector : list K → list K;
  hm : matrix K → list K → Z → list K;
  hmr : matrix K → list K → Z → list K;
  rhm : matrix K → list K → Z → list K;
  rhmr : matrix K → list K → Z → list K;
  np_reshape : list K → list Z → result (values K)
}.

(** The interpreter's bound on nested calls. *)
Definition recursion_limit : nat := 1000.

Section FrontEnd.
Context {K tol : Type} `{Scalar K} `{Collaborators K tol}.

Fixpoint hermite_multidimensional_depth (fuel : nat)
    (R : matrix K) (cutoff : Z) (y : option (list K))
    (renorm make_tensor modified : bool) (rtol atol : tol)
  : result (values K) :=
  match fuel with
  | O => Err RecursionError
  | S fuel' =>
      _ ← input_validation R rtol atol;
      let n := nrows R in
      let recurse :=
        match modified, y with
        | false, Some y0 =>
            if decide (length y0 = n) then Some y0 else None
        | _, _ => None
        end in
      match recurse with
      | Some y0 =>
          ym ← matmul R y0;
          hermite_multidimensional_depth fuel'
            R cutoff (Some ym) renorm make_tensor true
            rtol_default atol_default
      | None =>
          let y := match y with
                   | None => replicate n Kzero
                   | Some y0 => y0
                   end in
          let m := length y in
          if decide (m ≠ n) then Err IncompatibleDimensions
          else
            let Rt := real_if_close_matrix R in
            let yt := real_if_close_vector y in
            let values :=
              if is_float R y
              then if renorm then rhmr Rt yt cutoff else hmr Rt yt cutoff
              else if renorm
                   then rhm (complex128_matrix R) (complex128_vector y)
                            cutoff
                   else hm (complex128_matrix R) (complex128_vector y)
                           cutoff in
            if make_tensor
            then np_reshape values (replicate n cutoff)
            else Ok (Flat values)
      end
  end.

Definition hermite_multidimensional
    (R : matrix K) (cutoff : Z) (y : option (list K))
    (renorm make_tensor modified : bool) (rtol atol : tol)
  : result (values K) :=
  hermite_multidimensional_depth recursion_limit
    R cutoff y renorm make_tensor modified rtol atol.

(** With [modified=True] the function does not call itself. *)
Lemma hermite_multidimensional_modified_depth (fuel fuel' : nat)
    R cutoff y renorm make_tensor rtol atol :
  hermite_multidimensional_depth (S fuel)
    R cutoff y renorm make_tensor true rtol atol =
  hermite_multidimensional_depth (S fuel')
    R cutoff y renorm make_tensor true rtol atol.
Proof. reflexivity. Qed.

(** Two nested calls are all the function ever needs. *)
Lemma hermite_multidimensional_depth_enough (fuel fuel' : nat)
    R cutoff y renorm make_tensor modified rtol atol :
  hermite_multidimensional_depth (S (S fuel))
    R cutoff y renorm make_tensor modified rtol atol =
  hermite_multidimensional_depth (S (S fuel'))
    R cutoff y renorm make_tensor modified rtol atol.
Proof.
  cbn [hermite_multidimensional_depth].
  destruct (input_validation R rtol atol) as [[]|e]; [|done].
  rewrite !bind_Ok.
  by destruct modified, y as [y0|].
Qed.

(** What the code does on the unmodified path: validation with the
    caller's tolerances, [ym = R @ y], then the value of the recursive
    call, which gets [R], [cutoff], [renorm], [make_tensor] and
    [modified=True], and the default tolerances. *)
Lemma hermite_multidimensional_unmodified
    R cutoff (y : list K) renorm make_tensor rtol atol :
  length y = nrows R →
  hermite_multidimensional R cutoff (Some y) renorm make_tensor false
    rtol atol =
  (_ ← input_validation R rtol atol;
   ym ← matmul R y;
   hermite_multidimensional R cutoff (Some ym) renorm make_tensor true
     rtol_default atol_default).
Proof.
  intros Hy. unfold hermite_multidimensional, recursion_limit.
  change 1000%nat with (S (S 998)).
  cbn [hermite_multidimensional_depth].
  destruct (input_validation R rtol atol) as [[]|e]; [|done].
  rewrite !bind_Ok, decide_True by done.
  destruct (matmul R y) as [ym|e]; [|done].
  rewrite !bind_Ok. reflexivity.
Qed.

(** The modified path, without renormalisation and without reshape,
    returns what the selected kernel computes. *)
Lemma hermite_multidimensional_modified_flat
    R cutoff (y : list K) rtol atol :
  length y = nrows R → input_validation R rtol atol = Ok () →
  hermite_multidimensional R cutoff (Some y) false false true rtol atol =
  Ok (Flat (if is_float R y
            then hmr (real_if_close_matrix R) (real_if_close_vector y)
                     cutoff
            else hm (complex128_matrix R) (complex128_vector y) cutoff)).
Proof.
  intros Hy Hval. unfold hermite_multidimensional, recursion_limit.
  change 1000%nat with (S 999).
  cbn [hermite_multidimensional_depth].
  rewrite Hval, bind_Ok, decide_False by lia. done.
Qed.

End FrontEnd.

(** ** The front end over the reals *)

#[local] Instance Rle_decision (a b : R) : Decision (a <= b)%R := Rle_dec a b.

(** [np.allclose(A, A.T, rtol, atol)]: every entry satisfies
    [|a − b| ≤ atol + rtol * |b|] against its mirror image. *)
Definition allclose_transpose (A : matrix R) (rtol atol : R) : bool :=
  forallb (λ i,
    forallb (λ l,
      bool_decide (Rabs (coeff A i l - coeff A l i)
                   <= atol + rtol * Rabs (coeff A l i))%R)
      (seq 0 (ncols A)))
    (seq 0 (nrows A)).

(** Modelled from the spec: [input_validation] of [_hafnian], which is not
    among the sources.  The validation rejects a matrix that is not square
    or fails the symmetry check within [rtol] and [atol]. *)
Definition input_validation_real (A : matrix R) (rtol atol : R) : result unit :=
  if decide (nrows A = ncols A)
  then if allclose_transpose A rtol atol then Ok () else Err InvalidInput
  else Err InvalidInput.

(** [R @ y] for a matrix and a vector: the dot product of every row with
    [y], accumulated from the left. *)
Definition matvec {K} `{Scalar K} (R : matrix K) (y : list K)
  : result (list K) :=
  if decide (ncols R = length y)
  then Ok ((λ i, foldl (λ acc l,
                          Kadd acc (Kmul (coeff R i l)
                                         (default Kzero (y !! l))))
                       Kzero (seq 0 (ncols R)))
           <$> seq 0 (nrows R))
  else Err MatmulMismatch.

(** [[1, 1.001], [1, 1]]: symmetric within [rtol = 0.01], not within the
    default tolerances. *)
Definition nearly_symmetric : matrix R :=
  {| nrows := 2; ncols := 2;
     coeff := λ i l,
       match i, l with
       | O, S O => (1001 / 1000)%R
       | _, _ => 1%R
       end |}.

Lemma nearly_symmetric_loose :
  input_validation_real nearly_symmetric (1 / 100) 0 = Ok ().
Proof.
  unfold input_validation_real, allclose_transpose. simpl.
  rewrite !bool_decide_eq_true_2; [done|..];
    unfold Rabs; repeat destruct Rcase_abs; lra.
Qed.

Lemma nearly_symmetric_default :
  input_validation_real nearly_symmetric (1 / 100000) (1 / 100000000) =
    Err InvalidInput.
Proof.
  unfold input_validation_real, allclose_transpose. simpl.
  rewrite (bool_decide_eq_true_2 (Rabs (1 - 1) <= _)%R)
    by (unfold Rabs; repeat destruct Rcase_abs; lra).
  rewrite (bool_decide_eq_false_2 (Rabs (1001 / 1000 - 1) <= _)%R)
    by (unfold Rabs; repeat destruct Rcase_abs; lra).
  done.
Qed.

Section ToleranceDivergence.
(** The kernels and NumPy's conversions are whatever they are. *)
Variables (is_float' : matrix R → list R → bool)
          (real_if_close_matrix' complex128_matrix' : matrix R → matrix R)
          (real_if_close_vector' complex128_vector' : list R → list R)
          (hm' hmr' rhm' rhmr' : matrix R → list R → Z → list R)
          (np_reshape' : list R → list Z → result (values R)).

#[local] Instance real_collaborators : Collaborators R R := {|
  rtol_default := (1 / 100000)%R;
  atol_default := (1 / 100000000)%R;
  input_validation := input_validation_real;
  matmul := matvec;
  is_float := is_float';
  real_if_close_matrix := real_if_close_matrix';
  real_if_close_vector := real_if_close_vector';
  complex128_matrix := complex128_matrix';
  complex128_vector := complex128_vector';
  hm := hm';
  hmr := hmr';
  rhm := rhm';
  rhmr := rhmr';
  np_reshape := np_reshape'
|}.

(** C7.  On [R = [[1, 1.001], [1, 1]]], [y = [0, 0]], [cutoff = 2],
    [modified=False], [make_tensor=False], [rtol = 0.01], [atol = 0]
    the validation passes and [ym = R @ y] is computed, but the
    recursive call is made with the default tolerances instead of the
    caller's: it raises the validation error, where the call with
    [modified=True], [y = ym] and the other parameters unchanged returns
    the kernel's values. *)
Theorem hermite_multidimensional_drops_tolerances :
  let y := [0%R; 0%R] in
  input_validation nearly_symmetric (1 / 100)%R 0%R = Ok () ∧
  hermite_multidimensional nearly_symmetric 2 (Some y) false false false
    (1 / 100)%R 0%R = Err InvalidInput ∧
  ∃ ym v,
    matmul nearly_symmetric y = Ok ym ∧
    hermite_multidimensional nearly_symmetric 2 (Some ym) false false true
      (1 / 100)%R 0%R = Ok (Flat v) ∧
    hermite_multidimensional nearly_symmetric 2 (Some y) false false false
      (1 / 100)%R 0%R =
    hermite_multidimensional nearly_symmetric 2 (Some ym) false false true
      rtol_default atol_default.
Proof.
  intros y.
  pose proof (hermite_multidimensional_unmodified nearly_symmetric 2 y
                false false (1 / 100)%R 0%R eq_refl) as Hcode.
  cbn [input_validation matmul real_collaborators] in *.
  rewrite nearly_symmetric_loose, bind_Ok in Hcode.
  destruct (matvec nearly_symmetric y) as [ym|e] eqn:Hym; [|done].
  assert (length ym = 2%nat) as Hlen.
  { unfold matvec in Hym. simpl in Hym. by simplify_eq. }
  rewrite bind_Ok in Hcode.
  split_and!; [apply nearly_symmetric_loose| |].
  - rewrite Hcode. unfold hermite_multidimensional, recursion_limit.
    change 1000%nat with (S 999). cbn [hermite_multidimensional_depth].
    cbn [input_validation rtol_default atol_default real_collaborators].
    by rewrite nearly_symmetric_default.
  - exists ym. eexists. split_and!; [done| |done].
    apply hermite_multidimensional_modified_flat; [done|].
    apply nearly_symmetric_loose.
Qed.

End ToleranceDivergence.


(** * Further properties of the code *)

(** ** The order of the sweep *)

(** The multi-index a step reads first lies one photon number below the
    one it writes, and every multi-index the generator yields lies two
    below; so a sweep by increasing photon number has computed whatever a
    step reads. *)
Theorem partition_dependencies (photons : Z) (cutoff idx : list Z) :
  1 ≤ photons → idx ∈ partition photons cutoff →
  ∃ ki pairs,
    dec idx (first_positive idx) = Ok ki ∧
    ki ∈ partition (photons - 1) cutoff ∧
    remove ki = Ok pairs ∧
    Forall (λ p, p.2 ∈ partition (photons - 2) cutoff) pairs.
Proof.
  intros Hp [Hin Hsum]%elem_of_partition.
  destruct (first_positive_spec idx) as [(v & Hv & Hvpos) _];
    [by eapply in_shape_nonneg|lia|].
  eexists (decrement idx (first_positive idx)), _.
  assert (in_shape (decrement idx (first_positive idx)) cutoff) as Hki.
  { unfold decrement. rewrite (list_lookup_total_correct _ _ _ Hv).
    eapply in_shape_insert; [done..|lia]. }
  assert (sumZ (decrement idx (first_positive idx)) = photons - 1) as Hkisum.
  { unfold decrement.
    rewrite (list_lookup_total_correct _ _ _ Hv), (sumZ_insert _ _ _ _ Hv).
    lia. }
  split_and!.
  - by eapply dec_decrement.
  - by apply elem_of_partition.
  - apply remove_spec.
  - apply Forall_fmap, Forall_forall.
    intros l (w & Hl & Hw)%elem_of_positive_positions. simpl.
    apply elem_of_partition. unfold decrement at 1 3.
    rewrite (list_lookup_total_correct _ _ _ Hl), (sumZ_insert _ _ _ _ Hl).
    split; [|lia]. eapply in_shape_insert; [done..|lia].
Qed.

Lemma partition_dependencies_witness :
  ∃ ki pairs,
    dec [0; 2; 1] (first_positive [0; 2; 1]) = Ok ki ∧
    ki ∈ partition (3 - 1) [2; 3; 2] ∧
    remove ki = Ok pairs ∧
    Forall (λ p, p.2 ∈ partition (3 - 2) [2; 3; 2]) pairs.
Proof.
  apply (partition_dependencies 3 [2; 3; 2] [0; 2; 1]).
  - lia.
  - apply elem_of_partition. split; [|reflexivity].
    repeat constructor; lia.
Defined.

Lemma for_each_bind {A B S} (f : A → list B) (xs : list A)
    (body : S → B → result S) (s : S) :
  for_each (xs ≫= f) body s =
  for_each xs (λ s x, for_each (f x) body s) s.
Proof.
  revert s. induction xs as [|x xs IH]; intros s; [done|].
  change ((x :: xs) ≫= f) with (f x ++ xs ≫= f). cbn [for_each].
  generalize (f x). intros l. revert s.
  induction l as [|b l IHl]; intros s; simpl; [apply IH|].
  destruct (body s b); [apply IHl|done].
Qed.

(** The multi-indices the sweep hands to its body, in order. *)
Definition visited (cutoff : list Z) : list (list Z) :=
  seqZ 1 (sumZ cutoff - Z.of_nat (length cutoff))
    ≫= (λ photons, partition photons cutoff).

(** The two loops of the drivers call their body on every multi-index of
    the shape other than the all-zero one, on each exactly once, by
    non-decreasing photon number, whatever the memoisation store
    holds. *)
Theorem sweep_visits_once {St} (body : St → list Z → result St)
    (cutoff : list Z) (s : St) (cache : lru) :
  cache_ok cache →
  (sweep body cutoff
     (seqZ 1 (sumZ cutoff - Z.of_nat (length cutoff))) s cache).1 =
    for_each (visited cutoff) body s ∧
  NoDup (visited cutoff) ∧
  (∀ idx, idx ∈ visited cutoff ↔ in_shape idx cutoff ∧ 1 ≤ sumZ idx) ∧
  ∀ (a b : nat) idx idx',
    visited cutoff !! a = Some idx → visited cutoff !! b = Some idx' →
    (a ≤ b)%nat → sumZ idx ≤ sumZ idx'.
Proof.
  intros Hok. split_and!.
  - destruct (sweep_cached body cutoff
                (seqZ 1 (sumZ cutoff - Z.of_nat (length cutoff))) s cache Hok)
      as [-> _].
    unfold sweep_pure, visited. by rewrite for_each_bind.
  - unfold visited. apply NoDup_bind.
    + intros p1 p2 idx _ _ [_ H1]%elem_of_partition [_ H2]%elem_of_partition.
      congruence.
    + intros p _. apply NoDup_partition.
    + apply NoDup_seqZ.
  - intros idx. unfold visited. rewrite list_elem_of_bind. split.
    + intros (p & [Hin Hsum]%elem_of_partition & Hp%elem_of_seqZ).
      split; [done|lia].
    + intros [Hin Hsum]. exists (sumZ idx). split.
      * by apply elem_of_partition.
      * apply elem_of_seqZ. pose proof (in_shape_sum_le _ _ Hin). lia.
  - unfold visited.
    generalize (sumZ cutoff - Z.of_nat (length cutoff)). intros m.
    generalize 1 at 1 2. intros lo.
    destruct (decide (0 < m)) as [Hm|Hm]; last first.
    { intros a b idx idx' Ha. replace (seqZ lo m) with (@nil Z) in Ha; [done|].
      symmetry. apply length_zero_iff_nil. rewrite length_seqZ. lia. }
    replace m with (Z.of_nat (Z.to_nat m)) by lia.
    generalize (Z.to_nat m). clear m Hm. intros m. revert lo.
    induction m as [|m IH]; intros lo a b idx idx' Ha Hb Hab; [done|].
    rewrite seqZ_cons in Ha, Hb by lia.
    replace (Z.pred (Z.of_nat (S m))) with (Z.of_nat m) in Ha, Hb by lia.
    change ((?x :: ?l) ≫= ?f) with (f x ++ l ≫= f) in Ha, Hb.
    assert (∀ c k, (seqZ (Z.succ lo) (Z.of_nat m)
                      ≫= (λ photons, partition photons cutoff)) !! c = Some k →
                   lo < sumZ k) as Hrest.
    { intros c k Hk. apply list_elem_of_lookup_2 in Hk.
      apply list_elem_of_bind in Hk
        as (p & [_ Hs]%elem_of_partition & Hp%elem_of_seqZ). lia. }
    assert (∀ c k, partition lo cutoff !! c = Some k → sumZ k = lo) as Hfirst.
    { intros c k Hk. apply list_elem_of_lookup_2 in Hk.
      by apply elem_of_partition in Hk as [_ Hs]. }
    apply lookup_app_Some in Ha as [Ha|[Hla Ha]];
      apply lookup_app_Some in Hb as [Hb|[Hlb Hb]].
    + rewrite (Hfirst _ _ Ha), (Hfirst _ _ Hb). lia.
    + rewrite (Hfirst _ _ Ha). specialize (Hrest _ _ Hb). lia.
    + apply lookup_lt_Some in Hb. lia.
    + eapply (IH (Z.succ lo)); [done..|lia].
Qed.

Lemma sweep_visits_once_witness :
  visited [2; 3] = [[0; 1]; [1; 0]; [0; 2]; [1; 1]; [1; 2]] ∧
  (sweep (λ s idx, Ok (s ++ [idx])) [2; 3]
     (seqZ 1 (sumZ [2; 3] - Z.of_nat (length [2; 3]))) [] []).1 =
    Ok (visited [2; 3]).
Proof.
  split; [reflexivity|].
  rewrite (proj1 (sweep_visits_once (λ s idx, Ok (s ++ [idx])) [2; 3] [] []
                    ltac:(constructor))).
  reflexivity.
Defined.


(** ** Cutoffs that leave nothing to sweep *)

Lemma resolve_origin_zero (sh : list Z) :
  Forall (λ d, 0 ≤ d) sh → 0 ∈ sh →
  resolve sh (replicate (length sh) 0) = None.
Proof.
  induction 1 as [|d sh Hd Hsh IH]; intros Hz; [by apply elem_of_nil in Hz|].
  simpl. unfold norm_index at 1. destruct (decide (0 ≤ 0 < d)) as [Hpos|Hneg].
  - simpl. apply elem_of_cons in Hz as [Hz|Hz]; [lia|]. by rewrite IH.
  - rewrite decide_False by lia. done.
Qed.

(** A cutoff with a negative entry is refused by [np.zeros]; one without
    negative entries but with a zero, whose (empty) tensor [np.zeros]
    allocates, is refused by the assignment at the all-zero index.  Both
    happen before any multi-index is enumerated: the store comes back as
    it was. *)
Theorem hermite_numba_degenerate_cutoff {K} `{Scalar K}
    (R : matrix K) (cutoff : cutoff_arg) (y : list K) (C : K) (cache : lru) :
  let cs := cutoff_tuple cutoff (length y) in
  length y = nrows R → length cs = length y →
  (Exists (λ c, c < 0) cs →
   hermite_multidimensional_numba R cutoff y C cache =
     (Err InvalidShape, cache)) ∧
  (Forall (λ c, 0 ≤ c) cs → 0 ∈ cs → allocates (K:=K) cs →
   hermite_multidimensional_numba R cutoff y C cache =
     (Err IndexError, cache)).
Proof.
  intros cs Hy Hlen. unfold hermite_multidimensional_numba. fold cs.
  rewrite decide_False by lia. split.
  - intros Hneg. unfold np_zeros. rewrite decide_False; [done|].
    intros (_ & Hnn & _). apply Exists_exists in Hneg as (c & Hc & Hlt).
    pose proof (proj1 (Forall_forall _ _) Hnn c Hc). simpl in *. lia.
  - intros Hnn Hz Halloc. rewrite np_zeros_allocates by done.
    rewrite bind_Ok. unfold setitem. cbn [shape].
    rewrite length_replicate, <- Hlen, firstn_all.
    by rewrite resolve_origin_zero.
Qed.

Lemma hermite_numba_degenerate_cutoff_witness :
  hermite_multidimensional_numba regression_R (CutoffSeq [3; -2])
    regression_y 1%R [] = (Err InvalidShape, []) ∧
  hermite_multidimensional_numba regression_R (CutoffInt 0)
    regression_y 1%R [] = (Err IndexError, []).
Proof.
  split.
  - apply (hermite_numba_degenerate_cutoff regression_R (CutoffSeq [3; -2])
             regression_y 1%R []); [reflexivity..|].
    apply Exists_cons_tl, Exists_cons_hd. lia.
  - apply (hermite_numba_degenerate_cutoff regression_R (CutoffInt 0)
             regression_y 1%R []); [reflexivity..| | |].
    + repeat constructor; lia.
    + simpl. left.
    + unfold allocates, NPY_MAXDIMS, NPY_MAX_INTP. simpl cutoff_tuple.
      rewrite !filter_cons_False, filter_nil by lia. cbn. lia.
Defined.

Lemma sumZ_replicate_one (n : nat) : sumZ (replicate n 1) = Z.of_nat n.
Proof.
  induction n as [|n IH]; [done|].
  change (sumZ (replicate (S n) 1)) with (1 + sumZ (replicate n 1)). lia.
Qed.

(** With every cutoff equal to one there is no photon number to sweep:
    when [np.zeros] allocates the one-element tensor (at most 32 modes),
    it holds [C] at its single entry, and [partition] is never called.
    This includes the case of no modes at all. *)
Theorem hermite_numba_cutoff_one {K} `{Scalar K}
    (R : matrix K) (y : list K) (C : K) (cache : lru) :
  length y = nrows R → allocates (K:=K) (replicate (length y) 1) →
  hermite_multidimensional_numba R (CutoffInt 1) y C cache =
    (Ok {| shape := replicate (length y) 1;
           background := Kzero;
           data := {[ replicate (length y) 0 := C ]} |}, cache).
Proof.
  intros Hy Halloc. unfold hermite_multidimensional_numba.
  cbn [cutoff_tuple]. rewrite decide_False by lia.
  rewrite np_zeros_allocates by first [done|apply Forall_replicate; lia].
  rewrite bind_Ok, setitem_in_shape; last first.
  { simpl. apply in_shape_replicate; [by rewrite length_replicate|].
    apply Forall_replicate. lia. }
  replace (sumZ (replicate (length y) 1) - Z.of_nat (length y)) with 0.
  - unfold update. simpl. by rewrite insert_empty.
  - rewrite sumZ_replicate_one. lia.
Qed.

Lemma hermite_numba_cutoff_one_witness :
  hermite_multidimensional_numba regression_R (CutoffInt 1) regression_y
    7%R [] =
    (Ok {| shape := [1; 1]; background := 0%R; data := {[ [0; 0] := 7%R ]} |},
     []).
Proof.
  assert (allocates (K:=R) (replicate (length regression_y) 1)) as Halloc
    by allocated.
  exact (hermite_numba_cutoff_one regression_R regression_y 7%R [] eq_refl
           Halloc).
Defined.

(** ** What a step writes *)

Lemma resolve_length (sh idx k : list Z) :
  resolve sh idx = Some k → length idx = length sh.
Proof.
  revert idx k. induction sh as [|d sh IH]; intros [|x idx] k Hr;
    simplify_eq/=; [done|].
  destruct (norm_index d x); simplify_eq/=.
  destruct (resolve sh idx) eqn:Hr'; simplify_eq/=. f_equal. eauto.
Qed.

Lemma dec_length (tup ki : list Z) (i : nat) :
  dec tup i = Ok ki → length ki = length tup.
Proof.
  unfold dec. intros (v & _ & [= <-])%bind_Ok_inv. apply length_insert.
Qed.

Section Frame.
Context {K : Type} `{Scalar K}.

Lemma getitem_Ok_length (A : ndarray K) idx v :
  getitem A idx = Ok v → length idx = length (shape A).
Proof.
  unfold getitem. case_decide; [done|].
  intros (k & Hk%of_option_Ok_inv & _)%bind_Ok_inv.
  by eapply resolve_length.
Qed.

Lemma setitem_full (A A' : ndarray K) idx v :
  length idx = length (shape A) → setitem A idx v = Ok A' →
  ∃ k, resolve (shape A) idx = Some k ∧ A' = update A k v.
Proof.
  intros Hlen. unfold setitem. rewrite Hlen, firstn_all, drop_all.
  intros (k & Hk%of_option_Ok_inv & [= <-])%bind_Ok_inv.
  exists k. split; [done|]. unfold update. simpl. by rewrite app_nil_r.
Qed.

(** A value step that returns has written one element, the one its
    multi-index resolves to: the shape and every other element are as
    before. *)
Theorem fill_hermite_frame (A A' : ndarray K) idx R y :
  fill_hermite_multidimensional_numba_loop A idx R y = Ok A' →
  shape A' = shape A ∧
  ∃ k, resolve (shape A) idx = Some k ∧
       getitem A' idx = Ok (elem A' k) ∧
       ∀ j, j ≠ k → elem A' j = elem A j.
Proof.
  unfold fill_hermite_multidimensional_numba_loop. cbv zeta. intros Hrun.
  apply bind_Ok_inv in Hrun as (ki & Hki & Hrun).
  apply bind_Ok_inv in Hrun as (yi & _ & Hrun).
  apply bind_Ok_inv in Hrun as (a & Ha & Hrun).
  apply bind_Ok_inv in Hrun as (pairs & _ & Hrun).
  apply bind_Ok_inv in Hrun as (u & _ & Hrun).
  apply bind_Ok_inv in Hrun as (d & _ & Hrun).
  apply bind_Ok_inv in Hrun as (s & _ & Hrun).
  apply bind_Ok_inv in Hrun as (q & _ & Hrun).
  apply numba_getitem_Ok_inv, getitem_Ok_length in Ha.
  apply dec_length in Hki.
  apply numba_setitem_Ok_inv, setitem_full in Hrun as (k & Hk & ->);
    [|congruence].
  split; [done|]. exists k. split_and!; [done| |].
  - unfold getitem. simpl. rewrite decide_False by lia.
    by rewrite Hk.
  - intros j Hj. by apply elem_update_ne.
Qed.

(** A gradient step that returns has written one element of each
    gradient tensor, at the same multi-index; the value tensor is only
    read. *)
Theorem fill_grad_hermite_frame (dG_dR dG_dy A dG_dR' dG_dy' : ndarray K)
    idx R y :
  fill_grad_hermite_multidimensional_numba_loop dG_dR dG_dy A idx R y =
    Ok (dG_dR', dG_dy') →
  shape dG_dR' = shape dG_dR ∧ shape dG_dy' = shape dG_dy ∧
  ∃ kR ky, resolve (shape dG_dR) idx = Some kR ∧
           resolve (shape dG_dy) idx = Some ky ∧
           (∀ j, j ≠ kR → elem dG_dR' j = elem dG_dR j) ∧
           (∀ j, j ≠ ky → elem dG_dy' j = elem dG_dy j).
Proof.
  unfold fill_grad_hermite_multidimensional_numba_loop. cbv zeta. intros Hrun.
  apply bind_Ok_inv in Hrun as (ki & Hki & Hrun).
  apply bind_Ok_inv in Hrun as (yi & _ & Hrun).
  apply bind_Ok_inv in Hrun as (gy & Hgy & Hrun).
  apply bind_Ok_inv in Hrun as (a & _ & Hrun).
  apply bind_Ok_inv in Hrun as (gr & Hgr & Hrun).
  apply bind_Ok_inv in Hrun as (pairs & _ & Hrun).
  apply bind_Ok_inv in Hrun as (acc & _ & Hrun).
  apply bind_Ok_inv in Hrun as (d & _ & Hrun).
  apply bind_Ok_inv in Hrun as (s & _ & Hrun).
  apply bind_Ok_inv in Hrun as (qR & _ & Hrun).
  apply bind_Ok_inv in Hrun as (gR' & HR & Hrun).
  apply bind_Ok_inv in Hrun as (s' & _ & Hrun).
  apply bind_Ok_inv in Hrun as (qy & _ & Hrun).
  apply bind_Ok_inv in Hrun as (gy' & Hy & Hrun).
  injection Hrun as <- <-.
  apply numba_getitem_Ok_inv, getitem_Ok_length in Hgy, Hgr.
  apply dec_length in Hki.
  apply numba_setitem_Ok_inv, setitem_full in HR as (kR & HkR & ->);
    [|congruence].
  apply numba_setitem_Ok_inv, setitem_full in Hy as (ky & Hky & ->);
    [|congruence].
  split_and!; [done..|]. exists kR, ky. split_and!; [done..| |].
  - intros j Hj. by apply elem_update_ne.
  - intros j Hj. by apply elem_update_ne.
Qed.

End Frame.

Lemma fill_hermite_frame_witness :
  let A := {| shape := [2; 2]; background := TZero;
              data := {[ [0; 0] := TC ]} |} in
  ∃ A', fill_hermite_multidimensional_numba_loop A [1; 0]
          (symbolic_R 2) (symbolic_y 2) = Ok A' ∧
        shape A' = [2; 2] ∧
        elem A' [0; 0] = TC ∧
        elem A' [1; 0] = TDiv (TMul (TY 0) TC) (TSqrt 1).
Proof.
  intros A.
  destruct (fill_hermite_multidimensional_numba_loop A [1; 0]
              (symbolic_R 2) (symbolic_y 2)) as [A'|e] eqn:Hrun;
    [|vm_compute in Hrun; discriminate].
  exists A'. split; [done|].
  destruct (fill_hermite_frame A A' [1; 0] (symbolic_R 2) (symbolic_y 2) Hrun)
    as (Hsh & k & Hk & _ & Hframe).
  vm_compute in Hk. injection Hk as <-.
  split_and!; [done|by rewrite Hframe| ].
  vm_compute in Hrun. injection Hrun as <-. vm_compute. reflexivity.
Defined.

Lemma fill_grad_hermite_frame_witness :
  let Z0 := {| shape := [2; 2]; background := TZero; data := ∅ |} in
  ∃ dG_dR' dG_dy',
    fill_grad_hermite_multidimensional_numba_loop Z0 Z0 symbolic_tensor
      [0; 1] (symbolic_R 2) (symbolic_y 2) = Ok (dG_dR', dG_dy') ∧
    elem dG_dR' [1; 0] = TZero ∧ elem dG_dy' [1; 0] = TZero.
Proof.
  intros Z0.
  destruct (fill_grad_hermite_multidimensional_numba_loop Z0 Z0
              symbolic_tensor [0; 1] (symbolic_R 2) (symbolic_y 2))
    as [[dR' dy']|e] eqn:Hrun; [|vm_compute in Hrun; discriminate].
  exists dR', dy'. split; [done|].
  destruct (fill_grad_hermite_frame Z0 Z0 symbolic_tensor dR' dy' [0; 1]
              (symbolic_R 2) (symbolic_y 2) Hrun)
    as (_ & _ & kR & ky & HkR & Hky & HR & Hy).
  vm_compute in HkR, Hky. injection HkR as <-. injection Hky as <-.
  by rewrite HR, Hy.
Defined.


(** ** The value tensor over the reals *)

Lemma in_shape_sum_zero (idx cs : list Z) :
  in_shape idx cs → sumZ idx = 0 → idx = replicate (length cs) 0.
Proof.
  induction 1 as [|x d idx cs Hx Hin IH]; [done|].
  pose proof (sumZ_nonneg idx (in_shape_nonneg _ _ Hin)).
  change (sumZ (x :: idx)) with (x + sumZ idx). intros Hs.
  simpl. rewrite <- IH by lia. f_equal. lia.
Qed.

(** Induction on the photon number of a multi-index of the shape. *)
Lemma photon_induction (cs : list Z) (P : list Z → Prop) :
  (∀ idx, in_shape idx cs →
     (∀ k, in_shape k cs → sumZ k < sumZ idx → P k) → P idx) →
  ∀ idx, in_shape idx cs → P idx.
Proof.
  intros Hstep.
  assert (∀ (n : nat) idx, in_shape idx cs → sumZ idx < Z.of_nat n → P idx)
    as Hall.
  { induction n as [|n IH]; intros idx Hin Hlt.
    - pose proof (sumZ_nonneg idx (in_shape_nonneg _ _ Hin)). lia.
    - apply Hstep; [done|]. intros k Hk Hlt'. apply IH; [done|lia]. }
  intros idx Hin. apply (Hall (S (Z.to_nat (sumZ idx)))); [done|lia].
Qed.

Section RealTensor.
#[local] Existing Instance K_inhabited.

Variables (M : matrix R) (y : list R) (cs : list Z).
Hypothesis ready : inputs_ready M y cs.

(** The value tensor is linear in the constant. *)
Lemma value_good_scale (C : R) (arrC arr1 : ndarray R) :
  value_good M y cs C (λ _, True) arrC →
  value_good M y cs 1%R (λ _, True) arr1 →
  ∀ idx, in_shape idx cs → elem arrC idx = (C * elem arr1 idx)%R.
Proof.
  intros (_ & HC0 & HC) (_ & H10 & H1).
  apply photon_induction. intros idx Hin IH.
  destruct (decide (sumZ idx = 0)) as [Hz|Hnz].
  { rewrite (in_shape_sum_zero _ _ Hin Hz), HC0, H10. lra. }
  pose proof (sumZ_nonneg idx (in_shape_nonneg _ _ Hin)) as Hnn.
  assert (1 ≤ sumZ idx) as Hsum by lia.
  pose proof (inputs_step_ready M y cs ready idx Hin Hsum) as Hstep.
  rewrite (HC idx I Hin Hsum), (H1 idx I Hin Hsum).
  unfold hermite_recurrence. cbv zeta.
  pose proof (step_ki_in_shape M y cs idx Hstep) as Hki.
  pose proof (step_ki_sum M y cs idx Hstep) as Hkisum.
  pose proof (step_pair M y cs idx Hstep) as Hpair.
  cbv zeta in Hki, Hkisum, Hpair.
  set (ki := decrement idx (first_positive idx)) in *.
  rewrite (IH ki Hki) by lia.
  assert (∀ ls u v,
            (∀ l, l ∈ ls → l ∈ positive_positions ki) → u = (C * v)%R →
            foldl (λ u l, Ksub u (Kmul (Kmul (Ksqrt (ki !!! l))
                                             (coeff M (first_positive idx) l))
                                       (elem arrC (decrement ki l)))) u ls =
            (C * foldl (λ u l, Ksub u (Kmul (Kmul (Ksqrt (ki !!! l))
                                             (coeff M (first_positive idx) l))
                                       (elem arr1 (decrement ki l)))) v ls)%R)
    as Hfold.
  { induction ls as [|l ls IHls]; intros u v Hls ->; [done|].
    cbn [foldl]. apply IHls; [intros l' Hl'; apply Hls; by right|].
    destruct (Hpair l (Hls l ltac:(left))) as (_ & _ & _ & Hkl & Hklsum).
    rewrite (IH _ Hkl) by lia. cbn. ring. }
  rewrite (Hfold _ _ (Kmul (y !!! first_positive idx) (elem arr1 ki)));
    [|done|cbn; ring].
  cbn. unfold Rdiv. ring.
Qed.

(** With a zero matrix nothing is subtracted. *)
Lemma zero_matrix_recurrence (value : list Z → R) idx i :
  (∀ a b, coeff M a b = 0%R) →
  hermite_recurrence M y value idx i =
    (y !!! i * value (decrement idx i) / sqrt (IZR (idx !!! i)))%R.
Proof.
  intros Hzero. unfold hermite_recurrence. cbv zeta. cbn.
  f_equal. generalize (y !!! i * value (decrement idx i))%R. intros u.
  induction (positive_positions (decrement idx i)) as [|l ls IHls];
    [done|].
  cbn [foldl]. rewrite Hzero.
  replace (u - sqrt (IZR (decrement idx i !!! l)) * 0 *
               value (decrement (decrement idx i) l))%R with u by ring.
  apply IHls.
Qed.

End RealTensor.

(** [Π_j y_j^{k_j} / sqrt(k_j!)] *)
Definition monomial (y : list R) (k : list Z) : R :=
  foldr Rmult 1%R
    (zip_with (λ yj kj, (yj ^ Z.to_nat kj
                         / sqrt (INR (fact (Z.to_nat kj))))%R) y k).

Lemma sqrt_fact_step (m : nat) :
  sqrt (INR (fact (S m))) = (sqrt (INR (S m)) * sqrt (INR (fact m)))%R.
Proof.
  change (fact (S m)) with (S m * fact m)%nat.
  rewrite mult_INR. apply sqrt_mult; apply pos_INR.
Qed.

Lemma sqrt_fact_nonzero (m : nat) : sqrt (INR (fact m)) ≠ 0%R.
Proof.
  intros Hz. apply sqrt_eq_0 in Hz; [|apply pos_INR].
  pose proof (INR_fact_neq_0 m). done.
Qed.

Lemma sqrt_INR_S_nonzero (m : nat) : sqrt (INR (S m)) ≠ 0%R.
Proof.
  intros Hz. apply sqrt_eq_0 in Hz; [|apply pos_INR].
  pose proof (not_0_INR (S m) ltac:(lia)). done.
Qed.

Lemma monomial_replicate_zero (y : list R) (n : nat) :
  monomial y (replicate n 0) = 1%R.
Proof.
  unfold monomial. revert n. induction y as [|yj y IH]; intros [|n]; try done.
  cbn [replicate zip_with foldr]. rewrite IH.
  change (Z.to_nat 0) with O. cbn [fact pow INR]. rewrite sqrt_1. field.
Qed.

Lemma sqrt_IZR_nonzero (v : Z) : 0 < v → sqrt (IZR v) ≠ 0%R.
Proof.
  intros Hv Hz. apply sqrt_eq_0 in Hz; [|apply IZR_le; lia].
  apply eq_IZR in Hz. lia.
Qed.

Lemma monomial_decrement (y : list R) (idx : list Z) (i : nat) (v : Z)
    (yi : R) :
  idx !! i = Some v → 0 < v → y !! i = Some yi →
  monomial y idx = (yi * monomial y (<[i := (v - 1)%Z]> idx) / sqrt (IZR v))%R.
Proof.
  intros Hi Hv. revert idx i Hi.
  induction y as [|yj y IH]; intros [|x idx] [|i] Hi Hy; simplify_eq/=.
  - unfold monomial. cbn [zip_with foldr].
    replace (Z.to_nat v) with (S (Z.to_nat (v - 1))) by lia.
    replace (IZR v) with (INR (S (Z.to_nat (v - 1))))
      by (rewrite INR_IZR_INZ; f_equal; lia).
    rewrite sqrt_fact_step. cbn [pow].
    pose proof (sqrt_fact_nonzero (Z.to_nat (v - 1))).
    pose proof (sqrt_INR_S_nonzero (Z.to_nat (v - 1))).
    field. done.
  - unfold monomial in *. cbn [zip_with foldr].
    rewrite (IH idx i Hi Hy).
    pose proof (sqrt_IZR_nonzero v Hv).
    pose proof (sqrt_fact_nonzero (Z.to_nat x)).
    field. done.
Qed.

(** The docstring's [C*H_k]: over the reals, the tensor computed with the
    constant [C] is [C] times the tensor computed with the constant 1,
    entry by entry. *)
Theorem hermite_numba_linear_in_C
    (M : matrix R) (cutoff : cutoff_arg) (y : list R) (C : R)
    (cache cache' : lru) (arrC arr1 : ndarray R) :
  let cs := cutoff_tuple cutoff (length y) in
  ncols M = nrows M → length cs = nrows M →
  cache_ok cache → cache_ok cache' →
  (hermite_multidimensional_numba M cutoff y C cache).1 = Ok arrC →
  (hermite_multidimensional_numba M cutoff y 1%R cache').1 = Ok arr1 →
  ∀ idx, in_shape idx cs → elem arrC idx = (C * elem arr1 idx)%R.
Proof.
  intros cs Hsq Hlen Hok Hok' HrunC Hrun1.
  destruct (hermite_numba_Ok_good M cutoff y C cache arrC Hsq Hlen Hok HrunC)
    as [Hready HC].
  destruct (hermite_numba_Ok_good M cutoff y 1%R cache' arr1 Hsq Hlen Hok' Hrun1)
    as [_ H1].
  by apply (value_good_scale M y cs Hready C arrC arr1).
Qed.

(** The [dC] tensor is the derivative of [C*H_k] in [C]: over the reals
    and for [C ≠ 0], the gradient driver returns as [dG_dC] the entries of
    the tensor computed with the constant 1. *)
Theorem grad_dC_unit_tensor
    (M : matrix R) (cutoff : cutoff_arg) (y : list R) (C : R)
    (cache cache' cache'' : lru) (arrC arr1 : ndarray R) :
  let cs := cutoff_tuple cutoff (length y) in
  C ≠ 0%R → ncols M = nrows M → length cs = nrows M →
  cache_ok cache → cache_ok cache' → cache_ok cache'' →
  (hermite_multidimensional_numba M cutoff y C cache).1 = Ok arrC →
  (hermite_multidimensional_numba M cutoff y 1%R cache').1 = Ok arr1 →
  ∃ dG_dC dG_dR dG_dy,
    (grad_hermite_multidimensional_numba arrC M cutoff y C cache'').1 =
      Ok (dG_dC, dG_dR, dG_dy) ∧
    ∀ idx, in_shape idx cs → elem dG_dC idx = elem arr1 idx.
Proof.
  intros cs HC0 Hsq Hlen Hok Hok' Hok'' HrunC Hrun1.
  destruct (hermite_numba_Ok_good M cutoff y C cache arrC Hsq Hlen Hok HrunC)
    as [Hready HC].
  destruct (hermite_numba_Ok_good M cutoff y 1%R cache' arr1 Hsq Hlen Hok' Hrun1)
    as [_ H1].
  destruct (grad_hermite_numba_run arrC M cutoff y C cache'' Hready
              (proj1 HC) Hok'') as (dR & dy & Hg & _).
  exists (array_div arrC C), dR, dy. split; [done|].
  intros idx Hin. rewrite elem_array_div.
  rewrite (value_good_scale M y cs Hready C arrC arr1 HC H1 idx Hin).
  cbn. field. done.
Qed.

(** Without coupling, [R = 0], the tensor is the product of powers: over
    the reals, for cutoffs between 1 and 1000 and a tensor [np.zeros]
    allocates, the driver returns the tensor whose entry at [k] is
    [C * Π_j y_j^{k_j} / sqrt(k_j!)]. *)
Theorem hermite_numba_zero_matrix
    (M : matrix R) (cutoff : cutoff_arg) (y : list R) (C : R) (cache : lru) :
  let cs := cutoff_tuple cutoff (length y) in
  (∀ a b, coeff M a b = 0%R) →
  nrows M = length y → ncols M = length y → length cs = length y →
  Forall (λ c, 1 ≤ c ≤ 1000) cs → allocates (K:=R) cs → cache_ok cache →
  ∃ arr,
    (hermite_multidimensional_numba M cutoff y C cache).1 = Ok arr ∧
    ∀ idx, in_shape idx cs → elem arr idx = (C * monomial y idx)%R.
Proof.
  intros cs Hzero Hrows Hcols Hlen Hcut Halloc Hok.
  assert (inputs_ready M y cs) as Hready by (split; [lia..|done]).
  destruct (hermite_numba_run M cutoff y C cache Hready Halloc Hok)
    as (arr & Hrun & _ & (_ & HC0 & Hrec)). fold cs in HC0, Hrec.
  exists arr. split; [done|].
  apply photon_induction. intros idx Hin IH.
  destruct (decide (sumZ idx = 0)) as [Hz|Hnz].
  { rewrite (in_shape_sum_zero _ _ Hin Hz), HC0, monomial_replicate_zero. lra. }
  pose proof (sumZ_nonneg idx (in_shape_nonneg _ _ Hin)) as Hnn.
  assert (1 ≤ sumZ idx) as Hsum by lia.
  pose proof (inputs_step_ready M y cs Hready idx Hin Hsum) as Hstep.
  rewrite (Hrec idx I Hin Hsum), (zero_matrix_recurrence M y) by done.
  pose proof (step_ki_in_shape M y cs idx Hstep) as Hki.
  pose proof (step_ki_sum M y cs idx Hstep) as Hkisum.
  pose proof (step_y M y cs idx Hstep) as Hy.
  destruct (step_divisor M y cs idx Hstep) as (v & Hv & Hvr).
  cbv zeta in Hki, Hkisum, Hy.
  rewrite (IH _ Hki) by lia.
  rewrite (monomial_decrement y idx _ v _ Hv ltac:(lia) Hy).
  unfold decrement. rewrite (list_lookup_total_correct _ _ _ Hv).
  pose proof (sqrt_IZR_nonzero v ltac:(lia)). field. done.
Qed.


(** ** One mode: the classical three-term recurrence *)

(** [(H_k, H_{k+1})] for [H_0 = 1], [H_1 = x],
    [H_{k+2} = x*H_{k+1} − (k+1)*r*H_k]: the probabilists' Hermite
    polynomials for [r = 1]. *)
Fixpoint hermite_pair (r x : R) (k : nat) : R * R :=
  match k with
  | O => (1%R, x)
  | S k' =>
      let '(a, b) := hermite_pair r x k' in
      (b, (x * b - INR (S k') * r * a)%R)
  end.

Definition hermite_poly (r x : R) (k : nat) : R := (hermite_pair r x k).1.

Lemma hermite_poly_0 r x : hermite_poly r x 0 = 1%R.
Proof. reflexivity. Qed.

Lemma hermite_poly_1 r x : hermite_poly r x 1 = x.
Proof. reflexivity. Qed.

Lemma hermite_poly_step r x (k : nat) :
  hermite_poly r x (S (S k)) =
    (x * hermite_poly r x (S k) - INR (S k) * r * hermite_poly r x k)%R.
Proof.
  unfold hermite_poly. cbn [hermite_pair].
  destruct (hermite_pair r x k) as [a b]. reflexivity.
Qed.

Lemma first_positive_single (v : Z) : 0 < v → first_positive [v] = O.
Proof.
  intros Hv. unfold first_positive. cbn [list_find].
  by rewrite decide_True.
Qed.

Lemma positive_positions_single (v : Z) :
  positive_positions [v] = if decide (0 < v) then [O] else [].
Proof.
  unfold positive_positions. cbn [length seq]. rewrite filter_cons.
  change ([v] !!! O) with v. by destruct (decide (0 < v)).
Qed.

(** For one mode, over the reals and for a cutoff between 1 and 1000
    whose tensor [np.zeros] allocates, the driver returns the tensor
    whose entry [k] is [C * H_k(y) / sqrt(k!)] with [H] the polynomials of
    the three-term recurrence for [r = R[0][0]]: the tensor holds the
    polynomials normalised by [sqrt(k!)]. *)
Theorem hermite_numba_one_mode
    (M : matrix R) (cutoff : cutoff_arg) (x C : R) (cache : lru) :
  let cs := cutoff_tuple cutoff 1 in
  nrows M = 1%nat → ncols M = 1%nat → length cs = 1%nat →
  Forall (λ c, 1 ≤ c ≤ 1000) cs → allocates (K:=R) cs → cache_ok cache →
  ∃ arr,
    (hermite_multidimensional_numba M cutoff [x] C cache).1 = Ok arr ∧
    ∀ k : nat, in_shape [Z.of_nat k] cs →
      elem arr [Z.of_nat k] =
        (C * hermite_poly (coeff M 0 0) x k / sqrt (INR (fact k)))%R.
Proof.
  intros cs Hrows Hcols Hlen Hcut Halloc Hok.
  assert (inputs_ready M [x] cs) as Hready by (split; [simpl; lia..|done]).
  destruct (hermite_numba_run M cutoff [x] C cache Hready Halloc Hok)
    as (arr & Hrun & _ & (_ & HC0 & Hrec)).
  exists arr. split; [done|].
  change (length [x]) with 1%nat in HC0, Hrec.
  fold cs in HC0, Hrec. rewrite Hlen in HC0. cbn in HC0.
  assert (∀ k : nat, in_shape [Z.of_nat (S k)] cs →
            elem arr [Z.of_nat (S k)] =
              hermite_recurrence M [x] (elem arr) [Z.of_nat (S k)] 0) as Hstep.
  { intros k Hin. rewrite (Hrec _ I Hin) by (cbn; lia).
    by rewrite first_positive_single by lia. }
  assert (∀ k : nat, in_shape [Z.of_nat (S k)] cs → in_shape [Z.of_nat k] cs)
    as Hdown.
  { intros k Hin. apply Forall2_same_length_lookup in Hin as [Hl Hin].
    apply Forall2_same_length_lookup. split; [done|].
    intros [|j] v d Hv Hd; simplify_eq/=.
    specialize (Hin O _ _ eq_refl Hd). lia. }
  assert (∀ k : nat,
            (in_shape [Z.of_nat k] cs →
             elem arr [Z.of_nat k] =
               (C * hermite_poly (coeff M 0 0) x k / sqrt (INR (fact k)))%R) ∧
            (in_shape [Z.of_nat (S k)] cs →
             elem arr [Z.of_nat (S k)] =
               (C * hermite_poly (coeff M 0 0) x (S k)
                / sqrt (INR (fact (S k))))%R)) as Hboth;
    [|intros k; apply Hboth].
  induction k as [|k [IHk IHSk]].
  - assert (elem arr [Z.of_nat 0] =
              (C * hermite_poly (coeff M 0 0) x 0 / sqrt (INR (fact 0)))%R)
      as H0.
    { change (Z.of_nat 0) with 0. rewrite HC0, hermite_poly_0.
      cbn [fact INR]. rewrite sqrt_1. field. }
    split; [done|]. intros Hin. rewrite (Hstep O Hin).
    unfold hermite_recurrence, decrement. cbv zeta.
    change ([Z.of_nat 1] !!! O) with 1. change (<[O:=1 - 1]> [Z.of_nat 1]) with [0].
    rewrite positive_positions_single, decide_False by lia.
    cbn [foldl]. change ([x] !!! O) with x. rewrite HC0, hermite_poly_1.
    cbn. rewrite sqrt_1. field.
  - split; [done|]. intros Hin.
    specialize (IHSk (Hdown _ Hin)). specialize (IHk (Hdown _ (Hdown _ Hin))).
    rewrite (Hstep (S k) Hin).
    unfold hermite_recurrence, decrement. cbv zeta.
    change ([Z.of_nat (S (S k))] !!! O) with (Z.of_nat (S (S k))).
    change (<[O:=Z.of_nat (S (S k)) - 1]> [Z.of_nat (S (S k))])
      with [Z.of_nat (S (S k)) - 1].
    replace (Z.of_nat (S (S k)) - 1) with (Z.of_nat (S k)) by lia.
    rewrite positive_positions_single, decide_True by lia.
    cbn [foldl]. change ([x] !!! O) with x.
    change ([Z.of_nat (S k)] !!! O) with (Z.of_nat (S k)).
    change (<[O:=Z.of_nat (S k) - 1]> [Z.of_nat (S k)])
      with [Z.of_nat (S k) - 1].
    replace (Z.of_nat (S k) - 1) with (Z.of_nat k) by lia.
    rewrite IHSk, IHk, hermite_poly_step.
    cbn [Kdiv Ksub Kmul Ksqrt real_scalar].
    rewrite <- !INR_IZR_INZ.
    rewrite (sqrt_fact_step (S k)), (sqrt_fact_step k).
    pose proof (sqrt_fact_nonzero k).
    pose proof (sqrt_INR_S_nonzero k) as Hs1.
    pose proof (sqrt_INR_S_nonzero (S k)).
    assert (INR (S k) = sqrt (INR (S k)) * sqrt (INR (S k)))%R as Hsq.
    { symmetry. apply sqrt_sqrt, pos_INR. }
    set (s1 := sqrt (INR (S k))) in *.
    set (s2 := sqrt (INR (S (S k)))) in *.
    set (f := sqrt (INR (fact k))) in *.
    rewrite Hsq. field. done.
Qed.


(** ** The gradient driver takes any tensor of the cutoff shape *)

(** The gradient driver does not check where [array] comes from: for
    well-formed [R], [y] and cutoff (entries between 1 and 1000) and any
    tensor of the cutoff shape it returns [array / C] and two tensors that
    satisfy the gradient recurrences over that [array]. *)
Theorem grad_hermite_numba_any_tensor {K} `{Scalar K}
    (array : ndarray K) (R : matrix K) (cutoff : cutoff_arg) (y : list K)
    (C : K) (cache : lru) :
  let cs := cutoff_tuple cutoff (length y) in
  nrows R = length y → ncols R = length y → length cs = length y →
  Forall (λ c, 1 ≤ c ≤ 1000) cs → shape array = cs → cache_ok cache →
  ∃ dG_dC dG_dR dG_dy,
    (grad_hermite_multidimensional_numba array R cutoff y C cache).1 =
      Ok (dG_dC, dG_dR, dG_dy) ∧
    hermite_gradients R y cs C array dG_dC dG_dR dG_dy.
Proof.
  intros cs Hrows Hcols Hlen Hcut Hsh Hok.
  assert (inputs_ready R y cs) as Hready by (split; [lia..|done]).
  destruct (grad_hermite_numba_run array R cutoff y C cache Hready Hsh Hok)
    as (dR & dy & Hg & _ & HshR & Hshy & HR0 & Hy0 & Hrec).
  exists (array_div array C), dR, dy. split; [done|].
  split_and!; try done.
  - intros k. apply elem_array_div.
  - intros idx Hin Hsum. exists (first_positive idx).
    split; [|by apply Hrec].
    apply first_positive_spec; [by eapply in_shape_nonneg|done].
Qed.

Lemma grad_hermite_numba_any_tensor_witness :
  let array := {| shape := [4; 4]; background := 5%R; data := ∅ |} in
  ∃ dG_dC dG_dR dG_dy,
    (grad_hermite_multidimensional_numba array regression_R (CutoffInt 4)
       regression_y 1%R []).1 = Ok (dG_dC, dG_dR, dG_dy) ∧
    hermite_gradients regression_R regression_y [4; 4] 1%R array
      dG_dC dG_dR dG_dy.
Proof.
  intros array.
  apply (grad_hermite_numba_any_tensor array regression_R (CutoffInt 4)
           regression_y 1%R []); try reflexivity.
  - repeat constructor; lia.
  - constructor.
Defined.

(** ** [remove] *)

Lemma filter_seq_increasing (P : nat → Prop) `{∀ x, Decision (P x)}
    (start len a b la lb : nat) :
  filter P (seq start len) !! a = Some la →
  filter P (seq start len) !! b = Some lb →
  (a < b)%nat → (la < lb)%nat.
Proof.
  revert start a b. induction len as [|len IH]; intros start a b; [done|].
  cbn [seq]. rewrite filter_cons. destruct (decide (P start)); [|apply IH].
  destruct a as [|a], b as [|b]; try lia; cbn [lookup list_lookup].
  - intros [= <-] Hb _. apply list_elem_of_lookup_2 in Hb.
    apply list_elem_of_filter in Hb as [_ Hb%elem_of_seq]. lia.
  - intros Ha Hb Hab. apply (IH (S start) a b); [done..|lia].
Qed.

(** The generator never raises.  It yields one pair per positive
    coordinate, by increasing position, and the tuple of the pair is the
    pattern with that coordinate, and no other, reduced by one. *)
Theorem remove_yields (pattern : list Z) :
  ∃ pairs,
    remove pattern = Ok pairs ∧
    (∀ l kl, (l, kl) ∈ pairs ↔
       ∃ v, pattern !! l = Some v ∧ 0 < v ∧ kl = <[l := v - 1]> pattern) ∧
    (∀ (a b : nat) p q,
       pairs !! a = Some p → pairs !! b = Some q → (a < b)%nat →
       (p.1 < q.1)%nat) ∧
    (∀ l kl, (l, kl) ∈ pairs →
       length kl = length pattern ∧ sumZ kl = sumZ pattern - 1).
Proof.
  eexists. split; [apply remove_spec|].
  assert (∀ l kl,
            (l, kl) ∈ (λ l, (l, decrement pattern l))
                        <$> positive_positions pattern ↔
            ∃ v, pattern !! l = Some v ∧ 0 < v ∧ kl = <[l := v - 1]> pattern)
    as Hmem.
  { intros l kl. rewrite list_elem_of_fmap. split.
    - intros (l' & [= <- ->] & (v & Hl & Hv)%elem_of_positive_positions).
      exists v. split_and!; [done..|].
      unfold decrement. by rewrite (list_lookup_total_correct _ _ _ Hl).
    - intros (v & Hl & Hv & ->). exists l. split.
      + unfold decrement. by rewrite (list_lookup_total_correct _ _ _ Hl).
      + apply elem_of_positive_positions. eauto. }
  split_and!; [done| |].
  - intros a b p q Ha Hb Hab.
    rewrite list_lookup_fmap in Ha, Hb.
    destruct (positive_positions pattern !! a) as [la|] eqn:Hla; [|done].
    destruct (positive_positions pattern !! b) as [lb|] eqn:Hlb; [|done].
    simplify_eq/=. by eapply filter_seq_increasing.
  - intros l kl (v & Hl & Hv & ->)%Hmem.
    rewrite length_insert, (sumZ_insert _ _ _ _ Hl). split; [done|lia].
Qed.

(** ** The memoisation store *)

(** The store holds at most [maxsize] entries, under distinct keys. *)
Definition cache_bounded (cache : lru) : Prop :=
  (length cache ≤ maxsize)%nat ∧ NoDup cache.*1.

Lemma partition_cached_bounded photons cutoff cache :
  cache_bounded cache → cache_bounded (partition_cached photons cutoff cache).2.
Proof.
  intros [Hlen Hnd]. unfold partition_cached, cache_bounded, lru in *.
  destruct (list_find _ cache) as [[j [key v]]|] eqn:Hfind; cbn [snd].
  - apply list_find_Some in Hfind as (Hj & Hkey & _). simpl in Hkey. subst key.
    pose proof (lookup_lt_Some _ _ _ Hj) as Hjlt.
    split.
    + cbn [length]. rewrite length_delete by eauto. lia.
    + rewrite fmap_cons. cbn [fst]. apply NoDup_cons. split.
      * rewrite <- (take_drop_middle _ _ _ Hj) in Hnd.
        rewrite fmap_app, fmap_cons in Hnd. cbn [fst] in Hnd.
        apply NoDup_app in Hnd as (_ & Hdis & Hnd').
        apply NoDup_cons in Hnd' as [Hnot _].
        rewrite delete_take_drop, fmap_app. intros Hin.
        apply elem_of_app in Hin as [Hin|Hin]; [|done].
        apply (Hdis _ Hin). left.
      * eapply sublist_NoDup; [done|].
        apply fmap_sublist, sublist_delete.
  - apply list_find_None in Hfind.
    split.
    + rewrite length_take. lia.
    + eapply sublist_NoDup; [|apply fmap_sublist, sublist_take].
      rewrite fmap_cons. cbn [fst]. apply NoDup_cons. split; [|done].
      intros Hin. apply list_elem_of_fmap in Hin as ([key v] & Hkey & Hin).
      simpl in Hkey. subst key.
      by apply (proj1 (Forall_forall _ _) Hfind _ Hin).
Qed.

Lemma sweep_bounded {St} (body : St → list Z → result St) cutoff levels s
    cache :
  cache_bounded cache → cache_bounded (sweep body cutoff levels s cache).2.
Proof.
  revert s cache. induction levels as [|p levels IH]; intros s cache Hb;
    [done|].
  cbn [sweep]. pose proof (partition_cached_bounded p cutoff cache Hb) as Hb'.
  destruct (partition_cached p cutoff cache) as [idxs cache'].
  destruct (for_each idxs body s); [by apply IH|done].
Qed.

(** A call of the memoised [partition] returns what [partition]
    computes, leaves its key the most recent entry, keeps the store within
    [maxsize] entries under distinct keys, and a repeated call is answered
    from the store without changing it. *)
Theorem partition_cached_memoises photons cutoff cache :
  cache_ok cache → cache_bounded cache →
  let call := partition_cached photons cutoff cache in
  call.1 = partition photons cutoff ∧
  head call.2 = Some ((photons, cutoff), partition photons cutoff) ∧
  cache_ok call.2 ∧ cache_bounded call.2 ∧
  partition_cached photons cutoff call.2 = call.
Proof.
  intros Hok Hb call.
  destruct (partition_cached_ok photons cutoff cache Hok) as [Hv Hok'].
  pose proof (partition_cached_bounded photons cutoff cache Hb) as Hb'.
  fold call in Hv, Hok', Hb'.
  assert (call.2 = ((photons, cutoff), partition photons cutoff) :: tail call.2)
    as Hhead.
  { subst call. unfold partition_cached in *.
    destruct (list_find _ cache) as [[j [key v]]|]; cbn [fst snd] in *.
    - by subst v.
    - reflexivity. }
  split_and!; [done|by rewrite Hhead|done|done|].
  destruct call as [v c1]. cbn [fst snd] in *. subst v.
  rewrite Hhead. unfold partition_cached. cbn [list_find].
  rewrite decide_True by done. reflexivity.
Qed.

Lemma partition_cached_memoises_witness :
  let call := partition_cached 2 [2; 2] [((1, [2; 2]), [[0; 1]; [1; 0]])] in
  call.1 = [[1; 1]] ∧
  call.2 = [((2, [2; 2]), [[1; 1]]); ((1, [2; 2]), [[0; 1]; [1; 0]])] ∧
  partition_cached 2 [2; 2] call.2 = call.
Proof.
  intros call.
  destruct (partition_cached_memoises 2 [2; 2]
              [((1, [2; 2]), [[0; 1]; [1; 0]])]) as (H1 & _ & _ & _ & H5).
  - repeat constructor.
  - split; [cbn; unfold maxsize; lia|]. repeat constructor. set_solver.
  - split_and!; [exact H1|reflexivity|exact H5].
Defined.

(** Both drivers leave the store holding answers of [partition], at most
    [maxsize] of them, under distinct keys, whether they return or
    raise. *)
Theorem drivers_keep_store {K} `{Scalar K}
    (array : ndarray K) (R : matrix K) (cutoff : cutoff_arg) (y : list K)
    (C : K) (cache : lru) :
  cache_ok cache → cache_bounded cache →
  let after := (hermite_multidimensional_numba R cutoff y C cache).2 in
  let after' :=
    (grad_hermite_multidimensional_numba array R cutoff y C after).2 in
  cache_ok after ∧ cache_bounded after ∧
  cache_ok after' ∧ cache_bounded after'.
Proof.
  intros Hok Hb.
  assert (∀ c, cache_ok c → cache_bounded c →
            cache_ok (hermite_multidimensional_numba R cutoff y C c).2 ∧
            cache_bounded (hermite_multidimensional_numba R cutoff y C c).2)
    as Hvalue.
  { intros c Hc Hcb. unfold hermite_multidimensional_numba.
    case_decide; [done|].
    destruct (np_zeros _ ≫= _) as [A0|e]; [|done].
    split; [by apply sweep_cached|by apply sweep_bounded]. }
  assert (∀ c, cache_ok c → cache_bounded c →
            cache_ok (grad_hermite_multidimensional_numba
                        array R cutoff y C c).2 ∧
            cache_bounded (grad_hermite_multidimensional_numba
                             array R cutoff y C c).2)
    as Hgrad.
  { intros c Hc Hcb. unfold grad_hermite_multidimensional_numba.
    case_decide; [done|].
    match goal with |- context [sweep ?b ?cs ?ls ?g c] =>
      pose proof (proj2 (sweep_cached b cs ls g c Hc)) as H1;
      pose proof (sweep_bounded b cs ls g c Hcb) as H2;
      destruct (sweep b cs ls g c) as [[g'|e] c']
    end; done. }
  intros after after'.
  destruct (Hvalue cache Hok Hb) as [H1 H2]. fold after in H1, H2.
  destruct (Hgrad after H1 H2) as [H3 H4]. done.
Qed.

Lemma drivers_keep_store_witness :
  let after :=
    (hermite_multidimensional_numba (symbolic_R 2) (CutoffInt 2)
       (symbolic_y 2) TC []).2 in
  after = [((2, [2; 2]), [[1; 1]]); ((1, [2; 2]), [[0; 1]; [1; 0]])] ∧
  cache_ok after ∧ cache_bounded after.
Proof.
  intros after.
  destruct (drivers_keep_store symbolic_tensor (symbolic_R 2) (CutoffInt 2)
              (symbolic_y 2) TC []) as (H1 & H2 & _).
  - constructor.
  - split; [cbn; lia|constructor].
  - split_and!; [vm_compute; reflexivity|exact H1|exact H2].
Defined.


Lemma hermite_numba_linear_in_C_witness :
  ∃ arrC arr1,
    (hermite_multidimensional_numba regression_R (CutoffInt 4) regression_y
       3%R []).1 = Ok arrC ∧
    (hermite_multidimensional_numba regression_R (CutoffInt 4) regression_y
       1%R []).1 = Ok arr1 ∧
    ∀ idx, in_shape idx [4; 4] → elem arrC idx = (3 * elem arr1 idx)%R.
Proof.
  assert (inputs_ready regression_R regression_y [4; 4]) as Hready.
  { split; [reflexivity..|]. repeat constructor; lia. }
  assert (allocates (K:=R) [4; 4]) as Halloc by allocated.
  destruct (hermite_numba_run regression_R (CutoffInt 4) regression_y 3%R []
              Hready Halloc ltac:(constructor)) as (arrC & HC & _).
  destruct (hermite_numba_run regression_R (CutoffInt 4) regression_y 1%R []
              Hready Halloc ltac:(constructor)) as (arr1 & H1 & _).
  exists arrC, arr1. split; [exact HC|]. split; [exact H1|].
  assert (cache_ok []) as Hnil by constructor.
  exact (hermite_numba_linear_in_C regression_R (CutoffInt 4) regression_y
           3%R [] [] arrC arr1 eq_refl eq_refl Hnil Hnil HC H1).
Defined.

Lemma grad_dC_unit_tensor_witness :
  ∃ arrC arr1 dG_dC dG_dR dG_dy,
    (hermite_multidimensional_numba regression_R (CutoffInt 4) regression_y
       3%R []).1 = Ok arrC ∧
    (hermite_multidimensional_numba regression_R (CutoffInt 4) regression_y
       1%R []).1 = Ok arr1 ∧
    (grad_hermite_multidimensional_numba arrC regression_R (CutoffInt 4)
       regression_y 3%R []).1 = Ok (dG_dC, dG_dR, dG_dy) ∧
    ∀ idx, in_shape idx [4; 4] → elem dG_dC idx = elem arr1 idx.
Proof.
  assert (inputs_ready regression_R regression_y [4; 4]) as Hready.
  { split; [reflexivity..|]. repeat constructor; lia. }
  assert (allocates (K:=R) [4; 4]) as Halloc by allocated.
  destruct (hermite_numba_run regression_R (CutoffInt 4) regression_y 3%R []
              Hready Halloc ltac:(constructor)) as (arrC & HC & _).
  destruct (hermite_numba_run regression_R (CutoffInt 4) regression_y 1%R []
              Hready Halloc ltac:(constructor)) as (arr1 & H1 & _).
  assert (cache_ok []) as Hnil by constructor.
  assert (3 ≠ 0)%R as H3 by lra.
  destruct (grad_dC_unit_tensor regression_R (CutoffInt 4) regression_y
              3%R [] [] [] arrC arr1 H3 eq_refl eq_refl Hnil Hnil Hnil HC H1)
    as (dC & dR & dy & Hg & Hunit).
  exists arrC, arr1, dC, dR, dy.
  exact (conj HC (conj H1 (conj Hg Hunit))).
Defined.

Lemma hermite_numba_zero_matrix_witness :
  let M := {| nrows := 2; ncols := 2; coeff := λ _ _, 0%R |} in
  ∃ arr,
    (hermite_multidimensional_numba M (CutoffSeq [3; 3]) regression_y
       2%R []).1 = Ok arr ∧
    ∀ idx, in_shape idx [3; 3] →
           elem arr idx = (2 * monomial regression_y idx)%R.
Proof.
  intros M.
  assert (Forall (λ c, 1 ≤ c ≤ 1000) [3; 3]) as Hcut
    by (repeat constructor; lia).
  assert (allocates (K:=R) [3; 3]) as Halloc by allocated.
  assert (cache_ok []) as Hnil by constructor.
  exact (hermite_numba_zero_matrix M (CutoffSeq [3; 3]) regression_y 2%R []
           (λ _ _, eq_refl) eq_refl eq_refl eq_refl Hcut Halloc Hnil).
Defined.

Lemma hermite_numba_one_mode_witness :
  let M := {| nrows := 1; ncols := 1; coeff := λ _ _, 1%R |} in
  ∃ arr,
    (hermite_multidimensional_numba M (CutoffInt 5) [(1 / 2)%R] 1%R []).1 =
      Ok arr ∧
    elem arr [2] = (1 * ((1 / 2) * (1 / 2) - 1) / sqrt 2)%R.
Proof.
  intros M.
  assert (Forall (λ c, 1 ≤ c ≤ 1000) [5]) as Hcut
    by (repeat constructor; lia).
  assert (allocates (K:=R) [5]) as Halloc by allocated.
  assert (cache_ok []) as Hnil by constructor.
  destruct (hermite_numba_one_mode M (CutoffInt 5) (1 / 2)%R 1%R []
              eq_refl eq_refl eq_refl Hcut Halloc Hnil) as (arr & Hrun & Hk).
  exists arr. split; [exact Hrun|].
  assert (in_shape [Z.of_nat 2] [5]) as Hin by (repeat constructor; lia).
  pose proof (Hk 2%nat Hin) as H2.
  change [Z.of_nat 2] with [2] in H2. rewrite H2.
  rewrite hermite_poly_step, hermite_poly_1, hermite_poly_0.
  change (coeff M 0 0) with 1%R. change (fact 2) with 2%nat.
  change (INR 1) with 1%R. change (INR 2) with (1 + 1)%R.
  replace (1 + 1)%R with 2%R by lra.
  replace (1 / 2 * (1 / 2) - 1 * 1 * 1)%R with (1 / 2 * (1 / 2) - 1)%R by lra.
  reflexivity.
Defined.

(** ** The value step at the all-zero multi-index *)

(** A tuple of subscripts that each lie inside their dimension, counted
    from either end, names an element. *)
Lemma resolve_wrapped (sh idx : list Z) :
  Forall2 (λ k d, - d ≤ k < d) idx sh → is_Some (resolve sh idx).
Proof.
  induction 1 as [|k d idx sh Hk _ [r IH]]; simpl; [by eexists|].
  rewrite IH. unfold norm_index.
  repeat case_decide; simpl; first [by eexists|lia].
Qed.

(** The drivers never call the value step at the all-zero multi-index,
    and the step is not guarded against it.  Called there on an array of
    as many dimensions, none empty, and a vector that long, the search for
    a positive entry ends at the last position, nothing is subtracted, and
    the quotient by [SQRT[0]], the square root of zero, raises
    [ZeroDivisionError]: the array is not written. *)
Theorem fill_hermite_at_origin {K} `{Scalar K}
    (A : ndarray K) (n : nat) (R : matrix K) (y : list K) :
  length (shape A) = S n → Forall (λ d, 1 ≤ d) (shape A) →
  (n < length y)%nat →
  first_positive (replicate (S n) 0) = n ∧
  fill_hermite_multidimensional_numba_loop A (replicate (S n) 0) R y =
    Err ZeroDivisionError.
Proof.
  intros Hrank Hdims Hy.
  assert (first_positive (replicate (S n) 0) = n) as Hfirst.
  { unfold first_positive.
    destruct (list_find _ _) as [[i v]|] eqn:Hfind;
      [|by rewrite length_replicate].
    apply list_find_Some in Hfind as (Hv & Hpos & _).
    apply lookup_replicate in Hv as [-> _]. lia. }
  split; [done|].
  unfold fill_hermite_multidimensional_numba_loop. rewrite Hfirst.
  assert (replicate (S n) 0 !! n = Some 0) as Hn
    by (apply lookup_replicate_2; lia).
  rewrite (dec_lookup _ _ _ Hn), bind_Ok.
  set (ki := <[n := 0 - 1]> (replicate (S n) 0)).
  destruct (lookup_lt_is_Some_2 y n Hy) as [yn Hyn].
  unfold vgetitem. rewrite Hyn. simpl of_option. rewrite bind_Ok.
  destruct (resolve_wrapped (shape A) ki) as [k Hk].
  { apply Forall2_same_length_lookup. subst ki.
    split; [by rewrite length_insert, length_replicate|].
    intros j x d Hx Hd.
    pose proof (proj1 (Forall_lookup _ _) Hdims _ _ Hd) as Hd1. simpl in Hd1.
    destruct (decide (n = j)) as [->|Hne].
    - rewrite list_lookup_insert_eq in Hx by (rewrite length_replicate; lia).
      simplify_eq. lia.
    - rewrite list_lookup_insert_ne in Hx by done.
      apply lookup_replicate in Hx as [-> _]. lia. }
  assert (numba_getitem A ki = Ok (elem A k)) as ->.
  { unfold numba_getitem, getitem. subst ki.
    rewrite !decide_False
      by (rewrite length_insert, length_replicate; lia).
    by rewrite Hk. }
  rewrite bind_Ok, remove_spec, bind_Ok.
  assert (positive_positions ki = []) as ->.
  { apply filter_none. intros l Hl%elem_of_seq. subst ki.
    rewrite length_insert, length_replicate in Hl.
    destruct (decide (n = l)) as [->|Hne].
    - rewrite list_lookup_total_insert_eq
        by (rewrite length_replicate; lia). lia.
    - rewrite list_lookup_total_insert_ne by done.
      rewrite (list_lookup_total_correct _ _ 0); [lia|].
      apply lookup_replicate_2. lia. }
  rewrite fmap_nil. cbn [for_each]. rewrite bind_Ok.
  change (0 :: replicate n 0) with (replicate (S n) 0). rewrite Hn.
  simpl of_option. rewrite bind_Ok.
  rewrite SQRT_getitem_in_range by lia. rewrite bind_Ok.
  by rewrite numba_div_sqrt_zero.
Qed.

Lemma fill_hermite_at_origin_witness :
  first_positive [0; 0] = 1%nat ∧
  fill_hermite_multidimensional_numba_loop symbolic_tensor [0; 0]
    (symbolic_R 2) (symbolic_y 2) = Err ZeroDivisionError.
Proof.
  apply (fill_hermite_at_origin symbolic_tensor 1 (symbolic_R 2)
           (symbolic_y 2)).
  - reflexivity.
  - repeat constructor; lia.
  - simpl. lia.
Defined.

(** ** The front end *)

Section FrontEndFacts.
Context {K tol : Type} `{Scalar K} `{Collaborators K tol}.

(** Without a vector the flag [modified] changes nothing: the call is the
    modified call on the zero vector. *)
Theorem hermite_multidimensional_without_vector
    (R : matrix K) (cutoff : Z) (renorm make_tensor modified : bool)
    (rtol atol : tol) :
  hermite_multidimensional R cutoff None renorm make_tensor modified
    rtol atol =
  hermite_multidimensional R cutoff (Some (replicate (nrows R) Kzero))
    renorm make_tensor true rtol atol.
Proof.
  unfold hermite_multidimensional, recursion_limit.
  change 1000%nat with (S 999). cbn [hermite_multidimensional_depth].
  destruct (input_validation R rtol atol) as [[]|e]; [|done].
  by destruct modified.
Qed.

(** A vector whose length is not the dimension of [R] is reported after
    the validation, whatever the flags are; no kernel is run. *)
Theorem hermite_multidimensional_wrong_length
    (R : matrix K) (cutoff : Z) (y : list K)
    (renorm make_tensor modified : bool) (rtol atol : tol) :
  length y ≠ nrows R →
  hermite_multidimensional R cutoff (Some y) renorm make_tensor modified
    rtol atol =
  (_ ← input_validation R rtol atol; Err IncompatibleDimensions).
Proof.
  intros Hy. unfold hermite_multidimensional, recursion_limit.
  change 1000%nat with (S 999). cbn [hermite_multidimensional_depth].
  destruct (input_validation R rtol atol) as [[]|e]; [|done].
  rewrite !bind_Ok. destruct modified.
  - by rewrite decide_True.
  - by rewrite decide_False, decide_True.
Qed.

End FrontEndFacts.

(** ** [hafnian_batched] *)

(** The unary minus of an element. *)
Class Negation (K : Type) : Type := Kopp : K → K.

#[global] Instance real_negation : Negation R := Ropp.

(** [-A] *)
Definition matrix_opp {K} `{Negation K} (A : matrix K) : matrix K :=
  {| nrows := nrows A; ncols := ncols A;
     coeff := λ i l, Kopp (coeff A i l) |}.

Section HafnianBatched.
Context {K tol : Type} `{Scalar K} `{Negation K} `{Collaborators K tol}.

Definition hafnian_batched (A : matrix K) (cutoff : Z)
    (mu : option (list K)) (rtol atol : tol) (renorm make_tensor : bool)
  : result (values K) :=
  _ ← input_validation A rtol atol;
  let n := nrows A in
  let mu := match mu with
            | None => replicate n Kzero
            | Some mu0 => mu0
            end in
  hermite_multidimensional (matrix_opp A) cutoff (Some mu) renorm make_tensor
    true rtol_default atol_default.

(** The values the kernels give for [-A] and [mu]. *)
Definition batched_values (A : matrix K) (cutoff : Z) (mu : list K)
    (renorm : bool) : list K :=
  let R := matrix_opp A in
  if is_float R mu
  then if renorm
       then rhmr (real_if_close_matrix R) (real_if_close_vector mu) cutoff
       else hmr (real_if_close_matrix R) (real_if_close_vector mu) cutoff
  else if renorm
       then rhm (complex128_matrix R) (complex128_vector mu) cutoff
       else hm (complex128_matrix R) (complex128_vector mu) cutoff.

(** A call of [hafnian_batched] that returns has validated [A] with the
    caller's tolerances and [-A] once more with the default ones, was given
    a vector of the dimension of [A] (or none, read as zeros), and returns
    what the kernel computes for [-A] and that vector itself: the change of
    basis [R @ y] of the unmodified polynomials is never applied. *)
Theorem hafnian_batched_returns (A : matrix K) (cutoff : Z)
    (mu : option (list K)) (rtol atol : tol) (renorm make_tensor : bool)
    (v : values K) :
  hafnian_batched A cutoff mu rtol atol renorm make_tensor = Ok v →
  let mu' := default (replicate (nrows A) Kzero) mu in
  input_validation A rtol atol = Ok () ∧
  input_validation (matrix_opp A) rtol_default atol_default = Ok () ∧
  length mu' = nrows A ∧
  if make_tensor
  then np_reshape (batched_values A cutoff mu' renorm)
         (replicate (nrows A) cutoff) = Ok v
  else v = Flat (batched_values A cutoff mu' renorm).
Proof.
  intros Hrun mu'. unfold hafnian_batched in Hrun.
  apply bind_Ok_inv in Hrun as ([] & HvalA & Hrun). cbv zeta in Hrun.
  assert (match mu with
          | Some mu0 => mu0
          | None => replicate (nrows A) Kzero
          end = mu') as Hmu by (by destruct mu).
  rewrite Hmu in Hrun. clear Hmu.
  unfold hermite_multidimensional, recursion_limit in Hrun.
  change 1000%nat with (S 999) in Hrun.
  cbn [hermite_multidimensional_depth] in Hrun.
  apply bind_Ok_inv in Hrun as ([] & HvalB & Hrun).
  change (nrows (matrix_opp A)) with (nrows A) in Hrun.
  destruct (decide (length mu' ≠ nrows A)) as [|Hlen]; [done|].
  split_and!; [done|done|lia|].
  unfold batched_values. destruct make_tensor; [done|].
  by injection Hrun as <-.
Qed.

End HafnianBatched.

(** Collaborators over the reals whose kernels return no values, to run
    the front end on concrete arguments. *)
Definition silent_collaborators : Collaborators R R :=
  real_collaborators (λ _ _, true) (λ M, M) (λ M, M) (λ v, v) (λ v, v)
    (λ _ _ _, []) (λ _ _ _, []) (λ _ _ _, []) (λ _ _ _, [])
    (λ v sh, Ok (Tensor sh v)).

Lemma hermite_multidimensional_wrong_length_witness :
  hermite_multidimensional (H0 := silent_collaborators) regression_R 4
    (Some [1%R; 2%R; 3%R]) false true false (1 / 100)%R 0%R =
  Err IncompatibleDimensions.
Proof.
  rewrite (hermite_multidimensional_wrong_length (H0 := silent_collaborators)
             regression_R 4 [1%R; 2%R; 3%R] false true false
             (1 / 100)%R 0%R) by (simpl; lia).
  cbn [input_validation silent_collaborators real_collaborators].
  unfold input_validation_real, allclose_transpose. simpl.
  rewrite !bool_decide_eq_true_2; [done|..];
    unfold Rabs; repeat destruct Rcase_abs; lra.
Defined.

Definition identity_2 : matrix R :=
  {| nrows := 2; ncols := 2;
     coeff := λ i l, if decide (i = l) then 1%R else 0%R |}.

Lemma hafnian_batched_returns_witness :
  hafnian_batched (H1 := silent_collaborators) identity_2 3 None
    (1 / 100)%R 0%R false false = Ok (Flat []) ∧
  input_validation (Collaborators := silent_collaborators)
    (matrix_opp identity_2) (1 / 100000)%R (1 / 100000000)%R = Ok ().
Proof.
  assert (hafnian_batched (H1 := silent_collaborators) identity_2 3 None
            (1 / 100)%R 0%R false false = Ok (Flat [])) as Hrun.
  { unfold hafnian_batched.
    cbn [input_validation silent_collaborators real_collaborators].
    assert (input_validation_real identity_2 (1 / 100) 0 = Ok ()) as ->.
    { unfold input_validation_real, allclose_transpose. simpl.
      rewrite !bool_decide_eq_true_2; [done|..];
        unfold Rabs; repeat destruct Rcase_abs; lra. }
    rewrite bind_Ok. cbv zeta.
    rewrite hermite_multidimensional_modified_flat; [done|done|].
    cbn [input_validation rtol_default atol_default silent_collaborators
         real_collaborators].
    unfold input_validation_real, allclose_transpose. simpl.
    unfold Kopp, real_negation.
    rewrite !bool_decide_eq_true_2; [done|..];
      unfold Rabs; repeat destruct Rcase_abs; lra. }
  split; [exact Hrun|].
  by destruct (hafnian_batched_returns (H1 := silent_collaborators)
                 identity_2 3 None (1 / 100)%R 0%R false false _ Hrun)
    as (_ & Hval & _).
Defined.
